(** * The gag database: parser, keyword index, search and validation

    A shallow embedding of [src/database/gag_database.py] and the properties
    of its parse / index / search pipeline.

    Text.  A Python [str] is modelled as a list of characters, one [ascii]
    per code point, over the range U+0000..U+00FF.  On that range
    [str.lower], [str.strip] and the classes of the [re] module ([\s], [\d],
    [\w], [.], [\b], [$], the IGNORECASE flag) are finite tables, written out
    below as the interpreter has them.

    Regular expressions.  The patterns of the source are transcribed into a
    small syntax and executed by a backtracking matcher that lists the
    outcomes in the order in which [re] tries them; [re.search] and
    [re.findall] are defined on top of it. *)

From Stdlib Require Import List Ascii String ZArith Lia Bool.
From Stdlib Require Import Sorting.Sorted Sorting.Permutation.
From stdpp Require Import gmap strings list fin_maps sets.

Set Default Proof Using "Type".
Set Warnings "-clear-no-such-hyp".

Abbreviation str := (list ascii).

(** A string literal of the source. *)
Definition lit (s : string) : str := list_ascii_of_string s.

(** ** Characters *)

Module Char.

Definition code (c : ascii) : N := N_of_ascii c.

Definition in_range (lo hi : N) (c : ascii) : bool :=
  ((lo <=? code c) && (code c <=? hi))%N.

Definition is_code (n : N) (c : ascii) : bool := (code c =? n)%N.

(** [str.isspace], the class [\s], and what [str.strip] removes:
    TAB LF VT FF CR, FS GS RS US, SPACE, NEL and NBSP. *)
Definition is_space (c : ascii) : bool :=
  in_range 9 13 c || in_range 28 32 c || is_code 133 c || is_code 160 c.

(** The class [\d]. *)
Definition is_digit (c : ascii) : bool := in_range 48 57 c.

(** The class [[a-z]]. *)
Definition is_az (c : ascii) : bool := in_range 97 122 c.

(** The class [.] without DOTALL: anything but a line feed. *)
Definition is_dot (c : ascii) : bool := negb (is_code 10 c).

(** Characters with an upper-case form different from their lower-case
    one: A-Z and the Latin-1 capitals (U+00D7 is the multiplication sign). *)
Definition is_upper (c : ascii) : bool :=
  in_range 65 90 c || (in_range 192 222 c && negb (is_code 215 c)).

(** [str.lower] on one character. *)
Definition lower (c : ascii) : ascii :=
  if is_upper c then ascii_of_N (code c + 32) else c.

(** The class [\w] ([str.isalnum] or underscore); [\b] is defined from it. *)
Definition is_word (c : ascii) : bool :=
  is_digit c || in_range 65 90 c || is_code 95 c || is_az c
  || is_code 170 c || is_code 178 c || is_code 179 c || is_code 181 c
  || is_code 185 c || is_code 186 c || in_range 188 190 c
  || in_range 192 214 c || in_range 216 246 c || in_range 248 255 c.

(** Comparison of two characters under IGNORECASE. *)
Definition eq_ci (a b : ascii) : bool :=
  if decide (lower a = lower b) then true else false.

Definition ltb (a b : ascii) : bool := (code a <? code b)%N.

End Char.

(** ** Strings *)

Fixpoint take_while {A} (p : A -> bool) (l : list A) : list A :=
  match l with
  | x :: t => if p x then x :: take_while p t else []
  | [] => []
  end.

Fixpoint drop_while {A} (p : A -> bool) (l : list A) : list A :=
  match l with
  | x :: t => if p x then drop_while p t else l
  | [] => []
  end.

(** [s.lower()] *)
Definition lower (s : str) : str := map Char.lower s.

(** [s.strip()] *)
Definition lstrip (s : str) : str := drop_while Char.is_space s.
Definition rstrip (s : str) : str := rev (drop_while Char.is_space (rev s)).
Definition strip (s : str) : str := rstrip (lstrip s).

(** [t.startswith(p)] *)
Fixpoint starts_with (p t : str) : bool :=
  match p, t with
  | [], _ => true
  | a :: p', b :: t' => if decide (a = b) then starts_with p' t' else false
  | _ :: _, [] => false
  end.

(** [q in t]: [q] occurs in [t] as a contiguous substring. *)
Fixpoint contains (t q : str) : bool :=
  starts_with q t || match t with _ :: t' => contains t' q | [] => false end.

(** Order of [str] values: lexicographic on code points. *)
Fixpoint str_ltb (a b : str) : bool :=
  match a, b with
  | _, [] => false
  | [], _ :: _ => true
  | x :: a', y :: b' =>
      if Char.ltb x y then true
      else if Char.ltb y x then false
      else str_ltb a' b'
  end.

Definition str_leb (a b : str) : bool := negb (str_ltb b a).

(** Truth value of an optional string in a condition ([if gag.description:]):
    [None] and the empty string are false. *)
Definition truthy (o : option str) : bool :=
  match o with
  | Some (_ :: _) => true
  | _ => false
  end.

(** [sorted(xs, key=...)]: the source's sort is stable, and a stable sort
    has one possible result, which insertion from the right computes. *)
Section Sorted.
Context {A : Type} (key : A -> str).

Fixpoint insert_sorted (x : A) (l : list A) : list A :=
  match l with
  | [] => [x]
  | y :: t =>
      if str_leb (key x) (key y) then x :: l else y :: insert_sorted x t
  end.

Definition py_sorted (l : list A) : list A := foldr insert_sorted [] l.

(** Ascending, and strictly ascending, by key. *)
Definition key_le (a b : A) : Prop := str_leb (key a) (key b) = true.
Definition key_lt (a b : A) : Prop := str_ltb (key a) (key b) = true.
End Sorted.

(** [int(s)] for a string of decimal digits.  The interpreter refuses
    (ValueError) to convert more than [int_max_str_digits] digits. *)
Definition int_max_str_digits : nat := 4300.

Definition digit_value (c : ascii) : Z := Z.of_N (Char.code c) - 48.

Definition digits_value (s : str) : Z :=
  fold_left (fun acc c => 10 * acc + digit_value c)%Z s 0%Z.

Definition py_int (s : str) : option Z :=
  if decide (length s <= int_max_str_digits) then Some (digits_value s) else None.

(** ** Regular expressions *)

Module Re.

Inductive regex : Type :=
| Chr (c : ascii)                       (* a literal character *)
| Cls (p : ascii -> bool)               (* a class: \s \d . [a-z] *)
| Eos                                   (* $ *)
| Bnd                                   (* \b *)
| Cat (r1 r2 : regex)                   (* r1 r2 *)
| Alt (r1 r2 : regex)                   (* r1|r2 *)
| Rep (greedy : bool) (least : nat) (p : ascii -> bool)
                                         (* p* p+ (greedy), p+? (lazy) *)
| Grp (r : regex).                      (* ( r ), group 1 *)

(** A position in the subject: the character before it (for [\b]), the
    text from it on, and what group 1 holds so far. *)
Record mstate : Type := MState {
  m_prev : option ascii;
  m_rest : str;
  m_grp : option str
}.

Definition word_before (s : mstate) : bool :=
  match m_prev s with Some c => Char.is_word c | None => false end.

Definition word_after (s : mstate) : bool :=
  match m_rest s with c :: _ => Char.is_word c | [] => false end.

(** Repetition of a one-character class, at least [least] times.  The
    greedy form offers the longest run first, the lazy one the shortest. *)
Fixpoint rep (greedy : bool) (least : nat) (p : ascii -> bool)
    (prev : option ascii) (l : str) : list (option ascii * str) :=
  let stop := match least with 0 => [(prev, l)] | S _ => [] end in
  let more :=
    match l with
    | x :: t => if p x then rep greedy (pred least) p (Some x) t else []
    | [] => []
    end in
  if greedy then more ++ stop else stop ++ more.

(** [run ic r s]: every way [r] matches at [s], in the matcher's order of
    preference; [ic] is the IGNORECASE flag.  (The classes the source uses
    under that flag, [\s], [\d] and [.], do not depend on case.) *)
Fixpoint run (ic : bool) (r : regex) (s : mstate) : list mstate :=
  match r with
  | Chr c =>
      match m_rest s with
      | x :: t =>
          if (if ic then Char.eq_ci c x else if decide (c = x) then true else false)
          then [MState (Some x) t (m_grp s)] else []
      | [] => []
      end
  | Cls p =>
      match m_rest s with
      | x :: t => if p x then [MState (Some x) t (m_grp s)] else []
      | [] => []
      end
  | Eos =>
      (* end of text, or just before a line feed that ends the text *)
      match m_rest s with
      | [] => [s]
      | [x] => if Char.is_code 10 x then [s] else []
      | _ => []
      end
  | Bnd => if xorb (word_before s) (word_after s) then [s] else []
  | Cat r1 r2 => flat_map (run ic r2) (run ic r1 s)
  | Alt r1 r2 => run ic r1 s ++ run ic r2 s
  | Rep greedy least p =>
      map (fun '(prev, l) => MState prev l (m_grp s))
          (rep greedy least p (m_prev s) (m_rest s))
  | Grp r =>
      map (fun s' => MState (m_prev s') (m_rest s')
                       (Some (take (length (m_rest s) - length (m_rest s')) (m_rest s))))
          (run ic r s)
  end.

(** A literal string, character by character. *)
Fixpoint Str (l : str) (k : regex) : regex :=
  match l with
  | [] => k
  | c :: l' => Cat (Chr c) (Str l' k)
  end.

(** [re.search(r, text, flags)]: the first outcome at the leftmost start
    position that has one; every position is tried, the end included. *)
Fixpoint search_from (ic : bool) (r : regex) (prev : option ascii) (l : str)
    : option mstate :=
  match run ic r (MState prev l None) with
  | s :: _ => Some s
  | [] =>
      match l with
      | x :: t => search_from ic r (Some x) t
      | [] => None
      end
  end.

Definition search (ic : bool) (r : regex) (text : str) : option mstate :=
  search_from ic r None text.

(** [m.group(1)] of a search result ([None]: no match). *)
Definition search_group1 (ic : bool) (r : regex) (text : str) : option str :=
  match search ic r text with
  | Some s => m_grp s
  | None => None
  end.

(** [re.findall(r, text)] for a pattern without groups: the matched
    substrings, scanning left to right and resuming where a match ended
    ([skip] counts the characters of the last match still to pass). *)
Fixpoint findall_from (r : regex) (prev : option ascii) (l : str) (skip : nat)
    {struct l} : list str :=
  match skip with
  | S k =>
      match l with
      | x :: t => findall_from r (Some x) t k
      | [] => []
      end
  | 0 =>
      match run false r (MState prev l None) with
      | s :: _ =>
          let n := length l - length (m_rest s) in
          take n l ::
            match l with
            | x :: t => findall_from r (Some x) t (pred n)
            | [] => []
            end
      | [] =>
          match l with
          | x :: t => findall_from r (Some x) t 0
          | [] => []
          end
      end
  end.

Definition findall (r : regex) (text : str) : list str :=
  findall_from r None text 0.

End Re.

(** ** Records and the database state *)

(** [class Gag] *)
Record Gag : Type := mkGag {
  title : str;
  season : option Z;
  episode : option str;
  episode_order : option Z;
  cutaway_owner : option str;
  description : option str;
  filename : str
}.

#[global] Instance Gag_eq_dec : EqDecision Gag.
Proof. solve_decision. Defined.

Definition set_title (v : str) (g : Gag) : Gag :=
  mkGag v (season g) (episode g) (episode_order g) (cutaway_owner g)
        (description g) (filename g).
Definition set_season (v : Z) (g : Gag) : Gag :=
  mkGag (title g) (Some v) (episode g) (episode_order g) (cutaway_owner g)
        (description g) (filename g).
Definition set_episode (v : str) (g : Gag) : Gag :=
  mkGag (title g) (season g) (Some v) (episode_order g) (cutaway_owner g)
        (description g) (filename g).
Definition set_episode_order (v : Z) (g : Gag) : Gag :=
  mkGag (title g) (season g) (episode g) (Some v) (cutaway_owner g)
        (description g) (filename g).
Definition set_cutaway_owner (v : str) (g : Gag) : Gag :=
  mkGag (title g) (season g) (episode g) (episode_order g) (Some v)
        (description g) (filename g).
Definition set_description (v : str) (g : Gag) : Gag :=
  mkGag (title g) (season g) (episode g) (episode_order g) (cutaway_owner g)
        (Some v) (filename g).

(** A [dict] keeps its keys in insertion order; assigning to a key that is
    present replaces the value where it stands. *)
Section Dict.
Context {V : Type}.

Fixpoint dict_set (k : str) (v : V) (d : list (str * V)) : list (str * V) :=
  match d with
  | [] => [(k, v)]
  | (k', v') :: t =>
      if decide (k = k') then (k', v) :: t else (k', v') :: dict_set k v t
  end.

Fixpoint dict_get (k : str) (d : list (str * V)) : option V :=
  match d with
  | [] => None
  | (k', v') :: t => if decide (k = k') then Some v' else dict_get k t
  end.

Definition dict_values (d : list (str * V)) : list V := map snd d.
Definition dict_keys (d : list (str * V)) : list str := map fst d.
End Dict.

(** The state of a [GagDatabase]: [self.gags] and [self.index]. *)
Record GagDatabase : Type := mkDb {
  gags : list (str * Gag);
  index : gmap str (gset str)
}.

Definition empty_db : GagDatabase := mkDb [] ∅.

(** [self.main_characters] *)
Definition main_characters : list str :=
  map lit ["peter griffin"; "lois griffin"; "stewie griffin";
           "chris griffin"; "meg griffin"; "brian griffin";
           "quagmire"; "joe swanson"; "cleveland brown"]%string.

(** ** parse_gag_file *)

Definition newline : ascii := ascii_of_N 10.

(** [(?:\n|$)] *)
Definition line_end : Re.regex := Re.Alt (Re.Chr newline) Re.Eos.

(** [(.+?)(?:\n|$)] *)
Definition line_re : Re.regex :=
  Re.Cat (Re.Grp (Re.Rep false 1 Char.is_dot)) line_end.

(** [\s*(.+?)(?:\n|$)] *)
Definition text_tail : Re.regex := Re.Cat (Re.Rep true 0 Char.is_space) line_re.

(** [(\d+)] *)
Definition digits_re : Re.regex := Re.Grp (Re.Rep true 1 Char.is_digit).

(** [\s*(\d+)] *)
Definition num_tail : Re.regex := Re.Cat (Re.Rep true 0 Char.is_space) digits_re.

(** [label\s*(.+?)(?:\n|$)] and [label\s*(\d+)] *)
Definition text_re (label : str) : Re.regex := Re.Str label text_tail.
Definition num_re (label : str) : Re.regex := Re.Str label num_tail.

Definition title_label : str := lit "Title:".
Definition season_label : str := lit "Season:".
Definition episode_label : str := lit "Episode:".
Definition order_label : str := lit "Episode Order:".
Definition owner_label : str := lit "Cutaway Owner:".
Definition desc_label : str := lit "Description:".

(** [re.search(..., content, re.IGNORECASE)] followed by [group(1)]. *)
Definition text_match (label content : str) : option str :=
  Re.search_group1 true (text_re label) content.
Definition num_match (label content : str) : option str :=
  Re.search_group1 true (num_re label) content.

(** A file of the gags directory: [filepath.stem], [filepath.name] and the
    text read from it. *)
Record File : Type := mkFile {
  stem : str;
  name : str;
  content : str
}.

(** The body of the [try] block; [None] stands for a raised exception
    (only [int] can raise here). *)
Definition parse_fields (filepath : File) : option Gag :=
  let content := content filepath in
  let gag := mkGag (stem filepath) None None None None None (name filepath) in
  let gag :=
    match text_match title_label content with
    | Some v => set_title (strip v) gag
    | None => gag
    end in
  gag ← match num_match season_label content with
         | Some d => n ← py_int d; Some (set_season n gag)
         | None => Some gag
         end;
  let gag :=
    match text_match episode_label content with
    | Some v => set_episode (strip v) gag
    | None => gag
    end in
  gag ← match num_match order_label content with
         | Some d => n ← py_int d; Some (set_episode_order n gag)
         | None => Some gag
         end;
  let gag :=
    match text_match owner_label content with
    | Some v => set_cutaway_owner (strip v) gag
    | None => gag
    end in
  let gag :=
    match text_match desc_label content with
    | Some v => set_description (strip v) gag
    | None => gag
    end in
  Some gag.

(** [parse_gag_file]: [except Exception] reports the error and returns
    [None]; no exception leaves the function. *)
Definition parse_gag_file (filepath : File) : option Gag :=
  match parse_fields filepath with
  | Some gag => Some gag
  | None => None
  end.

(** ** _extract_keywords and _index_gag *)

Definition stop_words : list str :=
  map lit ["the"; "and"; "for"; "with"; "from"; "his"; "her"; "that";
           "this"; "when"; "where"; "what"; "how"; "who"; "which"; "why";
           "gets"; "tells"; "know"; "find"; "make"; "does"; "says"; "during"]%string.

(** [\b[a-z]+\b] *)
Definition word_re : Re.regex :=
  Re.Cat Re.Bnd (Re.Cat (Re.Rep true 1 Char.is_az) Re.Bnd).

Definition keep_word (min_length : nat) (w : str) : bool :=
  bool_decide (min_length <= length w) && negb (bool_decide (w ∈ stop_words)).

Definition _extract_keywords_min (text : str) (min_length : nat) : list str :=
  let words := Re.findall word_re (lower text) in
  filter (fun w => keep_word min_length w = true) words.

(** [min_length] defaults to 3. *)
Definition _extract_keywords (text : str) : list str :=
  _extract_keywords_min text 3.

(** [if w not in index: index[w] = set()] then [index[w].add(t)] *)
Definition index_add (w t : str) (idx : gmap str (gset str)) : gmap str (gset str) :=
  let idx := match idx !! w with
             | Some _ => idx
             | None => <[w := ∅]> idx
             end in
  <[w := default ∅ (idx !! w) ∪ {[t]}]> idx.

Definition _index_gag (gag : Gag) (idx : gmap str (gset str)) : gmap str (gset str) :=
  let idx :=
    if truthy (cutaway_owner gag)
    then index_add (lower (default [] (cutaway_owner gag))) (title gag) idx
    else idx in
  if truthy (description gag)
  then fold_left (fun idx word => index_add word (title gag) idx)
         (_extract_keywords (default [] (description gag))) idx
  else idx.

(** ** load_all_gags *)

Definition load_step (db : GagDatabase) (filepath : File) : GagDatabase :=
  match parse_gag_file filepath with
  | Some gag => mkDb (dict_set (title gag) gag (gags db)) (_index_gag gag (index db))
  | None => db
  end.

(** [gag_files] is the listing of the directory, in the order it is
    processed. *)
Definition load_all_gags (gag_files : list File) : GagDatabase :=
  fold_left load_step gag_files empty_db.

(** ** search *)

(** [search_in]: one of the strings ['character'], ['description'] and
    ['all'], the choices of the command line. *)
Inductive scope : Type := Character | Description | All.

Definition in_character (s : scope) : bool :=
  match s with Character | All => true | Description => false end.
Definition in_description (s : scope) : bool :=
  match s with Description | All => true | Character => false end.

(** The value [match] has at the end of one turn of the loop. *)
Definition search_match (db : GagDatabase) (query_lower : str) (search_in : scope)
    (gag : Gag) : bool :=
  let m := false in
  let m :=
    if in_character search_in then
      if truthy (cutaway_owner gag)
         && contains (lower (default [] (cutaway_owner gag))) query_lower
      then true else m
    else m in
  let m :=
    if in_description search_in then
      let m :=
        if truthy (description gag)
           && contains (lower (default [] (description gag))) query_lower
        then true else m in
      match index db !! query_lower with
      | Some titles => if bool_decide (title gag ∈ titles) then true else m
      | None => m
      end
    else m in
  m.

Definition search_results (db : GagDatabase) (query_lower : str) (search_in : scope)
    : gset str :=
  fold_left
    (fun results gag =>
       if search_match db query_lower search_in gag
       then results ∪ {[title gag]} else results)
    (dict_values (gags db)) ∅.

(** [None] stands for the KeyError of [self.gags[title]]. *)
Definition search (db : GagDatabase) (query : str) (search_in : scope)
    : option (list Gag) :=
  let query_lower := lower query in
  let results := search_results db query_lower search_in in
  mapM (fun t => dict_get t (gags db)) (py_sorted id (elements results)).

(** ** find_non_main_character_gags *)

Definition is_main (owner_lower : str) : bool :=
  existsb (fun main => contains owner_lower main) main_characters.

Definition find_non_main_character_gags (db : GagDatabase) : list Gag :=
  let results :=
    filter (fun gag =>
              truthy (cutaway_owner gag) = true
              ∧ is_main (lower (default [] (cutaway_owner gag))) = false)
           (dict_values (gags db)) in
  py_sorted title results.

(** ** validate_data *)

Record Stats : Type := mkStats {
  total_gags : nat;
  missing_season : list str;
  missing_episode : list str;
  missing_owner : list str;
  missing_description : list str;
  missing_multiple_fields : list (str * list str);
  season_range : option (Z * Z);
  characters : gset str;
  absurdist_gags : list (str * str * str)
}.

Definition is_none {A} (o : option A) : bool :=
  match o with None => true | Some _ => false end.

(** The list [fields_missing] at the end of one turn of the loop. *)
Definition fields_missing (gag : Gag) : list str :=
  let add (b : bool) (f : string) (l : list str) := if b then l ++ [lit f] else l in
  add (is_none (description gag)) "description"
    (add (is_none (cutaway_owner gag)) "owner"
       (add (is_none (episode gag)) "episode"
          (add (is_none (season gag)) "season" []))).

(** One turn of the loop of [validate_data]. *)
Definition validate_step (stats : Stats) (gag : Gag) : Stats :=
  let t := title gag in
  let put (b : bool) (l : list str) := if b then l ++ [t] else l in
  mkStats
    (total_gags stats)
    (put (is_none (season gag)) (missing_season stats))
    (put (is_none (episode gag)) (missing_episode stats))
    (put (is_none (cutaway_owner gag)) (missing_owner stats))
    (put (is_none (description gag)) (missing_description stats))
    (if bool_decide (1 < length (fields_missing gag))
     then missing_multiple_fields stats ++ [(t, fields_missing gag)]
     else missing_multiple_fields stats)
    (match season gag with
     | None => season_range stats
     | Some s =>
         match season_range stats with
         | None => Some (s, s)
         | Some (lo, hi) => Some (Z.min lo s, Z.max hi s)
         end
     end)
    (match cutaway_owner gag with
     | None => characters stats
     | Some o => characters stats ∪ {[o]}
     end)
    (if truthy (cutaway_owner gag)
        && negb (is_main (lower (default [] (cutaway_owner gag))))
        && truthy (description gag)
     then absurdist_gags stats
            ++ [(t, default [] (cutaway_owner gag), default [] (description gag))]
     else absurdist_gags stats).

(** The report before its last two lines, which only turn [characters]
    into a sorted list and an empty [season_range] into [None]. *)
Definition validate_data (db : GagDatabase) : Stats :=
  fold_left validate_step (dict_values (gags db))
    (mkStats (length (gags db)) [] [] [] [] [] None ∅ []).

(** [stats['characters']] as returned. *)
Definition characters_sorted (s : Stats) : list str :=
  py_sorted id (elements (characters s)).

(** ** Direct descriptions of what the patterns compute

    The functions below do not run the matcher: they describe, as plain
    scans of the text, what the theorems prove the patterns to compute. *)

(** [label] read case-insensitively at the head of [text]: what follows it. *)
Fixpoint after_label (label text : str) : option str :=
  match label, text with
  | [], _ => Some text
  | a :: label', b :: text' =>
      if Char.eq_ci a b then after_label label' text' else None
  | _ :: _, [] => None
  end.

(** The first place of [text], from the left and at any offset, where
    [label] stands and [value] accepts what follows it. *)
Fixpoint scan_label (label : str) (value : str -> option str) (text : str)
    : option str :=
  match
    match after_label label text with
    | Some rest => value rest
    | None => None
    end
  with
  | Some v => Some v
  | None =>
      match text with
      | _ :: text' => scan_label label value text'
      | [] => None
      end
  end.

(** After a label: skip white space (line feeds too), then a run of digits,
    which must not be empty. *)
Definition digits_after (rest : str) : option str :=
  match take_while Char.is_digit (drop_while Char.is_space rest) with
  | [] => None
  | d => Some d
  end.

(** After a label: skip white space (line feeds too); the value is the rest
    of the line reached, trimmed.  When only white space is left up to the
    end of the text the value is empty, unless all of it is line feeds. *)
Definition line_after (rest : str) : option str :=
  match drop_while Char.is_space rest with
  | [] => if existsb Char.is_dot rest then Some [] else None
  | r => Some (strip (take_while Char.is_dot r))
  end.

(** Whether [int] converts a captured digit run. *)
Definition convertible (o : option str) : bool :=
  match o with
  | Some d => bool_decide (length d <= int_max_str_digits)
  | None => true
  end.

(** [label] stands somewhere in [text]: at some offset the characters of
    [label] are there, compared as the patterns compare them. *)
Fixpoint label_stands (label text : str) : bool :=
  match after_label label text with
  | Some _ => true
  | None =>
      match text with
      | _ :: text' => label_stands label text'
      | [] => false
      end
  end.

(** The six labels, each with its colon. *)
Definition labels : list str :=
  [title_label; season_label; episode_label; order_label; owner_label; desc_label].

(** [q] occurs in [t], case-insensitively. *)
Definition contains_ci (t q : str) : bool := contains (lower t) (lower q).

(** The reading of section 4.1 of the specification: the text is cut into
    lines, the field comes from the first line of the form [Label: value],
    its value being the rest of that line, trimmed; a numeric field is set
    only when that value is made of digits. *)
Fixpoint lines_from (acc : str) (text : str) : list str :=
  match text with
  | [] => [acc]
  | c :: text' =>
      if Char.is_code 10 c then acc :: lines_from [] text'
      else lines_from (acc ++ [c]) text'
  end.

Definition lines (text : str) : list str := lines_from [] text.

Fixpoint first_some {A B} (f : A -> option B) (l : list A) : option B :=
  match l with
  | [] => None
  | x :: t => match f x with Some y => Some y | None => first_some f t end
  end.

Definition claimed_text_field (label text : str) : option str :=
  first_some (fun line => option_map strip (after_label label line)) (lines text).

Definition all_digits (v : str) : bool :=
  match v with [] => false | _ => forallb Char.is_digit v end.

Definition claimed_num_field (label text : str) : option Z :=
  match claimed_text_field label text with
  | Some v => if all_digits v then Some (digits_value v) else None
  | None => None
  end.

(** Maximal runs of the characters that satisfy [p]; [acc] is the run being
    read. *)
Fixpoint runs (p : ascii -> bool) (acc : str) (l : str) : list str :=
  match l with
  | [] => match acc with [] => [] | _ => [acc] end
  | c :: l' =>
      if p c then runs p (acc ++ [c]) l'
      else match acc with [] => runs p [] l' | _ => acc :: runs p [] l' end
  end.

(** Tokenization as section 4.3 of the specification words it: the maximal
    runs of lower-case letters, everything else separating. *)
Definition claimed_keywords (text : str) : list str :=
  filter (fun w => keep_word 3 w = true) (runs Char.is_az [] (lower text)).

(** Tokenization as the pattern does it: the maximal runs of word
    characters (letters, digits, underscore) that are made of the letters
    a-z only. *)
Definition letter_words (text : str) : list str :=
  filter (fun w => forallb Char.is_az w = true) (runs Char.is_word [] text).

Definition bounded_keywords (text : str) : list str :=
  filter (fun w => keep_word 3 w = true) (letter_words (lower text)).

(** The record the parser builds, read off the scans of the text. *)
Definition parsed_record (f : File) : Gag :=
  mkGag (default (stem f) (scan_label title_label line_after (content f)))
        (digits_value <$> scan_label season_label digits_after (content f))
        (scan_label episode_label line_after (content f))
        (digits_value <$> scan_label order_label digits_after (content f))
        (scan_label owner_label line_after (content f))
        (scan_label desc_label line_after (content f))
        (name f).

(** None of the six labels stands in the text. *)
Definition no_labels (text : str) : bool :=
  forallb (fun l => negb (label_stands l text)) labels.

(** ** Concrete inputs *)

(** The file [<stem>.txt] with the given text. *)
Definition file_of (stem text : string) : File :=
  mkFile (lit stem) (lit (stem ++ ".txt")) (lit text).

Definition lf : string := String newline EmptyString.

Definition file_ordinal : File := file_of "f" "Season: 5th".
Definition file_subtitle : File := file_of "f" "Subtitle: X".
Definition file_finale : File :=
  file_of "note" "the season finale, episode order unknown".
Definition file_moon : File :=
  file_of "moon"
    ("Title: Peter Goes to the Moon" ++ lf ++ "Season: 5" ++ lf
     ++ "Episode: Meet the Quagmires" ++ lf ++ "Episode Order: 3" ++ lf
     ++ "Cutaway Owner: Peter Griffin" ++ lf
     ++ "Description: Peter floats away holding balloons and lands on the moon."
     ++ lf).

(** Whether a text starts with a word character, and whether the character
    before a position is one. *)
Definition starts_word (l : str) : bool :=
  match l with c :: _ => Char.is_word c | [] => false end.

Definition word_char (prev : option ascii) : bool :=
  match prev with Some c => Char.is_word c | None => false end.

(** The character before the position reached after reading [a]. *)
Definition prev_after (a : str) (prev : option ascii) : option ascii :=
  fold_left (fun _ c => Some c) a prev.

(** ** The index as a whole *)

(** The index obtained by indexing the records one after the other. *)
Definition build_index (records : list Gag) : gmap str (gset str) :=
  fold_left (fun idx gag => _index_gag gag idx) records ∅.

(** The tokens under which a record is indexed. *)
Definition index_tokens (gag : Gag) : list str :=
  (if truthy (cutaway_owner gag)
   then [lower (default [] (cutaway_owner gag))] else [])
  ++ (if truthy (description gag)
      then _extract_keywords (default [] (description gag)) else []).

Definition index_pairs (gag : Gag) : list (str * str) :=
  map (fun w => (w, title gag)) (index_tokens gag).

(** The titles the index holds for a token ([∅] when the token is no key). *)
Definition titles_of (idx : gmap str (gset str)) (w : str) : gset str :=
  default ∅ (idx !! w).

(** The index test of [search]: [query_lower in self.index] and
    [gag.title in self.index[query_lower]]. *)
Definition index_path (db : GagDatabase) (query : str) (gag : Gag) : Prop :=
  exists titles, index db !! lower query = Some titles /\ title gag ∈ titles.

(** The records that were parsed from a listing. *)
Definition parsed (gag_files : list File) : list Gag := omap parse_gag_file gag_files.

(** A store as [load_all_gags] leaves it: its keys are pairwise different
    and every record sits under its own title. *)
Definition store_wf (d : list (str * Gag)) : Prop :=
  NoDup (dict_keys d) /\ forall k g, (k, g) ∈ d -> title g = k.

(** The two records of the scenario of section 8 of the specification. *)
Definition gag_A : Gag :=
  mkGag (lit "A") (Some 5%Z) None None (Some (lit "Stewie Griffin"))
        (Some (lit "Stewie robs a bank for money")) (lit "a.txt").
Definition gag_B : Gag :=
  mkGag (lit "B") None None None (Some (lit "Death"))
        (Some (lit "Death collects souls")) (lit "b.txt").

(** A record whose owner reads as a stop word. *)
Definition file_the : File :=
  file_of "a" ("Title: A" ++ lf ++ "Cutaway Owner: The" ++ lf).
Definition gag_the : Gag :=
  mkGag (lit "A") None None None (Some (lit "The")) None (lit "a.txt").

(** ** The matching rule of [search], as a proposition *)

(** The field is set, not empty, and contains the query, case-insensitively. *)
Definition nonempty_contains_ci (o : option str) (q : str) : Prop :=
  exists v, o = Some v /\ v <> [] /\ contains_ci v q = true.

Definition scope_rule (db : GagDatabase) (query : str) (search_in : scope)
    (gag : Gag) : Prop :=
  match search_in with
  | Character => nonempty_contains_ci (cutaway_owner gag) query
  | Description =>
      nonempty_contains_ci (description gag) query \/ index_path db query gag
  | All =>
      nonempty_contains_ci (cutaway_owner gag) query
      \/ nonempty_contains_ci (description gag) query \/ index_path db query gag
  end.

(** The rule as section 4.4 of the specification words it: the field is set
    and contains the query. *)
Definition set_contains_ci (o : option str) (q : str) : Prop :=
  exists v, o = Some v /\ contains_ci v q = true.

Definition claimed_scope_rule (db : GagDatabase) (query : str) (search_in : scope)
    (gag : Gag) : Prop :=
  match search_in with
  | Character => set_contains_ci (cutaway_owner gag) query
  | Description =>
      set_contains_ci (description gag) query \/ index_path db query gag
  | All =>
      set_contains_ci (cutaway_owner gag) query
      \/ set_contains_ci (description gag) query \/ index_path db query gag
  end.

(** A record file as the scraper writes it for an entry without a
    description row. *)
Definition file_blank : File :=
  file_of "blank"
    ("Title: Blank" ++ lf ++ "Season: 1" ++ lf ++ "Episode: Pilot" ++ lf
     ++ "Episode Order: 1" ++ lf ++ "Cutaway Owner: Peter Griffin" ++ lf
     ++ "Description: " ++ lf).
Definition gag_blank : Gag :=
  mkGag (lit "Blank") (Some 1%Z) (Some (lit "Pilot")) (Some 1%Z)
        (Some (lit "Peter Griffin")) (Some []) (lit "blank.txt").

(** A record whose description does not mention its owner. *)
Definition file_reaper : File :=
  file_of "reaper"
    ("Title: Reaper" ++ lf ++ "Cutaway Owner: Death" ++ lf
     ++ "Description: Collects souls" ++ lf).
Definition gag_reaper : Gag :=
  mkGag (lit "Reaper") None None None (Some (lit "Death"))
        (Some (lit "Collects souls")) (lit "reaper.txt").

(** ** The rule of [find_non_main_character_gags], as a proposition *)

(** The owner is set, not empty, and contains no main character's name. *)
Definition non_main_rule (gag : Gag) : Prop :=
  exists o, cutaway_owner gag = Some o /\ o <> []
            /\ forall m, m ∈ main_characters -> contains (lower o) m = false.

(** The rule as section 4.4 of the specification words it: the owner is set
    and contains no main character's name. *)
Definition claimed_non_main_rule (gag : Gag) : Prop :=
  exists o, cutaway_owner gag = Some o
            /\ forall m, m ∈ main_characters -> contains (lower o) m = false.

(** A record file whose owner line is blank. *)
Definition file_no_owner : File :=
  file_of "x" ("Title: X" ++ lf ++ "Cutaway Owner: " ++ lf).
Definition gag_no_owner : Gag :=
  mkGag (lit "X") None None None (Some []) None (lit "x.txt").

(** ** Counting the missing fields of a record *)

Definition b2n (b : bool) : nat := if b then 1 else 0.

(** How many of season, episode, owner and description a record lacks. *)
Definition missing_count (gag : Gag) : nat :=
  b2n (is_none (season gag)) + b2n (is_none (episode gag))
  + b2n (is_none (cutaway_owner gag)) + b2n (is_none (description gag)).

(** 1 when the title is in the list, 0 otherwise. *)
Definition listed (t : str) (l : list str) : nat := b2n (bool_decide (t ∈ l)).

(** In how many of the four lists of a report a title appears. *)
Definition lists_with (t : str) (s : Stats) : nat :=
  listed t (missing_season s) + listed t (missing_episode s)
  + listed t (missing_owner s) + listed t (missing_description s).

(** The scenario of section 8 of the specification, as a database. *)
Definition db_AB : GagDatabase :=
  mkDb [(lit "A", gag_A); (lit "B", gag_B)] (build_index [gag_A; gag_B]).

(** The files of the scenario of section 8 of the specification. *)
Definition file_A : File :=
  file_of "a"
    ("Title: A" ++ lf ++ "Season: 5" ++ lf ++ "Cutaway Owner: Stewie Griffin" ++ lf
     ++ "Description: Stewie robs a bank for money" ++ lf).
Definition file_B : File :=
  file_of "b"
    ("Title: B" ++ lf ++ "Cutaway Owner: Death" ++ lf
     ++ "Description: Death collects souls" ++ lf).

(** * More of the code: the rest of the database and its callers *)

(** ** Loading into a database that is already loaded *)

(** [load_all_gags] as a method: it keeps what [self.gags] and [self.index]
    hold and adds to them ([generate_missing_report] calls it a second time
    on the same object). *)
Definition load_all_gags_on (db : GagDatabase) (gag_files : list File) : GagDatabase :=
  fold_left load_step gag_files db.

(** The records of a listing that carry a given title, in file order. *)
Definition titled (t : str) (records : list Gag) : list Gag :=
  filter (fun g => title g = t) records.

(** ** search_by_keywords (missing_gags.py) *)

(** The titles gathered in [all_results]: those of the records that
    [search] returns for each keyword, in scope ['all'].  [None] stands for
    a KeyError raised by [search]. *)
Fixpoint all_results (db : GagDatabase) (keywords : list str) (acc : gset str)
    : option (gset str) :=
  match keywords with
  | [] => Some acc
  | keyword :: rest =>
      db_results ← search db keyword All;
      all_results db rest
        (fold_left (fun acc gag => acc ∪ {[title gag]}) db_results acc)
  end.

(** The records [search_by_keywords] prints, in the order it prints them;
    [None] stands for a KeyError, of [search] or of [db.gags[title]]. *)
Definition search_by_keywords (db : GagDatabase) (keywords : list str)
    : option (list Gag) :=
  titles ← all_results db keywords ∅;
  mapM (fun t => dict_get t (gags db)) (py_sorted id (elements titles)).

(** ** find_missing_by_keyword (missing_gags.py) *)

(** The names of the files whose text contains the keyword, in any case. *)
Definition find_missing_by_keyword (keyword : str) (gag_files : list File) : list str :=
  let keyword_lower := lower keyword in
  map name
    (filter (fun f => contains (lower (content f)) keyword_lower = true) gag_files).

(** Lower-casing the text of a file keeps the owner and the description of
    its record in place: the lower-cased text holds each of them,
    lower-cased.  (This is what fails where [str.lower] depends on the
    characters around the one it converts.) *)
Definition lower_keeps_fields (f : File) : bool :=
  match parse_gag_file f with
  | Some g =>
      forallb (fun o => match o with
                        | Some v => contains (lower (content f)) (lower v)
                        | None => true
                        end)
              [cutaway_owner g; description g]
  | None => true
  end.

(** The lower-cased query is the owner, lower-cased, of the record. *)
Definition owner_is (gag : Gag) (query : str) : Prop :=
  exists o, cutaway_owner gag = Some o /\ o <> [] /\ lower o = lower query.

(** Two files of one title, with different owners. *)
Definition file_first : File :=
  file_of "one" ("Title: Twice" ++ lf ++ "Cutaway Owner: Death" ++ lf).
Definition file_second : File :=
  file_of "two" ("Title: Twice" ++ lf ++ "Cutaway Owner: Peter Griffin" ++ lf).
Definition gag_second : Gag :=
  mkGag (lit "Twice") None None None (Some (lit "Peter Griffin")) None (lit "two.txt").

(** ** The rest of the report of validate_data *)

(** The seasons of the stored records that have one, in store order. *)
Definition seasons_of (db : GagDatabase) : list Z :=
  omap season (dict_values (gags db)).

(** The entry [validate_data] writes for an absurdist record. *)
Definition absurdist_entry (gag : Gag) : str * str * str :=
  (title gag, default [] (cutaway_owner gag), default [] (description gag)).

(** The test of the absurdist list: the owner is not empty and no main
    character, and the description is not empty. *)
Definition is_absurdist (gag : Gag) : bool :=
  truthy (cutaway_owner gag)
  && negb (is_main (lower (default [] (cutaway_owner gag))))
  && truthy (description gag).

(** [generate_report] (analyze_gags.py): the number printed as
    "Complete records (all fields)" and the one printed as "Records with
    missing data". *)
Definition complete_records (db : GagDatabase) : Z :=
  (Z.of_nat (length (gags db))
   - Z.of_nat (length (missing_multiple_fields (validate_data db))))%Z.
Definition records_with_missing_data (db : GagDatabase) : nat :=
  length (missing_multiple_fields (validate_data db)).

(** [export_json] (export_gags.py): the owners counted as
    [unique_characters], [set(g.cutaway_owner for g in ... if g.cutaway_owner)]. *)
Definition export_owners (db : GagDatabase) : gset str :=
  list_to_set
    (omap (fun g => if truthy (cutaway_owner g) then cutaway_owner g else None)
       (dict_values (gags db))).
Definition unique_characters (db : GagDatabase) : nat := size (export_owners db).

(** ** analyze_gags.py *)

(** [analyze_owners]: one turn of its loop over [db.gags.values()], on the
    two [defaultdict]s [owner_count] and [owner_gags]. *)
Definition owner_step (st : list (str * nat) * list (str * list str)) (gag : Gag)
    : list (str * nat) * list (str * list str) :=
  let '(owner_count, owner_gags) := st in
  if truthy (cutaway_owner gag) then
    let o := default [] (cutaway_owner gag) in
    (dict_set o (default 0 (dict_get o owner_count) + 1) owner_count,
     dict_set o (default [] (dict_get o owner_gags) ++ [title gag]) owner_gags)
  else st.

(** [analyze_owners] returns [owner_count] and [single_appearance], the
    owners with exactly one record. *)
Definition analyze_owners (db : GagDatabase)
    : list (str * nat) * list (str * list str) :=
  let '(owner_count, owner_gags) :=
    fold_left owner_step (dict_values (gags db)) ([], []) in
  (owner_count, filter (fun p => length p.2 = 1) owner_gags).

(** The records of an owner that is not empty. *)
Definition owned_by (o : str) (records : list Gag) : list Gag :=
  filter (fun g => truthy (cutaway_owner g) = true /\ cutaway_owner g = Some o) records.

(** [find_duplicate_writers]: the title it reads from a file, the dict
    [file_to_title] and the entries with more than one file. *)
Definition file_title (f : File) : str :=
  match text_match title_label (content f) with
  | Some v => strip v
  | None => stem f
  end.

Definition file_to_title (gag_files : list File) : list (str * list str) :=
  fold_left
    (fun d f =>
       let t := file_title f in
       dict_set t (default [] (dict_get t d) ++ [name f]) d)
    gag_files [].

Definition find_duplicate_writers (gag_files : list File) : list (str * list str) :=
  filter (fun p => 1 < length p.2) (file_to_title gag_files).

(** The files that carry a title. *)
Definition files_titled (t : str) (gag_files : list File) : list File :=
  filter (fun f => file_title f = t) gag_files.

(** [find_missing_episodes]: one turn of its loop, on [season_episodes] and
    [season_gag_count]; a season of 0 and an empty episode count as absent. *)
Definition episode_step (st : gmap Z (gset str) * gmap Z nat) (gag : Gag)
    : gmap Z (gset str) * gmap Z nat :=
  let '(season_episodes, season_gag_count) := st in
  match season gag with
  | Some s =>
      if bool_decide (s <> 0%Z) && truthy (episode gag) then
        (<[s := default ∅ (season_episodes !! s) ∪ {[default [] (episode gag)]}]>
           season_episodes,
         <[s := default 0 (season_gag_count !! s) + 1]> season_gag_count)
      else st
  | None => st
  end.

Definition find_missing_episodes (db : GagDatabase) : gmap Z (gset str) * gmap Z nat :=
  fold_left episode_step (dict_values (gags db)) (∅, ∅).

(** The records counted for a season. *)
Definition in_season (s : Z) (records : list Gag) : list Gag :=
  filter (fun g => season g = Some s /\ s <> 0%Z /\ truthy (episode g) = true) records.

(** ** The scraper's writer: [src/scrapers/scrape_gags.py]

    [save_gags_to_files] writes one text file per scraped gag; these are
    the files [parse_gag_file] reads. *)

(** [re.sub(r, '', text)] for a pattern whose matches are never empty: the
    text without the matched spans, scanning left to right and resuming
    where a match ended ([skip] counts the characters of the last match
    still to drop). *)
Fixpoint re_sub_from (r : Re.regex) (prev : option ascii) (l : str) (skip : nat)
    {struct l} : str :=
  match l with
  | [] => []
  | x :: t =>
      match skip with
      | S k => re_sub_from r (Some x) t k
      | 0 =>
          match Re.run false r (Re.MState prev l None) with
          | s :: _ =>
              match length l - length (Re.m_rest s) with
              | S k => re_sub_from r (Some x) t k
              | 0 => x :: re_sub_from r (Some x) t 0
              end
          | [] => x :: re_sub_from r (Some x) t 0
          end
      end
  end.

Definition re_sub (r : Re.regex) (text : str) : str := re_sub_from r None text 0.

(** The class of the pattern, by code point: less-than, greater-than, colon,
    double quote, slash, backslash, vertical bar, question mark, asterisk. *)
Definition invalid_codes : list N := [60; 62; 58; 34; 47; 92; 124; 63; 42]%N.

Definition is_invalid (c : ascii) : bool :=
  existsb (fun n => Char.is_code n c) invalid_codes.

Definition invalid_re : Re.regex := Re.Cls is_invalid.

(** [sanitize_filename] *)
Definition sanitize_filename (filename : str) : str :=
  let filename := re_sub invalid_re filename in
  let filename := strip filename in
  match filename with
  | [] => lit "unknown"
  | _ => filename
  end.

(** A scraped gag: the dict [scrape_season] builds.  The season is the
    integer the caller passes; the other values are page text. *)
Record Scraped : Type := mkScraped {
  sc_title : str;
  sc_episode : str;
  sc_owner : str;
  sc_episode_order : str;
  sc_season : Z;
  sc_description : str
}.

(** [str(n)] for an integer: decimal digits, most significant first. *)
Definition digit_char (d : N) : ascii := ascii_of_N (48 + d).

Fixpoint digits_fuel (fuel : nat) (n : N) (acc : str) : str :=
  match fuel with
  | 0 => acc
  | S fuel' =>
      let acc' := digit_char (n mod 10) :: acc in
      if (n <? 10)%N then acc' else digits_fuel fuel' (n / 10) acc'
  end.

Definition str_nat (n : N) : str := digits_fuel (S (N.size_nat n)) n [].

Definition minus_sign : ascii := ascii_of_N 45.

(** [str] raises [ValueError] on an integer of more than 4300 digits. *)
Definition py_str (n : Z) : option str :=
  let d := str_nat (Z.abs_N n) in
  if decide (length d <= int_max_str_digits) then
    Some (if (n <? 0)%Z then minus_sign :: d else d)
  else None.

(** The text [save_gags_to_files] writes for a gag (the f-string
    [content]); [None]: formatting the season raises. *)
Definition file_text (gag : Scraped) : option str :=
  season ← py_str (sc_season gag);
  Some (lit "Title: " ++ sc_title gag ++ newline ::
        lit "Season: " ++ season ++ newline ::
        lit "Episode: " ++ sc_episode gag ++ newline ::
        lit "Episode Order: " ++ sc_episode_order gag ++ newline ::
        lit "Cutaway Owner: " ++ sc_owner gag ++ newline ::
        lit "Description: " ++ sc_description gag ++ [newline]).

(** Reading a file in text mode: CR LF and a lone CR come back as LF.
    (Written with LF as the line separator.) *)
Fixpoint universal_newlines (l : str) : str :=
  match l with
  | [] => []
  | c :: t =>
      if Char.is_code 13 c then
        newline ::
          match t with
          | c' :: t' =>
              if Char.is_code 10 c' then universal_newlines t'
              else universal_newlines t
          | [] => []
          end
      else c :: universal_newlines t
  end.

(** The file as the database opens it, whatever path it was saved under,
    once [open] and [write] have succeeded. *)
Definition saved_file (stem name : str) (gag : Scraped) : option File :=
  text ← file_text gag;
  Some (mkFile stem name (universal_newlines text)).

(** A value that fills one line: no line break in it, and not blank. *)
Definition one_line (v : str) : bool :=
  forallb (fun c => negb (Char.is_code 10 c) && negb (Char.is_code 13 c)) v.

Definition blank (v : str) : bool := forallb Char.is_space v.

(** None of the labels stands in the value. *)
Definition free_of (later : list str) (v : str) : bool :=
  forallb (fun l => negb (label_stands l v)) later.

(** A value that is read back as written (up to trimming): one line, not
    blank, and free of the labels that follow it in the file. *)
Definition plain (later : list str) (v : str) : bool :=
  one_line v && negb (blank v) && free_of later v.

(** The conditions on the fields other than the owner under which the
    parser reads back what the writer wrote: title and episode plain; the
    season not negative and within the limit of [str]; the episode order a
    run of digits within the limit of [int]; the description one line. *)
Definition fields_plain (gag : Scraped) : bool :=
  plain [season_label; episode_label; order_label; owner_label; desc_label]
        (sc_title gag)
  && bool_decide (0 <= sc_season gag < 10 ^ Z.of_nat int_max_str_digits)%Z
  && plain [order_label; owner_label; desc_label] (sc_episode gag)
  && all_digits (sc_episode_order gag)
  && bool_decide (length (sc_episode_order gag) <= int_max_str_digits)
  && one_line (sc_description gag).

Definition scraped_moon : Scraped :=
  mkScraped (lit "Peter Goes to the Moon") (lit "Meet the Quagmires")
            (lit "Peter Griffin") (lit "3") 5
            (lit "Peter floats away holding balloons and lands on the moon.").

(** A gag whose owner cell is empty on the page. *)
Definition scraped_no_owner : Scraped :=
  mkScraped (lit "Moon Landing") (lit "Pilot") [] (lit "2") 1
            (lit "A rocket lands.").

(** *** Paths: [os.path.join] and [os.path.splitext] (POSIX) *)

Definition slash : ascii := ascii_of_N 47.
Definition dot : ascii := ascii_of_N 46.

(** [path.endswith(s)] for a one-character [s] *)
Definition ends_with_char (c : ascii) (path : str) : bool :=
  match last path with
  | Some x => if decide (x = c) then true else false
  | None => false
  end.

(** [os.path.join(a, b)] *)
Definition path_join (a b : str) : str :=
  if starts_with [slash] b then b
  else
    match a with
    | [] => a ++ b
    | _ => if ends_with_char slash a then a ++ b else a ++ slash :: b
    end.

(** [p.rfind(c)]: the index of the last [c], or -1; [i] is the index of
    the head of [l], [found] the result so far. *)
Fixpoint rfind_at (c : ascii) (l : str) (i found : Z) : Z :=
  match l with
  | [] => found
  | x :: t => rfind_at c t (i + 1) (if decide (x = c) then i else found)
  end.

Definition rfind (c : ascii) (p : str) : Z := rfind_at c p 0 (-1).

(** [p[i:j]] for [0 <= i] *)
Definition slice (p : str) (i j : Z) : str :=
  take (Z.to_nat (j - i)) (drop (Z.to_nat i) p).

(** [os.path.splitext(p)]: the extension starts at the last dot of the last
    component, unless only dots stand before it in that component. *)
Definition splitext (p : str) : str * str :=
  let sepIndex := rfind slash p in
  let dotIndex := rfind dot p in
  if (sepIndex <? dotIndex)%Z
     && existsb (fun x => if decide (x = dot) then false else true)
                (slice p (sepIndex + 1) dotIndex)
  then (take (Z.to_nat dotIndex) p, drop (Z.to_nat dotIndex) p)
  else (p, []).

(** *** [save_gags_to_files] *)

(** The [while] loop that picks the path to write: at most 99 turns, each
    of which sets [filepath] from [base_path] and the season. *)
Fixpoint pick_path (exists_ : str -> bool) (turns : nat) (base_path filepath season : str)
    : str :=
  match turns with
  | 0 => filepath
  | S turns' =>
      if exists_ filepath then
        let '(name, ext) := splitext base_path in
        pick_path exists_ turns' base_path (name ++ lit "_s" ++ season ++ ext) season
      else filepath
  end.

(** The directory tree as the function sees it: the paths that exist, each
    with the text of its file. *)
Definition exists_in (fs : gmap str str) (path : str) : bool :=
  bool_decide (is_Some (fs !! path)).

(** One turn of the [for] loop: the file written for a gag.  [opens] tells
    on which paths [open(filepath, 'w')] succeeds (it raises on a path with
    a NUL or a component that is too long, for one).  [None]: formatting the
    season or [open] raises, and nothing is written. *)
Definition save_gag_on (opens : str -> bool) (output_dir : str) (fs : gmap str str)
    (gag : Scraped) : option (gmap str str) :=
  let filename := sanitize_filename (sc_title gag) ++ lit ".txt" in
  let filepath := path_join output_dir filename in
  season ← py_str (sc_season gag);
  let filepath := pick_path (exists_in fs) 99 filepath filepath season in
  content ← file_text gag;
  if opens filepath then Some (<[filepath := content]> fs) else None.


(** The [for] loop over the gags sorted by lower-cased title; an exception
    ends it ([false]) and leaves the files written so far.  (The output
    directory is taken to exist after [mkdir], and [write] to succeed on an
    open file.) *)
Fixpoint save_each (opens : str -> bool) (output_dir : str) (fs : gmap str str)
    (gags : list Scraped) : gmap str str * bool :=
  match gags with
  | [] => (fs, true)
  | gag :: rest =>
      match save_gag_on opens output_dir fs gag with
      | Some fs' => save_each opens output_dir fs' rest
      | None => (fs, false)
      end
  end.

Definition save_gags_to_files (opens : str -> bool) (output_dir : str)
    (fs : gmap str str) (gags : list Scraped) : gmap str str * bool :=
  save_each opens output_dir fs (py_sorted (fun x => lower (sc_title x)) gags).

(** The two names a gag can be written under. *)
Definition base_path (output_dir : str) (gag : Scraped) : str :=
  path_join output_dir (sanitize_filename (sc_title gag) ++ lit ".txt").

Definition season_path (output_dir : str) (gag : Scraped) (season : str) : str :=
  let '(name, ext) := splitext (base_path output_dir gag) in
  name ++ lit "_s" ++ season ++ ext.

(** Three scraped rows of one title and season. *)
Definition scraped_twin (description : string) : Scraped :=
  mkScraped (lit "Moon?") (lit "Pilot") (lit "Peter") (lit "1") 1 (lit description).

(** What [os.path.join] puts before a relative name. *)
Definition dir_prefix (a : str) : str :=
  match a with
  | [] => []
  | _ => if ends_with_char slash a then a else a ++ [slash]
  end.

(** A name made of dots only. *)
Definition all_dots (s : str) : bool :=
  forallb (fun x => if decide (x = dot) then true else false) s.



(** A gag whose title is made of dots. *)
Definition scraped_dots : Scraped :=
  mkScraped (lit "...") (lit "Pilot") (lit "Peter") (lit "1") 1 (lit "A pause.").

(** ** The order of the exports

    [export_json] (of the database and of export_gags.py) and [export_csv]
    write the records sorted by title; the [list] command looks up the
    sorted keys ([None]: a KeyError). *)
Definition export_rows (db : GagDatabase) : list Gag :=
  py_sorted title (dict_values (gags db)).

Definition list_rows (db : GagDatabase) : option (list Gag) :=
  mapM (fun t => dict_get t (gags db)) (py_sorted id (dict_keys (gags db))).

(** [generate_report] (analyze_gags.py): the number printed as "Gags with
    main character". *)
Definition gags_with_main_character (db : GagDatabase) : nat :=
  length
    (filter (fun g =>
               truthy (cutaway_owner g) = true
               ∧ is_main (lower (default [] (cutaway_owner g))) = true)
            (dict_values (gags db))).

(** Paths of at most 255 characters. *)
Definition short_path (path : str) : bool := bool_decide (length path <= 255).
(** ** Facts on characters and the order of strings *)

Lemma code_inj (a b : ascii) : Char.code a = Char.code b -> a = b.
Proof.
  unfold Char.code. intros H.
  rewrite <- (ascii_N_embedding a), <- (ascii_N_embedding b). by rewrite H.
Qed.

Lemma char_ltb_lt (a b : ascii) : Char.ltb a b = true <-> (Char.code a < Char.code b)%N.
Proof. unfold Char.ltb. apply N.ltb_lt. Qed.

Lemma char_ltb_ge (a b : ascii) : Char.ltb a b = false <-> (Char.code b <= Char.code a)%N.
Proof. unfold Char.ltb. apply N.ltb_ge. Qed.

Ltac char_cmp :=
  repeat match goal with
    | H : Char.ltb _ _ = true |- _ => apply char_ltb_lt in H
    | H : Char.ltb _ _ = false |- _ => apply char_ltb_ge in H
    | |- context [Char.ltb ?a ?b] => destruct (Char.ltb a b) eqn:?
    end.

Lemma str_ltb_irrefl (a : str) : str_ltb a a = false.
Proof.
  induction a as [|x a IH]; simpl; [done|].
  destruct (Char.ltb x x) eqn:E; [|done]. apply char_ltb_lt in E. lia.
Qed.

Lemma str_ltb_trans (a b c : str) :
  str_ltb a b = true -> str_ltb b c = true -> str_ltb a c = true.
Proof.
  revert b c. induction a as [|x a IH]; intros [|y b] [|z c]; simpl; try done.
  intros H1 H2.
  destruct (Char.ltb x y) eqn:Exy, (Char.ltb y x) eqn:Eyx,
           (Char.ltb y z) eqn:Eyz, (Char.ltb z y) eqn:Ezy;
    try done; char_cmp; try done; try lia; eauto.
Qed.

Lemma str_ltb_total (a b : str) :
  str_ltb a b = false -> str_ltb b a = false -> a = b.
Proof.
  revert b. induction a as [|x a IH]; intros [|y b]; simpl; try done.
  intros H1 H2.
  destruct (Char.ltb x y) eqn:Exy, (Char.ltb y x) eqn:Eyx; try done.
  char_cmp. f_equal; [apply code_inj; lia | by apply IH].
Qed.

Lemma str_ltb_asym (a b : str) : str_ltb a b = true -> str_ltb b a = false.
Proof.
  intros H. destruct (str_ltb b a) eqn:E; [|done].
  pose proof (str_ltb_trans _ _ _ H E) as F. by rewrite str_ltb_irrefl in F.
Qed.

Lemma str_leb_total (a b : str) : str_leb a b = false -> str_leb b a = true.
Proof.
  unfold str_leb. intros H. apply negb_false_iff in H.
  by rewrite (str_ltb_asym _ _ H).
Qed.

Lemma str_leb_trans (a b c : str) :
  str_leb a b = true -> str_leb b c = true -> str_leb a c = true.
Proof.
  unfold str_leb. rewrite !negb_true_iff. intros H1 H2.
  destruct (str_ltb c a) eqn:E; [|done].
  destruct (str_ltb a b) eqn:F.
  - by rewrite (str_ltb_trans _ _ _ E F) in H2.
  - rewrite (str_ltb_total _ _ F H1) in E. by rewrite E in H2.
Qed.

Lemma str_leb_ne_ltb (a b : str) : str_leb a b = true -> a <> b -> str_ltb a b = true.
Proof.
  unfold str_leb. rewrite negb_true_iff. intros H Hne.
  destruct (str_ltb a b) eqn:E; [done|]. by destruct Hne; apply str_ltb_total.
Qed.

(** ** Facts on [sorted] *)

Section SortedFacts.
Context {A : Type} (key : A -> str).

Lemma insert_sorted_perm (x : A) (l : list A) :
  Permutation (insert_sorted key x l) (x :: l).
Proof.
  induction l as [|y t IH]; simpl; [done|].
  destruct (str_leb (key x) (key y)); [done|].
  rewrite IH. apply perm_swap.
Qed.

Lemma py_sorted_perm (l : list A) : Permutation (py_sorted key l) l.
Proof.
  induction l as [|x t IH]; simpl; [done|].
  rewrite insert_sorted_perm. by constructor.
Qed.

Lemma insert_sorted_sorted (x : A) (l : list A) :
  StronglySorted (key_le key) l -> StronglySorted (key_le key) (insert_sorted key x l).
Proof.
  induction 1 as [|y t Hs IH Hall]; simpl.
  - repeat constructor.
  - destruct (str_leb (key x) (key y)) eqn:E.
    + constructor; [by constructor|]. constructor; [done|].
      eapply Forall_impl; [exact Hall|]. intros z Hz. unfold key_le in *.
      by eapply str_leb_trans.
    + constructor; [done|].
      rewrite (insert_sorted_perm x t). constructor; [|done].
      by apply str_leb_total.
Qed.

Lemma py_sorted_sorted (l : list A) : StronglySorted (key_le key) (py_sorted key l).
Proof.
  induction l as [|x t IH]; simpl; [constructor|].
  by apply insert_sorted_sorted.
Qed.

Lemma elem_of_py_sorted (x : A) (l : list A) : x ∈ py_sorted key l <-> x ∈ l.
Proof. by rewrite (py_sorted_perm l). Qed.

(** On keys that are pairwise different the order is strict. *)
Lemma sorted_strict (l : list A) :
  NoDup (map key l) -> StronglySorted (key_le key) l -> StronglySorted (key_lt key) l.
Proof.
  induction l as [|x t IH]; intros Hnd Hs; [constructor|].
  apply NoDup_cons in Hnd as [Hx Hnd]. apply StronglySorted_inv in Hs as [Hs Hall].
  constructor; [by apply IH|].
  apply Forall_forall. intros y Hy. rewrite Forall_forall in Hall.
  apply str_leb_ne_ltb; [by apply Hall|].
  intros Heq. apply Hx. rewrite Heq. apply list_elem_of_fmap. eauto.
Qed.
End SortedFacts.

(** ** Facts on the character classes *)

Ltac by_cases_on c :=
  destruct c as [[] [] [] [] [] [] [] []]; vm_compute; try done; intuition congruence.

Lemma space_not_digit (c : ascii) : Char.is_space c = true -> Char.is_digit c = false.
Proof. by_cases_on c. Qed.

Lemma not_dot_newline (c : ascii) : Char.is_dot c = false <-> c = newline.
Proof. by_cases_on c. Qed.

Lemma not_space_dot (c : ascii) : Char.is_space c = false -> Char.is_dot c = true.
Proof. by_cases_on c. Qed.

Lemma eq_ci_newline (c : ascii) : Char.eq_ci newline c = Char.is_code 10 c.
Proof. by_cases_on c. Qed.

Lemma is_code_newline (c : ascii) : Char.is_code 10 c = negb (Char.is_dot c).
Proof. by_cases_on c. Qed.

Lemma az_word (c : ascii) : Char.is_az c = true -> Char.is_word c = true.
Proof. by_cases_on c. Qed.

Lemma az_not_digit (c : ascii) : Char.is_az c = true -> Char.is_digit c = false.
Proof. by_cases_on c. Qed.

Lemma lower_lower (c : ascii) : Char.lower (Char.lower c) = Char.lower c.
Proof. by_cases_on c. Qed.

(** ** Facts on lists of characters *)

Section Spans.
Context {A : Type} (p : A -> bool).

Lemma take_drop_while (l : list A) : take_while p l ++ drop_while p l = l.
Proof. induction l as [|x t IH]; simpl; [done|]. destruct (p x); simpl; by rewrite ?IH. Qed.

Lemma take_while_all (l : list A) : forallb p (take_while p l) = true.
Proof. induction l as [|x t IH]; simpl; [done|]. destruct (p x) eqn:E; simpl; by rewrite ?E. Qed.

Lemma drop_while_nil (l : list A) : drop_while p l = [] <-> forallb p l = true.
Proof.
  induction l as [|x t IH]; simpl; [done|].
  destruct (p x); simpl; [done|]. split; done.
Qed.

Lemma drop_while_head (l : list A) (x : A) (t : list A) :
  drop_while p l = x :: t -> p x = false.
Proof.
  induction l as [|y l IH]; simpl; [done|].
  destruct (p y) eqn:E; [done|]. intros [= -> ->]. done.
Qed.

Lemma take_length_drop_while (l : list A) :
  take (length l - length (drop_while p l)) l = take_while p l.
Proof.
  rewrite <- (take_drop_while l) at 1 3.
  rewrite length_app, Nat.add_sub. by rewrite take_app_length.
Qed.
End Spans.

Lemma forallb_space_strip (l : str) : forallb Char.is_space l = true -> strip l = [].
Proof.
  intros H. unfold strip, lstrip, rstrip.
  apply drop_while_nil in H. by rewrite H.
Qed.

Lemma head_flat_map_cons {A B} (f : A -> list B) (x : A) (l : list A) :
  head (flat_map f (x :: l)) =
  match head (f x) with Some y => Some y | None => head (flat_map f l) end.
Proof. simpl. by destruct (f x). Qed.

Lemma head_flat_map_app {A B} (f : A -> list B) (l1 l2 : list A) :
  head (flat_map f (l1 ++ l2)) =
  match head (flat_map f l1) with Some y => Some y | None => head (flat_map f l2) end.
Proof. rewrite flat_map_app. by destruct (flat_map f l1). Qed.

(** ** The matcher on the patterns of the parser *)

Module ParserRe.
Import Re.

Lemma search_from_head ic r prev l :
  search_from ic r prev l =
  match head (run ic r (MState prev l None)) with
  | Some s => Some s
  | None => match l with x :: t => search_from ic r (Some x) t | [] => None end
  end.
Proof. destruct l; simpl; by destruct (run ic r _). Qed.

(** A literal label, read under IGNORECASE. *)
Lemma run_Str (label : str) (k : regex) (prev : option ascii) (l : str) (g : option str) :
  exists prev',
    run true (Str label k) (MState prev l g) =
    match after_label label l with
    | Some rest => run true k (MState prev' rest g)
    | None => []
    end.
Proof.
  revert prev l. induction label as [|a label IH]; intros prev l; simpl.
  - by exists prev.
  - destruct l as [|b l]; simpl; [by exists prev|].
    destruct (Char.eq_ci a b); simpl; [|by exists prev].
    destruct (IH (Some b) l) as [prev' ->]. exists prev'. by rewrite app_nil_r.
Qed.


(** [(.+?)(?:\n|$)]: the lazy run stops at the first line feed or at the
    end of the text, whichever comes first. *)
Lemma lazy_line_from (l0 pre l : str) (prev : option ascii) :
  l0 = pre ++ l ->
  exists s,
    head (flat_map (run true line_end)
            (map (fun s' => MState (m_prev s') (m_rest s')
                              (Some (take (length l0 - length (m_rest s')) l0)))
               (map (fun '(prev, l) => MState prev l None)
                  (rep false 0 Char.is_dot prev l)))) = Some s
    /\ m_grp s = Some (pre ++ take_while Char.is_dot l).
Proof.
  revert pre prev. induction l as [|x t IH]; intros pre prev ->.
  - simpl. eexists. split; [done|]. simpl.
    rewrite Nat.sub_0_r, take_ge by lia. done.
  - cbn [rep app map]. rewrite head_flat_map_cons.
    assert (Hpre : take (length (pre ++ x :: t) - length (x :: t)) (pre ++ x :: t) = pre).
    { rewrite length_app, Nat.add_sub. by rewrite take_app_length. }
    destruct (Char.is_dot x) eqn:Hx.
    + assert (Hnl : Char.is_code 10 x = false).
      { rewrite is_code_newline, Hx. done. }
      replace (head (run true line_end _)) with (@None mstate).
      2:{ simpl. rewrite eq_ci_newline, Hnl. simpl. destruct t; by rewrite ?Hnl. }
      destruct (IH (pre ++ [x]) (Some x)) as (s & Hs & Hg).
      { by rewrite <- app_assoc. }
      exists s. split; [exact Hs|]. rewrite Hg. simpl. rewrite Hx.
      by rewrite <- app_assoc.
    + assert (Hnl : Char.is_code 10 x = true).
      { rewrite is_code_newline, Hx. done. }
      simpl. rewrite eq_ci_newline, Hnl. simpl.
      eexists. split; [done|]. simpl. rewrite Hx, app_nil_r.
      cbn [length] in Hpre. by rewrite Hpre.
Qed.

Lemma lazy_line (l : str) (prev : option ascii) (g : option str) :
  match head (run true line_re (MState prev l g)) with
  | Some s =>
      m_grp s = Some (take_while Char.is_dot l)
      /\ exists x t, l = x :: t /\ Char.is_dot x = true
  | None => match l with x :: _ => Char.is_dot x = false | [] => True end
  end.
Proof.
  unfold line_re. cbn [run m_prev m_rest].
  destruct l as [|x t]; [done|]. cbn [rep app].
  destruct (Char.is_dot x) eqn:Hx; [|done]. cbn [pred].
  rewrite map_map.
  destruct (lazy_line_from (x :: t) [x] t (Some x) eq_refl) as (s & Hs & Hg).
  rewrite map_map in Hs.
  erewrite map_ext in Hs; [rewrite Hs|].
  - split; [|by eauto]. rewrite Hg. simpl. by rewrite Hx.
  - by intros [p' l'].
Qed.

(** One step of the greedy [\s*]: the longer runs of white space are tried
    before the position itself. *)
Lemma greedy_space_step (f : mstate -> list mstate) (g : option str)
    (prev : option ascii) (l : str) :
  head (flat_map f (map (fun '(prev, l) => MState prev l g)
                      (rep true 0 Char.is_space prev l))) =
  match
    match l with
    | x :: t =>
        if Char.is_space x
        then head (flat_map f (map (fun '(prev, l) => MState prev l g)
                                 (rep true 0 Char.is_space (Some x) t)))
        else None
    | [] => None
    end
  with
  | Some s => Some s
  | None => head (f (MState prev l g))
  end.
Proof.
  destruct l as [|x t]; cbn [rep pred].
  - simpl. by rewrite app_nil_r.
  - rewrite map_app, head_flat_map_app. cbn [map flat_map]. rewrite app_nil_r.
    destruct (Char.is_space x); [done|]. done.
Qed.

(** [\s*(.+?)(?:\n|$)] after a label captures what [line_after] describes. *)
Lemma text_tail_spec (rest : str) (prev : option ascii) :
  match head (run true text_tail (MState prev rest None)) with
  | Some s => exists c, m_grp s = Some c /\ line_after rest = Some (strip c)
  | None => line_after rest = None
  end.
Proof.
  unfold text_tail. cbn [run m_prev m_rest m_grp].
  revert prev. induction rest as [|x t IH]; intros prev;
    rewrite greedy_space_step.
  - pose proof (lazy_line [] prev None) as H.
    destruct (head (run true line_re _)); [by destruct H as (_ & ? & ? & ? & _)|done].
  - destruct (Char.is_space x) eqn:Hx.
    + specialize (IH (Some x)).
      destruct (head (flat_map _ _)) as [s|].
      * destruct IH as (c & Hc & Hl). exists c. split; [done|].
        unfold line_after in *. simpl. rewrite Hx.
        destruct (drop_while Char.is_space t); [|done].
        destruct (existsb Char.is_dot t); [|done]. by rewrite orb_true_r.
      * pose proof (lazy_line (x :: t) prev None) as H.
        unfold line_after in *. cbn [drop_while existsb]. rewrite Hx.
        destruct (drop_while Char.is_space t) eqn:Hd; [|done].
        destruct (existsb Char.is_dot t); [done|]. rewrite orb_false_r.
        destruct (head (run true line_re _)) as [s|].
        -- destruct H as (Hg & y & t' & [= <- <-] & Hy). rewrite Hy.
           eexists. split; [exact Hg|]. f_equal. symmetry.
           apply forallb_space_strip.
           apply drop_while_nil in Hd.
           assert (Hall : forallb Char.is_space (x :: t) = true) by (simpl; by rewrite Hx).
           rewrite <- (take_drop_while Char.is_dot (x :: t)), forallb_app in Hall.
           by apply andb_true_iff in Hall as [? _].
        -- by rewrite H.
    + pose proof (lazy_line (x :: t) prev None) as H.
      unfold line_after. cbn [drop_while]. rewrite Hx.
      destruct (head (run true line_re _)) as [s|].
      * destruct H as (Hg & _). eauto.
      * by rewrite (not_space_dot x Hx) in H.
Qed.

(** The text pattern, searched: [group(1).strip()] is what [scan_label]
    finds with [line_after]. *)
Lemma text_match_scan (label content : str) :
  option_map strip (text_match label content) = scan_label label line_after content.
Proof.
  unfold text_match, search_group1, search, text_re.
  generalize (@None ascii) as prev.
  induction content as [|x t IH]; intros prev; rewrite search_from_head;
    destruct (run_Str label text_tail prev (x :: t) None) as [prev' Hrun] ||
    destruct (run_Str label text_tail prev [] None) as [prev' Hrun];
    rewrite Hrun; cbn [scan_label];
    destruct (after_label label _) as [rest|]; try done.
  - pose proof (text_tail_spec rest prev') as H.
    destruct (head _) as [s|]; [|by rewrite H].
    destruct H as (c & -> & ->). done.
  - pose proof (text_tail_spec rest prev') as H.
    destruct (head _) as [s|]; [|by rewrite H; apply IH].
    destruct H as (c & -> & ->). done.
  - apply IH.
Qed.

(** A greedy repetition offers the longest run first. *)
Lemma rep_greedy_head (p : ascii -> bool) (n : nat) (prev : option ascii) (l : str) :
  match head (rep true n p prev l) with
  | Some (_, l') => l' = drop_while p l /\ n <= length (take_while p l)
  | None => length (take_while p l) < n
  end.
Proof.
  revert n prev. induction l as [|x t IH]; intros n prev; cbn [rep].
  - destruct n; simpl; [done|lia].
  - cbn [take_while drop_while]. destruct (p x).
    + specialize (IH (pred n) (Some x)).
      destruct (rep true (pred n) p (Some x) t) as [|[q l'] r]; cbn [head app] in *.
      * destruct n; simpl in *; lia.
      * destruct IH as [-> ?]. split; [done|]. simpl. lia.
    + destruct n; simpl; [done|lia].
Qed.

(** [(\d+)] *)
Lemma digits_group (l : str) (prev : option ascii) (g : option str) :
  match head (run true digits_re (MState prev l g)) with
  | Some s => m_grp s = Some (take_while Char.is_digit l)
              /\ take_while Char.is_digit l <> []
  | None => take_while Char.is_digit l = []
  end.
Proof.
  unfold digits_re. cbn [run m_prev m_rest m_grp]. rewrite map_map.
  pose proof (rep_greedy_head Char.is_digit 1 prev l) as H.
  destruct (rep true 1 Char.is_digit prev l) as [|[q l'] r]; cbn [head map] in *.
  - destruct (take_while Char.is_digit l); [done|simpl in H; lia].
  - destruct H as [-> Hlen]. cbn [m_grp m_rest].
    rewrite take_length_drop_while. split; [done|].
    destruct (take_while Char.is_digit l); [simpl in Hlen; lia|done].
Qed.

(** [\s*(\d+)] after a label captures what [digits_after] describes. *)
Lemma num_tail_spec (rest : str) (prev : option ascii) :
  match head (run true num_tail (MState prev rest None)) with
  | Some s => exists d, m_grp s = Some d /\ digits_after rest = Some d
  | None => digits_after rest = None
  end.
Proof.
  unfold num_tail. cbn [run m_prev m_rest m_grp].
  revert prev. induction rest as [|x t IH]; intros prev;
    rewrite greedy_space_step.
  - pose proof (digits_group [] prev None) as H.
    destruct (head (run true digits_re _)); [by destruct H|done].
  - pose proof (digits_group (x :: t) prev None) as H.
    unfold digits_after in *. cbn [drop_while].
    destruct (Char.is_space x) eqn:Hx.
    + specialize (IH (Some x)).
      destruct (head (flat_map _ _)) as [s|]; [done|].
      destruct (head (run true digits_re _)) as [s|]; [|done].
      destruct H as [_ H]. simpl in H. by rewrite (space_not_digit x Hx) in H.
    + destruct (head (run true digits_re _)) as [s|].
      * destruct H as [Hg Hne]. exists (take_while Char.is_digit (x :: t)).
        split; [done|]. by destruct (take_while Char.is_digit (x :: t)).
      * by rewrite H.
Qed.

(** The numeric pattern, searched: [group(1)] is what [scan_label] finds
    with [digits_after]. *)
Lemma num_match_scan (label content : str) :
  num_match label content = scan_label label digits_after content.
Proof.
  unfold num_match, search_group1, search, num_re.
  generalize (@None ascii) as prev.
  induction content as [|x t IH]; intros prev; rewrite search_from_head;
    destruct (run_Str label num_tail prev (x :: t) None) as [prev' Hrun] ||
    destruct (run_Str label num_tail prev [] None) as [prev' Hrun];
    rewrite Hrun; cbn [scan_label];
    destruct (after_label label _) as [rest|]; try done.
  - pose proof (num_tail_spec rest prev') as H.
    destruct (head _) as [s|]; [|by rewrite H].
    destruct H as (c & -> & ->). done.
  - pose proof (num_tail_spec rest prev') as H.
    destruct (head _) as [s|]; [|by rewrite H; apply IH].
    destruct H as (c & -> & ->). done.
  - apply IH.
Qed.

(** What [scan_label] returns. *)
Lemma scan_label_Some (label : str) (value : str -> option str) (text v : str) :
  scan_label label value text = Some v ->
  exists pre rest, text = pre ++ rest
    /\ (exists after, after_label label rest = Some after /\ value after = Some v).
Proof.
  induction text as [|x t IH]; cbn [scan_label].
  - destruct (after_label label []) as [r|] eqn:E; [|done].
    destruct (value r) eqn:F; [|done]. intros [= <-]. exists [], []. eauto.
  - destruct (after_label label (x :: t)) as [r|] eqn:E.
    + destruct (value r) eqn:F.
      * intros [= <-]. exists [], (x :: t). eauto.
      * intros H. destruct (IH H) as (pre & rest & -> & Hr).
        exists (x :: pre), rest. eauto.
    + intros H. destruct (IH H) as (pre & rest & -> & Hr).
      exists (x :: pre), rest. eauto.
Qed.

Lemma digits_after_digits (rest d : str) :
  digits_after rest = Some d -> all_digits d = true.
Proof.
  unfold digits_after. intros H.
  pose proof (take_while_all Char.is_digit (drop_while Char.is_space rest)) as Hall.
  destruct (take_while _ _) as [|c r]; [done|]. injection H as <-. exact Hall.
Qed.

End ParserRe.
Import ParserRe.

(** ** The parser *)

Lemma parse_gag_file_spec (f : File) :
  parse_gag_file f =
  if convertible (scan_label season_label digits_after (content f))
     && convertible (scan_label order_label digits_after (content f))
  then Some (parsed_record f) else None.
Proof.
  unfold parse_gag_file, parse_fields, parsed_record.
  rewrite !num_match_scan.
  rewrite <- !text_match_scan.
  destruct (text_match title_label _), (text_match episode_label _),
    (text_match owner_label _), (text_match desc_label _);
  destruct (scan_label season_label _ _) as [d1|], (scan_label order_label _ _) as [d2|];
  unfold py_int, convertible; simpl;
  repeat (case_decide; simpl); repeat (case_bool_decide; simpl); try lia; done.
Qed.

(** Where the label stands nowhere there is nothing to scan. *)
Lemma scan_label_none (label : str) (value : str -> option str) (text : str) :
  label_stands label text = false -> scan_label label value text = None.
Proof.
  induction text as [|x t IH]; cbn [scan_label label_stands].
  - by destruct (after_label label []).
  - destruct (after_label label (x :: t)); [done|]. apply IH.
Qed.

(** ** Claims on the parser *)

(** C3 (as stated, refuted).  On the text [Season: 5th] the value after the
    label, [5th], is not made of digits, so the specification leaves the
    season unset; the parser sets it to 5. *)
Lemma numeric_value_not_pure_digits :
  claimed_num_field season_label (content file_ordinal) = None
  /\ claimed_text_field season_label (content file_ordinal) = Some (lit "5th")
  /\ parse_gag_file file_ordinal
     = Some (mkGag (lit "f") (Some 5%Z) None None None None (lit "f.txt")).
Proof. vm_compute. done. Qed.

(** C3 (amended).  A numeric field is read from the first place where its
    label (any case, any offset) is followed by optional white space and a
    digit: it is the number written by the run of digits there, whatever
    follows the run.  When there is no such place, as when the label
    stands nowhere in the text, the field is unset.  The parser never
    raises: it returns a
    record, or, when a run has more digits than [int] converts, none. *)
Theorem numeric_fields_leading_digits (f : File) :
  let s := scan_label season_label digits_after (content f) in
  let o := scan_label order_label digits_after (content f) in
  (if convertible s && convertible o
   then exists g, parse_gag_file f = Some g
                  /\ season g = digits_value <$> s
                  /\ episode_order g = digits_value <$> o
   else parse_gag_file f = None)
  /\ (forall d, s = Some d \/ o = Some d -> all_digits d = true)
  /\ (label_stands season_label (content f) = false -> s = None)
  /\ (label_stands order_label (content f) = false -> o = None).
Proof.
  intros s o. repeat split.
  - rewrite parse_gag_file_spec. fold s o.
    destruct (convertible s && convertible o); [|done].
    exists (parsed_record f). done.
  - intros d [H|H]; apply scan_label_Some in H as (pre & rest & _ & after & _ & H);
      by eapply digits_after_digits.
  - apply scan_label_none.
  - apply scan_label_none.
Qed.

Lemma numeric_fields_leading_digits_witness :
  (exists g, parse_gag_file file_ordinal = Some g
             /\ season g = Some 5%Z /\ episode_order g = None)
  /\ scan_label order_label digits_after (content file_ordinal) = None.
Proof.
  destruct (numeric_fields_leading_digits file_ordinal) as (H & _ & _ & Ho).
  split; [exact H|]. apply Ho. vm_compute. reflexivity.
Defined.

(** C4 (as stated, refuted).  The text [Subtitle: X] has no line of the form
    [Title: value], so the specification leaves the title at the fallback
    [f]; the parser finds the label inside the longer word and sets the
    title to [X]. *)
Lemma embedded_label_sets_title :
  claimed_text_field title_label (content file_subtitle) = None
  /\ parse_gag_file file_subtitle
     = Some (mkGag (lit "X") None None None None None (lit "f.txt")).
Proof. vm_compute. done. Qed.

(** C4 (amended).  Each field is read from the first place in the text, at
    any offset (also inside a longer word or in the middle of a line), where
    its label stands, case-insensitively, followed by a value.  For the four
    text fields the value starts after the colon and any white space, line
    feeds included, runs to the end of the line reached or of the text, and
    is trimmed; for the two numeric fields it is the run of digits after the
    colon and any white space. *)
Theorem fields_from_first_label (f : File) (g : Gag) :
  parse_gag_file f = Some g ->
  title g = default (stem f) (scan_label title_label line_after (content f))
  /\ episode g = scan_label episode_label line_after (content f)
  /\ cutaway_owner g = scan_label owner_label line_after (content f)
  /\ description g = scan_label desc_label line_after (content f)
  /\ season g = digits_value <$> scan_label season_label digits_after (content f)
  /\ episode_order g = digits_value <$> scan_label order_label digits_after (content f).
Proof.
  rewrite parse_gag_file_spec.
  destruct (_ && _); [|done]. intros [= <-]. done.
Qed.

Lemma fields_from_first_label_witness :
  let g := mkGag (lit "X") None None None None None (lit "f.txt") in
  parse_gag_file file_subtitle = Some g
  /\ title g = default (stem file_subtitle)
                 (scan_label title_label line_after (content file_subtitle))
  /\ description g = scan_label desc_label line_after (content file_subtitle).
Proof.
  intros g.
  assert (H : parse_gag_file file_subtitle = Some g) by (vm_compute; reflexivity).
  split; [exact H|].
  destruct (fields_from_first_label file_subtitle g H) as (Ht & _ & _ & Hd & _).
  split; [exact Ht|exact Hd].
Defined.

(** C9.  A text in which none of the six labels stands (a label is its
    name followed by the colon, read case-insensitively at any offset) gives
    a record whose title is the fallback identifier and whose five other
    fields are unset.  A label name without its colon does not count. *)
Theorem no_labels_fallback (f : File) :
  no_labels (content f) = true ->
  parse_gag_file f = Some (mkGag (stem f) None None None None None (name f)).
Proof.
  unfold no_labels, labels. cbn [forallb].
  rewrite !andb_true_iff, !negb_true_iff.
  intros (Ht & Hs & He & Ho & Hw & Hd & _).
  rewrite parse_gag_file_spec. unfold parsed_record.
  by rewrite !scan_label_none.
Qed.

Lemma no_labels_fallback_witness :
  no_labels (content file_finale) = true
  /\ parse_gag_file file_finale
     = Some (mkGag (lit "note") None None None None None (lit "note.txt")).
Proof.
  assert (H : no_labels (content file_finale) = true) by (vm_compute; reflexivity).
  split; [exact H|]. exact (no_labels_fallback file_finale H).
Defined.

(** ** The matcher on the pattern of the tokenizer *)

Module TokenRe.
Import Re.

(** [[a-z]+\b], or [[a-z]*\b] inside a run: only the whole run of letters can
    end at a word boundary. *)
Lemma az_run_boundary (l : str) (prev : option ascii) (n : nat) :
  (n = 0 -> word_char prev = true) ->
  match head (flat_map (run false Bnd)
                (map (fun '(prev, l) => MState prev l None)
                   (rep true n Char.is_az prev l))) with
  | Some s =>
      m_rest s = drop_while Char.is_az l
      /\ n <= length (take_while Char.is_az l)
      /\ starts_word (drop_while Char.is_az l) = false
  | None =>
      length (take_while Char.is_az l) < n
      \/ starts_word (drop_while Char.is_az l) = true
  end.
Proof.
  revert prev n. induction l as [|x t IH]; intros prev n Hn; cbn [rep].
  - destruct n as [|n]; cbn; [|lia].
    unfold word_before. cbn. unfold word_char in Hn.
    rewrite Hn by done. cbn. done.
  - cbn [take_while drop_while]. destruct (Char.is_az x) eqn:Hx.
    + rewrite map_app, head_flat_map_app.
      assert (Hw : pred n = 0 -> word_char (Some x) = true) by (intros _; by apply az_word).
      specialize (IH (Some x) (pred n) Hw).
      destruct (head (flat_map _ (map _ (rep true (pred n) _ _ _)))) as [s|].
      * destruct IH as (-> & Hlen & Hs). repeat split; [|done]. cbn. lia.
      * assert (Hstop : head (flat_map (run false Bnd)
                  (map (fun '(prev, l) => MState prev l None)
                     match n with 0 => [(prev, x :: t)] | S _ => [] end)) = None).
        { destruct n; [|done]. cbn. unfold word_before, word_after. cbn.
          change (match prev with Some c => Char.is_word c | None => false end)
            with (word_char prev).
          rewrite Hn, (az_word x Hx) by done. done. }
        rewrite Hstop. destruct IH as [IH|IH]; [left|by right].
        cbn. destruct n; simpl in *; lia.
    + cbn [app]. destruct n as [|n]; cbn; [|left; lia].
      unfold word_before, word_after. cbn.
      change (match prev with Some c => Char.is_word c | None => false end)
        with (word_char prev).
      rewrite Hn by done. cbn.
      destruct (Char.is_word x) eqn:Hwx; cbn; [by right|]. repeat split; try done; lia.
Qed.

Lemma run_Cat ic r1 r2 s : run ic (Cat r1 r2) s = flat_map (run ic r2) (run ic r1 s).
Proof. reflexivity. Qed.

Lemma run_Bnd ic s :
  run ic Bnd s =
  if xorb (word_char (m_prev s)) (starts_word (m_rest s)) then [s] else [].
Proof. reflexivity. Qed.

Lemma run_Rep ic g n p s :
  run ic (Rep g n p) s =
  map (fun '(prev, l) => MState prev l (m_grp s)) (rep g n p (m_prev s) (m_rest s)).
Proof. reflexivity. Qed.

Lemma rep_az_not_word (l : str) (prev : option ascii) :
  starts_word l = false -> rep true 1 Char.is_az prev l = [].
Proof.
  destruct l as [|x t]; [done|]. cbn. intros Hx.
  destruct (Char.is_az x) eqn:E; [|done]. by rewrite (az_word x E) in Hx.
Qed.

(** [\b[a-z]+\b] at one position. *)
Lemma word_re_head (l : str) (prev : option ascii) :
  match head (run false word_re (MState prev l None)) with
  | Some s =>
      word_char prev = false
      /\ take_while Char.is_az l <> []
      /\ m_rest s = drop_while Char.is_az l
      /\ starts_word (drop_while Char.is_az l) = false
  | None =>
      word_char prev = true
      \/ take_while Char.is_az l = []
      \/ starts_word (drop_while Char.is_az l) = true
  end.
Proof.
  unfold word_re. rewrite run_Cat, run_Bnd. cbn [m_prev m_rest].
  destruct (word_char prev) eqn:Hp, (starts_word l) eqn:Hl; cbn [xorb flat_map head];
    rewrite ?app_nil_r, ?run_Cat, ?run_Rep; cbn [m_prev m_rest m_grp].
  - by left.
  - rewrite rep_az_not_word by done. by left.
  - pose proof (az_run_boundary l prev 1) as H.
    destruct (head _) as [s|].
    + destruct H as (Hr & Hlen & Hs); [done|]. repeat split; try done.
      destruct (take_while Char.is_az l); [simpl in Hlen; lia|done].
    + destruct H as [H|H]; [done| |by right; right].
      right; left. destruct (take_while Char.is_az l); [done|simpl in H; lia].
  - right; left. destruct l as [|x t]; [done|]. cbn in *.
    destruct (Char.is_az x) eqn:Hx; [|done]. by rewrite (az_word x Hx) in Hl.
Qed.

(** [findall] one step at a time. *)
Lemma findall_from_0 (r : regex) (prev : option ascii) (l : str) :
  findall_from r prev l 0 =
  match head (run false r (MState prev l None)) with
  | Some s =>
      let n := length l - length (m_rest s) in
      take n l :: match l with
                  | x :: t => findall_from r (Some x) t (pred n)
                  | [] => []
                  end
  | None => match l with
            | x :: t => findall_from r (Some x) t 0
            | [] => []
            end
  end.
Proof. destruct l; cbn [findall_from]; by destruct (run false r _). Qed.

(** Passing over the characters of a match. *)
Lemma findall_from_skip (r : regex) (a b : str) (prev : option ascii) :
  findall_from r prev (a ++ b) (length a) = findall_from r (prev_after a prev) b 0.
Proof.
  revert prev. induction a as [|x a IH]; intros prev; [done|].
  cbn [app length findall_from]. by rewrite IH.
Qed.

Lemma prev_after_word (a : str) (prev : option ascii) :
  forallb Char.is_word a = true -> word_char prev = true ->
  word_char (prev_after a prev) = true.
Proof.
  revert prev. induction a as [|x a IH]; intros prev Ha Hp; [done|].
  cbn in Ha. apply andb_true_iff in Ha as [Hx Ha]. by apply IH.
Qed.

(** After a word character nothing matches before the word ends. *)
Lemma findall_from_in_word (l : str) (prev : option ascii) :
  word_char prev = true ->
  findall_from word_re prev l 0 =
  match drop_while Char.is_word l with
  | [] => []
  | y :: t => findall_from word_re (Some y) t 0
  end.
Proof.
  revert prev. induction l as [|x t IH]; intros prev Hp; rewrite findall_from_0.
  - pose proof (word_re_head [] prev) as H.
    destruct (head _) as [s|]; [|done]. destruct H as [H _]. congruence.
  - pose proof (word_re_head (x :: t) prev) as H.
    destruct (head _) as [s|]; [destruct H as [H _]; congruence|].
    cbn [drop_while]. destruct (Char.is_word x) eqn:Hx; [|done]. by apply IH.
Qed.

(** The runs of [p], a span at a time. *)
Lemma runs_span (p : ascii -> bool) (acc l : str) :
  runs p acc l =
  match acc ++ take_while p l, drop_while p l with
  | [], [] => []
  | [], _ :: t => runs p [] t
  | w, [] => [w]
  | w, _ :: t => w :: runs p [] t
  end.
Proof.
  revert acc. induction l as [|x t IH]; intros acc; cbn [runs take_while drop_while].
  - rewrite app_nil_r. by destruct acc.
  - destruct (p x) eqn:Hx.
    + rewrite IH. by rewrite <- app_assoc.
    + rewrite app_nil_r. by destruct acc.
Qed.

(** A run of word characters made of letters is a run of letters. *)
Lemma az_span_word_span (l : str) :
  forallb Char.is_az (take_while Char.is_word l) = true ->
  take_while Char.is_az l = take_while Char.is_word l
  /\ drop_while Char.is_az l = drop_while Char.is_word l.
Proof.
  induction l as [|x t IH]; cbn; [done|].
  destruct (Char.is_word x) eqn:Hw; cbn.
  - intros H. apply andb_true_iff in H as [Hx H]. rewrite Hx.
    destruct (IH H) as [-> ->]. done.
  - intros _. destruct (Char.is_az x) eqn:Hx; [|done]. by rewrite (az_word x Hx) in Hw.
Qed.

Lemma word_span_az_span (l : str) :
  starts_word (drop_while Char.is_az l) = false ->
  take_while Char.is_word l = take_while Char.is_az l.
Proof.
  induction l as [|x t IH]; cbn; [done|].
  destruct (Char.is_az x) eqn:Hx; cbn.
  - intros H. rewrite (az_word x Hx). by rewrite IH.
  - intros ->. done.
Qed.

Lemma drop_while_length {A} (p : A -> bool) (l : list A) :
  length (drop_while p l) <= length l.
Proof. induction l as [|x t IH]; cbn; [done|]. destruct (p x); cbn; lia. Qed.

(** [re.findall(r'\b[a-z]+\b', text)] lists the runs of word characters
    that are made of letters a-z. *)
Lemma findall_word_re_from (n : nat) (l : str) (prev : option ascii) :
  length l <= n -> word_char prev = false ->
  findall_from word_re prev l 0 = letter_words l.
Proof.
  revert l prev. induction n as [|n IH]; intros l prev Hlen Hp.
  { destruct l; [|simpl in Hlen; lia]. rewrite findall_from_0.
    pose proof (word_re_head [] prev) as H.
    destruct (head _) as [s|]; [|done]. by destruct H as (_ & H & _). }
  destruct l as [|x t].
  { rewrite findall_from_0. pose proof (word_re_head [] prev) as H.
    destruct (head _) as [s|]; [|done]. by destruct H as (_ & H & _). }
  cbn [length] in Hlen.
  assert (Hrest : forall prev', word_char prev' = true ->
            findall_from word_re prev' (drop_while Char.is_word t) 0 =
            match drop_while Char.is_word t with
            | [] => []
            | _ :: t' => letter_words t'
            end).
  { intros prev' Hp'. rewrite findall_from_in_word by done.
    pose proof (drop_while_length Char.is_word t) as Hl.
    destruct (drop_while Char.is_word t) as [|y t'] eqn:Hd; [done|].
    cbn [drop_while]. rewrite (drop_while_head _ _ _ _ Hd).
    apply IH; [simpl in Hl; lia|]. cbn. by apply (drop_while_head _ _ _ _ Hd). }
  rewrite findall_from_0. pose proof (word_re_head (x :: t) prev) as H.
  unfold letter_words at 1. rewrite (runs_span Char.is_word [] (x :: t)).
  cbn [app take_while drop_while]. destruct (Char.is_word x) eqn:Hx.
  - set (w := x :: take_while Char.is_word t).
    destruct (head _) as [s|].
    + destruct H as (_ & Hne & Hs & Hb).
      pose proof (word_span_az_span (x :: t) Hb) as Hw.
      assert (Hwdef : take_while Char.is_word (x :: t) = w) by (cbn; by rewrite Hx).
      rewrite Hwdef in Hw.
      assert (Haz : forallb Char.is_az w = true).
      { rewrite Hw. apply take_while_all. }
      rewrite Hs. cbv zeta. rewrite take_length_drop_while, <- Hw.
      assert (Hn : pred (length (x :: t) - length (drop_while Char.is_az (x :: t)))
                   = length (take_while Char.is_word t)).
      { rewrite <- (take_drop_while Char.is_az (x :: t)) at 1.
        rewrite length_app, Nat.add_sub, <- Hw. done. }
      rewrite Hn.
      replace (findall_from word_re (Some x) t (length (take_while Char.is_word t)))
        with (findall_from word_re (Some x)
                (take_while Char.is_word t ++ drop_while Char.is_word t)
                (length (take_while Char.is_word t)))
        by (by rewrite take_drop_while).
      rewrite findall_from_skip, Hrest.
      2:{ apply prev_after_word; [apply take_while_all|done]. }
      destruct (drop_while Char.is_word t) as [|y t'].
      * by rewrite filter_cons_True, filter_nil.
      * by rewrite filter_cons_True.
    + assert (Haz : forallb Char.is_az w = false).
      { destruct (forallb Char.is_az w) eqn:E; [|done].
        destruct (az_span_word_span (x :: t)) as [Ht Hd].
        { cbn [take_while]. by rewrite Hx. }
        cbn [take_while drop_while] in Ht, Hd. rewrite Hx in Ht, Hd.
        destruct H as [H|[H|H]]; [congruence| |].
        - cbn [take_while] in H. congruence.
        - cbn [drop_while] in H. rewrite Hd in H.
          destruct (drop_while Char.is_word t) as [|y t'] eqn:F; [done|].
          cbn in H. by rewrite (drop_while_head _ _ _ _ F) in H. }
      rewrite findall_from_in_word by done.
      destruct (drop_while Char.is_word t) as [|y t'] eqn:F.
      * rewrite filter_cons_False; [done|]. by rewrite Haz.
      * rewrite filter_cons_False; [|by rewrite Haz].
        rewrite (IH t' (Some y)); [done| |by apply (drop_while_head _ _ _ _ F)].
        pose proof (drop_while_length Char.is_word t) as Hl. rewrite F in Hl.
        simpl in Hl. lia.
  - destruct (head _) as [s|].
    + destruct H as (_ & Hne & _). cbn in Hne.
      destruct (Char.is_az x) eqn:E; [|done]. by rewrite (az_word x E) in Hx.
    + apply IH; [lia|done].
Qed.

Lemma findall_word_re (text : str) : findall word_re text = letter_words text.
Proof. by apply (findall_word_re_from (length text)). Qed.

End TokenRe.
Import TokenRe.

Lemma az_chars_no_digit (w : str) (c : ascii) :
  forallb Char.is_az w = true -> c ∈ w -> Char.is_digit c = false.
Proof.
  intros H Hc. rewrite forallb_forall in H.
  apply az_not_digit, H. by apply list_elem_of_In.
Qed.

Lemma extract_keywords_bounded (text : str) :
  _extract_keywords text = bounded_keywords text.
Proof.
  unfold _extract_keywords, _extract_keywords_min, bounded_keywords.
  by rewrite findall_word_re.
Qed.

(** What the filter of [_extract_keywords] lets through. *)
Lemma keywords_kept (text w : str) :
  w ∈ _extract_keywords text ->
  forallb Char.is_az w = true /\ 3 <= length w /\ (w ∉ stop_words).
Proof.
  rewrite extract_keywords_bounded. unfold bounded_keywords, letter_words. intros Hw.
  apply list_elem_of_filter in Hw as [Hk Hw].
  apply list_elem_of_filter in Hw as [Haz _].
  unfold keep_word in Hk. apply andb_true_iff in Hk as [Hl Hs].
  apply bool_decide_eq_true in Hl. apply negb_true_iff, bool_decide_eq_false in Hs.
  done.
Qed.

(** ** Claims on the tokenizer *)

(** C2 (as stated, refuted).  With digits as separators the fragment
    [money5] would give the token [money]; the tokenizer gives none. *)
Lemma digit_is_not_a_separator :
  claimed_keywords (lit "money5") = [lit "money"]
  /\ _extract_keywords (lit "money5") = [].
Proof. vm_compute. done. Qed.

(** C2 (amended).  The tokens are the maximal runs of word characters
    (letters, digits, underscore) of the lower-cased text that consist of
    the letters a-z only, in order, less those shorter than 3 characters and
    the stop words; a run of letters that touches a digit or an underscore
    gives no token, and no token has a digit in it. *)
Theorem keywords_are_letter_words (text : str) :
  _extract_keywords text = bounded_keywords text
  /\ forall w, w ∈ _extract_keywords text ->
       forallb Char.is_az w = true /\ 3 <= length w /\ (w ∉ stop_words)
       /\ (forall c, c ∈ w -> Char.is_digit c = false).
Proof.
  split; [apply extract_keywords_bounded|]. intros w Hw.
  destruct (keywords_kept text w Hw) as (Haz & Hlen & Hstop).
  repeat split; try done. intros c Hc. by eapply az_chars_no_digit.
Qed.

Lemma keywords_are_letter_words_witness :
  lit "money" ∈ _extract_keywords (lit "Money, money5 and the bank")
  /\ 3 <= length (lit "money") /\ (lit "money" ∉ stop_words).
Proof.
  assert (H : lit "money" ∈ _extract_keywords (lit "Money, money5 and the bank")).
  { vm_compute. repeat constructor. }
  split; [exact H|].
  destruct (keywords_are_letter_words (lit "Money, money5 and the bank")) as [_ Hall].
  destruct (Hall _ H) as (_ & Hlen & Hstop & _). split; [exact Hlen|exact Hstop].
Defined.

(** ** The index *)

Lemma index_add_eq (w t : str) (idx : gmap str (gset str)) :
  index_add w t idx = <[w := titles_of idx w ∪ {[t]}]> idx.
Proof.
  unfold index_add, titles_of. destruct (idx !! w) eqn:E; cbv zeta.
  - by rewrite E.
  - rewrite lookup_insert_eq. cbn. by rewrite insert_insert_eq.
Qed.

Lemma index_add_lookup (w t w' : str) (idx : gmap str (gset str)) :
  index_add w t idx !! w' =
  if decide (w = w') then Some (titles_of idx w ∪ {[t]}) else idx !! w'.
Proof.
  rewrite index_add_eq. case_decide as H.
  - subst. by rewrite lookup_insert_eq.
  - by rewrite lookup_insert_ne.
Qed.

Lemma index_add_titles (w t w' : str) (idx : gmap str (gset str)) :
  titles_of (index_add w t idx) w' =
  if decide (w = w') then titles_of idx w ∪ {[t]} else titles_of idx w'.
Proof. unfold titles_of at 1. rewrite index_add_lookup. by case_decide. Qed.

Lemma index_add_comm (w1 t1 w2 t2 : str) (idx : gmap str (gset str)) :
  index_add w1 t1 (index_add w2 t2 idx) = index_add w2 t2 (index_add w1 t1 idx).
Proof.
  apply map_eq. intros k. rewrite !index_add_lookup, !index_add_titles.
  repeat case_decide; simplify_eq; try done. f_equal. set_solver.
Qed.

Lemma fold_index_pairs (t : str) (l : list str) (idx : gmap str (gset str)) :
  fold_left (fun idx p => index_add p.1 p.2 idx) (map (fun w => (w, t)) l) idx =
  fold_left (fun idx w => index_add w t idx) l idx.
Proof. revert idx. induction l as [|w l IH]; intros idx; cbn; [done|]. by rewrite IH. Qed.

Lemma _index_gag_pairs (gag : Gag) (idx : gmap str (gset str)) :
  _index_gag gag idx =
  fold_left (fun idx p => index_add p.1 p.2 idx) (index_pairs gag) idx.
Proof.
  unfold _index_gag, index_pairs, index_tokens.
  rewrite map_app, fold_left_app, !fold_index_pairs.
  by destruct (truthy (cutaway_owner gag)), (truthy (description gag)).
Qed.

Lemma build_index_pairs (records : list Gag) (idx : gmap str (gset str)) :
  fold_left (fun idx gag => _index_gag gag idx) records idx =
  fold_left (fun idx p => index_add p.1 p.2 idx) (flat_map index_pairs records) idx.
Proof.
  revert idx. induction records as [|g gs IH]; intros idx; cbn; [done|].
  by rewrite fold_left_app, IH, _index_gag_pairs.
Qed.

(** Folding with additions that commute does not depend on the order. *)
Lemma fold_left_permutation {A B} (f : B -> A -> B) (l1 l2 : list A) (b : B) :
  (forall b x y, f (f b x) y = f (f b y) x) ->
  Permutation l1 l2 -> fold_left f l1 b = fold_left f l2 b.
Proof.
  intros Hf Hp. revert b. induction Hp as [|x l1 l2 _ IH|x y l|l1 l2 l3 _ IH1 _ IH2];
    intros b; cbn; try done.
  - by rewrite Hf.
  - by rewrite IH1.
Qed.

Lemma fold_index_add_titles (ps : list (str * str)) (idx : gmap str (gset str))
    (w t : str) :
  t ∈ titles_of (fold_left (fun idx p => index_add p.1 p.2 idx) ps idx) w
  <-> t ∈ titles_of idx w \/ (w, t) ∈ ps.
Proof.
  revert idx. induction ps as [|[w' t'] ps IH]; intros idx; cbn [fold_left].
  - set_solver.
  - rewrite IH, index_add_titles. cbn. case_decide; subst; set_solver.
Qed.

Lemma elem_of_flat_map {A B} (f : A -> list B) (l : list A) (y : B) :
  y ∈ flat_map f l <-> exists x, x ∈ l /\ y ∈ f x.
Proof.
  rewrite list_elem_of_In, in_flat_map. split; intros (x & Hx & Hy); exists x;
    by rewrite ?list_elem_of_In in *.
Qed.

Lemma build_index_titles (records : list Gag) (w t : str) :
  t ∈ titles_of (build_index records) w
  <-> exists g, g ∈ records /\ title g = t /\ w ∈ index_tokens g.
Proof.
  unfold build_index. rewrite build_index_pairs, fold_index_add_titles.
  unfold titles_of at 1. rewrite lookup_empty. cbn.
  rewrite elem_of_flat_map. unfold index_pairs. split.
  - intros [H|(g & Hg & Hp)]; [by apply not_elem_of_empty in H|].
    apply list_elem_of_fmap in Hp as (w' & [= -> ->] & Hw). by exists g.
  - intros (g & Hg & <- & Hw). right. exists g.
    split; [done|]. apply list_elem_of_fmap. eauto.
Qed.

(** What [load_all_gags] leaves in the index and in the store. *)
Lemma load_fold (gag_files : list File) (db : GagDatabase) :
  fold_left load_step gag_files db =
  mkDb (fold_left (fun d gag => dict_set (title gag) gag d) (parsed gag_files) (gags db))
       (fold_left (fun idx gag => _index_gag gag idx) (parsed gag_files) (index db)).
Proof.
  revert db. induction gag_files as [|f fs IH]; intros db; cbn.
  - by destruct db.
  - rewrite IH. unfold load_step, parsed. cbn [omap].
    by destruct (parse_gag_file f).
Qed.

Lemma load_index (gag_files : list File) :
  index (load_all_gags gag_files) = build_index (parsed gag_files).
Proof. unfold load_all_gags. by rewrite load_fold. Qed.

Lemma elem_of_parsed (gag_files : list File) (g : Gag) :
  g ∈ parsed gag_files <-> exists f, f ∈ gag_files /\ parse_gag_file f = Some g.
Proof. unfold parsed. apply list_elem_of_omap. Qed.

Lemma index_path_titles (db : GagDatabase) (query : str) (gag : Gag) :
  index_path db query gag <-> title gag ∈ titles_of (index db) (lower query).
Proof.
  unfold index_path, titles_of. destruct (index db !! lower query) as [s|]; cbn.
  - split; [by intros (? & [= <-] & ?)|eauto].
  - split; [by intros (? & ? & ?)|]. intros H. by apply not_elem_of_empty in H.
Qed.

(** The index path of [search] after a load: some parsed record of that
    title is indexed under the lower-cased query. *)
Lemma index_path_load (gag_files : list File) (query : str) (gag : Gag) :
  index_path (load_all_gags gag_files) query gag
  <-> exists g, g ∈ parsed gag_files /\ title g = title gag
                /\ lower query ∈ index_tokens g.
Proof. by rewrite index_path_titles, load_index, build_index_titles. Qed.

Lemma stop_words_lower (w : str) : w ∈ stop_words -> lower w = w.
Proof.
  assert (H : Forall (fun w => lower w = w) stop_words)
    by (vm_compute; repeat constructor).
  rewrite Forall_forall in H. apply H.
Qed.

(** ** Claims on the index *)

(** C7.  Indexing the same records in two orders gives the same mapping
    from tokens to sets of titles. *)
Theorem index_order_independent (records1 records2 : list Gag) :
  Permutation records1 records2 -> build_index records1 = build_index records2.
Proof.
  intros Hp. unfold build_index. rewrite !build_index_pairs.
  apply fold_left_permutation.
  - intros idx [w1 t1] [w2 t2]. apply index_add_comm.
  - by apply Permutation_flat_map.
Qed.

Lemma index_order_independent_witness :
  Permutation [gag_A; gag_B] [gag_B; gag_A]
  /\ build_index [gag_A; gag_B] = build_index [gag_B; gag_A].
Proof.
  assert (H : Permutation [gag_A; gag_B] [gag_B; gag_A]) by apply perm_swap.
  split; [exact H|]. exact (index_order_independent _ _ H).
Defined.

(** The index left by a load does not depend on the order of the files. *)
Lemma load_index_order_independent (files1 files2 : list File) :
  Permutation files1 files2 ->
  index (load_all_gags files1) = index (load_all_gags files2).
Proof.
  intros Hp. rewrite !load_index. unfold build_index. rewrite !build_index_pairs.
  apply fold_left_permutation.
  - intros idx [w1 t1] [w2 t2]. apply index_add_comm.
  - apply Permutation_flat_map. unfold parsed. by rewrite Hp.
Qed.

(** C8 (as stated, refuted).  The owner of a record is indexed whole,
    lower-cased: with the owner [The], the stop word [the] is a key of the
    index, and the query [the] matches the record through the index, in
    description scope, although the record has no description. *)
Lemma stop_word_matches_owner_token :
  lit "the" ∈ stop_words
  /\ parsed [file_the] = [gag_the]
  /\ index_path (load_all_gags [file_the]) (lit "the") gag_the
  /\ search (load_all_gags [file_the]) (lit "the") Description = Some [gag_the].
Proof.
  split; [vm_compute; repeat constructor|].
  split; [vm_compute; reflexivity|].
  split; [|vm_compute; reflexivity].
  apply index_path_load. exists gag_the.
  split; [vm_compute; repeat constructor|].
  split; [done|]. vm_compute. repeat constructor.
Qed.

(** C8 (amended).  A stop word is never a keyword of a description, so a
    query equal to a stop word matches a record through the index only when
    a loaded file of that record's title has an owner which, lower-cased, is
    the query itself. *)
Theorem stop_word_index_path (gag_files : list File) (query : str) :
  query ∈ stop_words ->
  (forall text, query ∉ _extract_keywords text)
  /\ forall gag, index_path (load_all_gags gag_files) query gag ->
       exists f g o, f ∈ gag_files /\ parse_gag_file f = Some g
                     /\ title g = title gag
                     /\ cutaway_owner g = Some o /\ lower o = query.
Proof.
  intros Hq.
  assert (Hkw : forall text, query ∉ _extract_keywords text).
  { intros text Hin.
    by destruct (keywords_kept text query Hin) as (_ & _ & Hs). }
  split; [exact Hkw|]. intros gag Hpath.
  apply index_path_load in Hpath as (g & Hg & Ht & Htok).
  rewrite (stop_words_lower _ Hq) in Htok.
  apply elem_of_parsed in Hg as (f & Hf & Hparse).
  unfold index_tokens in Htok. apply elem_of_app in Htok as [Ho|Hd].
  - destruct (cutaway_owner g) as [o|] eqn:Eo; [|cbn in Ho; by apply elem_of_nil in Ho].
    destruct (truthy (Some o)); [|by apply elem_of_nil in Ho].
    apply list_elem_of_singleton in Ho. exists f, g, o. by rewrite Ho.
  - destruct (truthy (description g)); [|by apply elem_of_nil in Hd].
    by apply Hkw in Hd.
Qed.

Lemma stop_word_index_path_witness :
  lit "the" ∈ stop_words
  /\ (lit "the" ∉ _extract_keywords (lit "the bank and the money"))
  /\ index_path (load_all_gags [file_the]) (lit "the") gag_the
  /\ exists f g o, f ∈ [file_the] /\ parse_gag_file f = Some g
                   /\ title g = title gag_the
                   /\ cutaway_owner g = Some o /\ lower o = lit "the".
Proof.
  assert (Hq : lit "the" ∈ stop_words) by (vm_compute; repeat constructor).
  assert (Hp : index_path (load_all_gags [file_the]) (lit "the") gag_the).
  { apply index_path_load. exists gag_the.
    split; [vm_compute; repeat constructor|].
    split; [reflexivity|]. vm_compute. repeat constructor. }
  destruct (stop_word_index_path [file_the] (lit "the") Hq) as [Hkw Hpath].
  split; [exact Hq|]. split; [apply Hkw|]. split; [exact Hp|].
  exact (Hpath gag_the Hp).
Defined.

(** ** The store *)

Section DictFacts.
Context {V : Type}.
Implicit Types (d : list (str * V)) (k : str) (v : V).

Lemma dict_set_keys k v d :
  dict_keys (dict_set k v d) =
  if decide (k ∈ dict_keys d) then dict_keys d else dict_keys d ++ [k].
Proof.
  induction d as [|[k' v'] d IH]; [done|].
  cbn [dict_set]. destruct (decide (k = k')) as [->|Hne].
  - cbn. by rewrite decide_True by apply list_elem_of_here.
  - change (dict_keys ((k', v') :: dict_set k v d))
      with (k' :: dict_keys (dict_set k v d)).
    change (dict_keys ((k', v') :: d)) with (k' :: dict_keys d).
    rewrite IH. destruct (decide (k ∈ dict_keys d)) as [Hin|Hin].
    + by rewrite decide_True by (by apply list_elem_of_further).
    + rewrite decide_False; [done|].
      intros Hc. apply elem_of_cons in Hc as [?|?]; done.
Qed.

Lemma dict_set_NoDup k v d : NoDup (dict_keys d) -> NoDup (dict_keys (dict_set k v d)).
Proof.
  intros H. rewrite dict_set_keys. case_decide as Hk; [done|].
  apply NoDup_app. split; [done|]. split; [|apply NoDup_singleton].
  intros x Hx Hx'. apply list_elem_of_singleton in Hx'. by subst.
Qed.

Lemma elem_of_dict_set k v d k' v' :
  (k', v') ∈ dict_set k v d -> (k' = k /\ v' = v) \/ (k', v') ∈ d.
Proof.
  induction d as [|[k0 v0] d IH]; cbn.
  - intros H. apply list_elem_of_singleton in H as [= -> ->]. by left.
  - case_decide as Hk; subst; intros H; apply elem_of_cons in H as [H|H].
    + injection H as -> ->. by left.
    + right. by apply list_elem_of_further.
    + injection H as -> ->. right. apply list_elem_of_here.
    + destruct (IH H) as [?|?]; [by left|right; by apply list_elem_of_further].
Qed.

Lemma dict_get_Some k v d : dict_get k d = Some v -> (k, v) ∈ d.
Proof.
  induction d as [|[k0 v0] d IH]; cbn; [done|].
  case_decide as Hk; subst.
  - intros [= ->]. apply list_elem_of_here.
  - intros H. apply list_elem_of_further. by apply IH.
Qed.

Lemma dict_get_elem k v d : NoDup (dict_keys d) -> (k, v) ∈ d -> dict_get k d = Some v.
Proof.
  induction d as [|[k0 v0] d IH]; cbn; intros Hnd H.
  - by apply elem_of_nil in H.
  - apply NoDup_cons in Hnd as [Hk0 Hnd].
    apply elem_of_cons in H as [[= -> ->]|H]; [by rewrite decide_True|].
    rewrite decide_False; [by apply IH|].
    intros ->. apply Hk0. apply list_elem_of_fmap. by exists (k0, v).
Qed.
End DictFacts.

Lemma store_wf_set (d : list (str * Gag)) (g : Gag) :
  store_wf d -> store_wf (dict_set (title g) g d).
Proof.
  intros [Hnd Ht]. split; [by apply dict_set_NoDup|].
  intros k g' H. apply elem_of_dict_set in H as [[-> ->]|H]; [done|by apply Ht].
Qed.

Lemma load_store_wf (gag_files : list File) : store_wf (gags (load_all_gags gag_files)).
Proof.
  unfold load_all_gags. rewrite load_fold. cbn [gags empty_db].
  assert (H : store_wf (@nil (str * Gag))).
  { split; [apply NoDup_nil_2|]. intros k g H. by apply elem_of_nil in H. }
  revert H. generalize (@nil (str * Gag)).
  induction (parsed gag_files) as [|g gs IH]; intros d Hd; cbn; [done|].
  apply IH. by apply store_wf_set.
Qed.

Lemma elem_of_dict_values {V} (d : list (str * V)) (v : V) :
  v ∈ dict_values d <-> exists k, (k, v) ∈ d.
Proof.
  unfold dict_values. rewrite list_elem_of_fmap. split.
  - intros ([k v'] & -> & H). by exists k.
  - intros (k & H). by exists (k, v).
Qed.

(** In a well-formed store a record is found again under its title. *)
Lemma store_wf_get (d : list (str * Gag)) (g : Gag) :
  store_wf d -> g ∈ dict_values d -> dict_get (title g) d = Some g.
Proof.
  intros [Hnd Ht] H. apply elem_of_dict_values in H as (k & H).
  rewrite (Ht _ _ H). by apply dict_get_elem.
Qed.

Lemma store_wf_get_title (d : list (str * Gag)) (t : str) (g : Gag) :
  store_wf d -> dict_get t d = Some g -> title g = t /\ g ∈ dict_values d.
Proof.
  intros [Hnd Ht] H. apply dict_get_Some in H. split; [by apply Ht|].
  apply elem_of_dict_values. eauto.
Qed.

Lemma store_wf_titles_NoDup (d : list (str * Gag)) :
  store_wf d -> NoDup (map title (dict_values d)).
Proof.
  intros [Hnd Ht]. unfold dict_values, dict_keys in *.
  rewrite map_map. erewrite map_ext_in; [exact Hnd|].
  intros [k g] H. cbn. apply Ht. by apply list_elem_of_In.
Qed.

(** ** search *)

Lemma truthy_contains (o : option str) (q : str) :
  truthy o && contains (lower (default [] o)) (lower q) = true
  <-> nonempty_contains_ci o q.
Proof.
  unfold nonempty_contains_ci, contains_ci. split.
  - intros H. apply andb_true_iff in H as [Ht Hc].
    destruct o as [[|c v]|]; try done. by exists (c :: v).
  - intros (v & -> & Hv & Hc). destruct v as [|c v]; [done|].
    change (default [] (Some (c :: v))) with (c :: v). by rewrite Hc.
Qed.

Lemma index_test (db : GagDatabase) (q : str) (gag : Gag) (m : bool) :
  match index db !! lower q with
  | Some titles => if bool_decide (title gag ∈ titles) then true else m
  | None => m
  end = true <-> index_path db q gag \/ m = true.
Proof.
  unfold index_path. destruct (index db !! lower q) as [titles|].
  - case_bool_decide as H.
    + split; [|done]. intros _. left. eauto.
    + split; [by right|]. by intros [(? & [= <-] & ?)|?].
  - split; [by right|]. by intros [(? & ? & _)|?].
Qed.

(** The value of [match] is the matching rule. *)
Lemma search_match_rule (db : GagDatabase) (query : str) (search_in : scope)
    (gag : Gag) :
  search_match db (lower query) search_in gag = true
  <-> scope_rule db query search_in gag.
Proof.
  pose proof (truthy_contains (cutaway_owner gag) query) as Ho.
  pose proof (truthy_contains (description gag) query) as Hd.
  unfold search_match, scope_rule. destruct search_in; cbn [in_character in_description];
    rewrite ?index_test;
    destruct (truthy (cutaway_owner gag) && _), (truthy (description gag) && _);
    intuition congruence.
Qed.

Lemma search_results_fold (db : GagDatabase) (ql : str) (search_in : scope)
    (l : list Gag) (acc : gset str) (t : str) :
  t ∈ fold_left
        (fun results gag =>
           if search_match db ql search_in gag
           then results ∪ {[title gag]} else results) l acc
  <-> t ∈ acc \/ exists g, g ∈ l /\ search_match db ql search_in g = true /\ title g = t.
Proof.
  revert acc. induction l as [|g l IH]; intros acc; cbn [fold_left].
  - split; [by left|]. intros [?|(g & H & _)]; [done|]. by apply elem_of_nil in H.
  - rewrite IH. split.
    + intros [H|(g' & Hg' & Hm & Ht)].
      * destruct (search_match db ql search_in g) eqn:E; [|by left].
        apply elem_of_union in H as [H|H]; [by left|].
        apply elem_of_singleton in H. right. exists g.
        split; [apply list_elem_of_here|done].
      * right. exists g'. split; [by apply list_elem_of_further|done].
    + intros [H|(g' & Hg' & Hm & Ht)].
      * left. destruct (search_match db ql search_in g); set_solver.
      * apply elem_of_cons in Hg' as [->|Hg'].
        -- left. rewrite Hm. set_solver.
        -- right. eauto.
Qed.

Lemma search_results_spec (db : GagDatabase) (ql : str) (search_in : scope) (t : str) :
  t ∈ search_results db ql search_in
  <-> exists g, g ∈ dict_values (gags db)
                /\ search_match db ql search_in g = true /\ title g = t.
Proof.
  unfold search_results. rewrite search_results_fold. split; [|eauto].
  intros [H|H]; [by apply not_elem_of_empty in H|done].
Qed.

Lemma mapM_get_elem (d : list (str * Gag)) (ts : list str) (res : list Gag) :
  mapM (fun t => dict_get t d) ts = Some res ->
  forall g, g ∈ res <-> exists t, t ∈ ts /\ dict_get t d = Some g.
Proof.
  rewrite mapM_Some. induction 1 as [|t g ts res Hg _ IH]; intros g0.
  - split; [intros H|intros (? & H & _)]; by apply elem_of_nil in H.
  - rewrite elem_of_cons, IH. split.
    + intros [->|(t' & Ht' & Hg')]; [exists t|exists t'];
        (split; [|done]); [apply list_elem_of_here|by apply list_elem_of_further].
    + intros (t' & Ht' & Hg'). apply elem_of_cons in Ht' as [->|Ht'].
      * left. congruence.
      * right. eauto.
Qed.

Lemma mapM_get_titles (d : list (str * Gag)) (ts : list str) (res : list Gag) :
  store_wf d -> mapM (fun t => dict_get t d) ts = Some res -> map title res = ts.
Proof.
  intros Hwf. rewrite mapM_Some. induction 1 as [|t g ts res Hg _ IH]; [done|].
  cbn. rewrite IH. by destruct (store_wf_get_title d t g Hwf Hg) as [-> _].
Qed.

Lemma StronglySorted_map {A B} (R : B -> B -> Prop) (f : A -> B) (l : list A) :
  StronglySorted R (map f l) -> StronglySorted (fun a b => R (f a) (f b)) l.
Proof.
  induction l as [|x l IH]; cbn; intros H; [constructor|].
  apply StronglySorted_inv in H as [Hs Hall]. constructor; [by apply IH|].
  rewrite Forall_forall in Hall. apply Forall_forall. intros y Hy. apply Hall.
  apply list_elem_of_fmap. eauto.
Qed.

(** [sorted(results)]: the titles, each once, in strictly ascending order. *)
Lemma sorted_elements (s : gset str) :
  StronglySorted (key_lt id) (py_sorted id (elements s))
  /\ forall t, t ∈ py_sorted id (elements s) <-> t ∈ s.
Proof.
  split.
  - apply sorted_strict; [|apply py_sorted_sorted].
    rewrite map_id, (py_sorted_perm id (elements s)). apply NoDup_elements.
  - intros t. by rewrite elem_of_py_sorted, elem_of_elements.
Qed.

(** [search] on a loaded database. *)
Lemma search_wf (db : GagDatabase) (query : str) (search_in : scope) :
  store_wf (gags db) ->
  exists res,
    search db query search_in = Some res
    /\ StronglySorted (key_lt title) res
    /\ forall g, g ∈ res
         <-> g ∈ dict_values (gags db) /\ scope_rule db query search_in g.
Proof.
  intros Hwf. unfold search.
  destruct (sorted_elements (search_results db (lower query) search_in)) as [Hs Hin].
  set (ts := py_sorted id _) in *.
  assert (Hsome : is_Some (mapM (fun t => dict_get t (gags db)) ts)).
  { apply mapM_is_Some, Forall_forall. intros t Ht.
    apply Hin, search_results_spec in Ht as (g & Hg & _ & <-).
    cbn. rewrite (store_wf_get _ _ Hwf Hg). eauto. }
  destruct Hsome as [res Hres]. exists res. split; [exact Hres|]. split.
  - apply (StronglySorted_map (fun a b => str_ltb a b = true) title).
    by rewrite (mapM_get_titles _ _ _ Hwf Hres).
  - intros g. rewrite (mapM_get_elem _ _ _ Hres). split.
    + intros (t & Ht & Hg).
      destruct (store_wf_get_title _ _ _ Hwf Hg) as [Htitle Hval].
      split; [done|]. apply Hin, search_results_spec in Ht as (g' & Hg' & Hm & Heq).
      assert (g' = g) as ->.
      { pose proof (store_wf_get _ _ Hwf Hg') as H1. rewrite Heq in H1. congruence. }
      by apply search_match_rule.
    + intros [Hg Hrule]. exists (title g). split; [|by apply store_wf_get].
      apply Hin, search_results_spec. exists g. by rewrite search_match_rule.
Qed.

Lemma lower_idem (s : str) : lower (lower s) = lower s.
Proof. unfold lower. rewrite map_map. apply map_ext. intros c. apply lower_lower. Qed.

Lemma elem_of_store_fold (gs : list Gag) (d : list (str * Gag)) (g : Gag) :
  g ∈ dict_values (fold_left (fun d gag => dict_set (title gag) gag d) gs d) ->
  g ∈ gs \/ g ∈ dict_values d.
Proof.
  revert d. induction gs as [|g0 gs IH]; intros d; cbn [fold_left]; [by right|].
  intros H. apply IH in H as [H|H]; [left; by apply list_elem_of_further|].
  apply elem_of_dict_values in H as (k & H).
  apply elem_of_dict_set in H as [[_ ->]|H]; [left; apply list_elem_of_here|].
  right. apply elem_of_dict_values. eauto.
Qed.

(** Every record of a loaded store was parsed from one of the files. *)
Lemma load_values_parsed (gag_files : list File) (g : Gag) :
  g ∈ dict_values (gags (load_all_gags gag_files)) -> g ∈ parsed gag_files.
Proof.
  unfold load_all_gags. rewrite load_fold. cbn [gags empty_db].
  intros H. apply elem_of_store_fold in H as [H|H]; [done|].
  by apply elem_of_nil in H.
Qed.

(** The owner of a stored record, as a query, finds the record in
    description scope, through the index. *)
Lemma owner_query_in_description_scope (gag_files : list File) (g : Gag) (o : str) :
  g ∈ dict_values (gags (load_all_gags gag_files)) ->
  cutaway_owner g = Some o -> o <> [] ->
  index_path (load_all_gags gag_files) o g
  /\ exists res, search (load_all_gags gag_files) o Description = Some res /\ g ∈ res.
Proof.
  intros Hg Ho Hne.
  assert (Hpath : index_path (load_all_gags gag_files) o g).
  { apply index_path_load. exists g. split; [by apply load_values_parsed|].
    split; [done|]. unfold index_tokens. rewrite Ho.
    destruct o as [|c o]; [done|]. cbn [truthy default].
    apply elem_of_app. left. apply list_elem_of_here. }
  split; [exact Hpath|].
  destruct (search_wf (load_all_gags gag_files) o Description (load_store_wf gag_files))
    as (res & Hres & _ & Hin).
  exists res. split; [exact Hres|]. apply Hin. split; [done|]. by right.
Qed.

(** ** Claims on search *)

(** C1 (as stated, refuted).  The scraper writes [Description: ] for an
    entry without description; the parsed description is then set, and
    empty.  The empty query is a substring of it, so the rule of the
    specification includes the record in description scope; [search]
    leaves it out. *)
Lemma empty_description_not_matched :
  parsed [file_blank] = [gag_blank]
  /\ gag_blank ∈ dict_values (gags (load_all_gags [file_blank]))
  /\ claimed_scope_rule (load_all_gags [file_blank]) [] Description gag_blank
  /\ search (load_all_gags [file_blank]) [] Description = Some [].
Proof.
  split; [vm_compute; reflexivity|].
  split; [vm_compute; repeat constructor|].
  split; [|vm_compute; reflexivity].
  left. exists []. split; [reflexivity|]. vm_compute. reflexivity.
Qed.

(** C1 (amended).  On a loaded database [search] returns, sorted strictly
    ascending by title (so each record once), exactly the stored records
    that satisfy the rule of the scope, where "set" reads "set and not
    empty": in character scope the owner is set, not empty, and contains the
    query case-insensitively; in description scope the description is set,
    not empty, and contains the query case-insensitively, or the lower-cased
    query is a key of the index whose set holds the record's title; in scope
    all, either. *)
Theorem search_scope_rule (gag_files : list File) (query : str) (search_in : scope) :
  exists res,
    search (load_all_gags gag_files) query search_in = Some res
    /\ StronglySorted (key_lt title) res
    /\ forall g, g ∈ res
         <-> g ∈ dict_values (gags (load_all_gags gag_files))
             /\ scope_rule (load_all_gags gag_files) query search_in g.
Proof. apply search_wf, load_store_wf. Qed.

(** C10.  In description scope [search] returns records whose description
    does not contain the query, and records with no description: the owner,
    lower-cased, is a key of the same index as the description keywords, so
    a query equal to it matches through the index. *)
Theorem owner_token_in_description_scope :
  (exists gag_files query gag d o,
     search (load_all_gags gag_files) query Description = Some [gag]
     /\ description gag = Some d /\ contains_ci d query = false
     /\ cutaway_owner gag = Some o /\ lower o = lower query
     /\ index_path (load_all_gags gag_files) query gag)
  /\ (exists gag_files query gag,
        search (load_all_gags gag_files) query Description = Some [gag]
        /\ description gag = None
        /\ index_path (load_all_gags gag_files) query gag).
Proof.
  split.
  - exists [file_reaper], (lit "death"), gag_reaper, (lit "Collects souls"), (lit "Death").
    repeat split; try (vm_compute; reflexivity).
    apply index_path_load. exists gag_reaper.
    split; [vm_compute; repeat constructor|].
    split; [reflexivity|]. vm_compute. repeat constructor.
  - exists [file_the], (lit "the"), gag_the.
    repeat split; try (vm_compute; reflexivity).
    apply index_path_load. exists gag_the.
    split; [vm_compute; repeat constructor|].
    split; [reflexivity|]. vm_compute. repeat constructor.
Qed.

(** ** find_non_main_character_gags *)

Lemma is_main_false (owner_lower : str) :
  is_main owner_lower = false
  <-> forall m, m ∈ main_characters -> contains owner_lower m = false.
Proof.
  unfold is_main. split.
  - intros H m Hm. destruct (contains owner_lower m) eqn:E; [|done].
    assert (Hex : existsb (fun main => contains owner_lower main) main_characters = true).
    { apply existsb_exists. exists m. by rewrite <- list_elem_of_In. }
    congruence.
  - intros H. destruct (existsb _ _) eqn:E; [|done].
    apply existsb_exists in E as (m & Hm & Hc).
    rewrite <- list_elem_of_In in Hm. by rewrite (H m Hm) in Hc.
Qed.

Lemma non_main_test (gag : Gag) :
  truthy (cutaway_owner gag) = true
  /\ is_main (lower (default [] (cutaway_owner gag))) = false
  <-> non_main_rule gag.
Proof.
  unfold non_main_rule. rewrite is_main_false. split.
  - intros [Ht Hm]. destruct (cutaway_owner gag) as [[|c o]|]; try done.
    by exists (c :: o).
  - intros (o & -> & Hne & Hm). destruct o; [done|]. done.
Qed.

(** ** Claims on find_non_main *)

(** C6 (as stated, refuted).  A file whose owner line is blank gives a
    record whose owner is set, and empty; it contains no main character's
    name, so the rule of the specification returns the record;
    [find_non_main_character_gags] does not. *)
Lemma blank_owner_not_returned :
  parsed [file_no_owner] = [gag_no_owner]
  /\ gag_no_owner ∈ dict_values (gags (load_all_gags [file_no_owner]))
  /\ claimed_non_main_rule gag_no_owner
  /\ find_non_main_character_gags (load_all_gags [file_no_owner]) = [].
Proof.
  split; [vm_compute; reflexivity|].
  split; [vm_compute; repeat constructor|].
  split; [|vm_compute; reflexivity].
  exists []. split; [reflexivity|]. apply is_main_false. vm_compute. reflexivity.
Qed.

(** C6 (amended).  [find_non_main_character_gags] returns, sorted ascending
    by title, exactly the stored records whose owner is set, not empty, and
    does not contain, lower-cased, any of the 9 main characters' names; a
    record without owner is never returned, and no returned record's owner
    contains [peter griffin]. *)
Theorem find_non_main_rule (db : GagDatabase) :
  length main_characters = 9
  /\ StronglySorted (key_le title) (find_non_main_character_gags db)
  /\ Permutation (find_non_main_character_gags db)
       (filter (fun gag =>
                  truthy (cutaway_owner gag) = true
                  /\ is_main (lower (default [] (cutaway_owner gag))) = false)
               (dict_values (gags db)))
  /\ (forall g, g ∈ find_non_main_character_gags db
        <-> g ∈ dict_values (gags db) /\ non_main_rule g)
  /\ (forall g, g ∈ find_non_main_character_gags db -> cutaway_owner g <> None)
  /\ (forall g o, g ∈ find_non_main_character_gags db -> cutaway_owner g = Some o ->
        contains (lower o) (lit "peter griffin") = false).
Proof.
  assert (Hin : forall g, g ∈ find_non_main_character_gags db
                  <-> g ∈ dict_values (gags db) /\ non_main_rule g).
  { intros g. unfold find_non_main_character_gags.
    rewrite elem_of_py_sorted, list_elem_of_filter, non_main_test. tauto. }
  split; [reflexivity|].
  split; [apply py_sorted_sorted|].
  split; [apply py_sorted_perm|].
  split; [exact Hin|]. split.
  - intros g Hg. apply Hin in Hg as [_ (o & -> & _)]. done.
  - intros g o Hg Ho. apply Hin in Hg as [_ (o' & Ho' & _ & Hm)].
    assert (o' = o) as -> by congruence. apply Hm.
    vm_compute. repeat constructor.
Qed.

Lemma find_non_main_rule_witness :
  gag_B ∈ find_non_main_character_gags db_AB
  /\ cutaway_owner gag_B <> None
  /\ contains (lower (lit "Death")) (lit "peter griffin") = false.
Proof.
  assert (H : gag_B ∈ find_non_main_character_gags db_AB)
    by (vm_compute; repeat constructor).
  destruct (find_non_main_rule db_AB) as (_ & _ & _ & _ & Hown & Hpeter).
  split; [exact H|]. split; [exact (Hown gag_B H)|].
  exact (Hpeter gag_B (lit "Death") H eq_refl).
Defined.

(** ** validate_data *)

Lemma elem_of_snoc_if (b : bool) (l : list str) (t t' : str) :
  t ∈ (if b then l ++ [t'] else l) <-> t ∈ l \/ (t' = t /\ b = true).
Proof.
  destruct b.
  - rewrite elem_of_app, list_elem_of_singleton. intuition congruence.
  - split; [by left|]. by intros [?|[_ ?]].
Qed.

Lemma is_none_true {A} (o : option A) : is_none o = true <-> o = None.
Proof. by destruct o. Qed.

Lemma fields_missing_length (gag : Gag) : length (fields_missing gag) = missing_count gag.
Proof.
  unfold missing_count, fields_missing.
  by destruct (season gag), (episode gag), (cutaway_owner gag), (description gag).
Qed.

Lemma validate_step_multiple (s : Stats) (g : Gag) (t : str) :
  t ∈ map fst (missing_multiple_fields (validate_step s g))
  <-> t ∈ map fst (missing_multiple_fields s) \/ (title g = t /\ 1 < missing_count g).
Proof.
  cbn [validate_step missing_multiple_fields]. rewrite fields_missing_length.
  case_bool_decide as Hc.
  - rewrite map_app, elem_of_app. cbn. rewrite list_elem_of_singleton.
    intuition congruence.
  - intuition lia.
Qed.

Lemma exists_cons (P : Gag -> Prop) (g : Gag) (l : list Gag) :
  (exists g', g' ∈ g :: l /\ P g') <-> P g \/ exists g', g' ∈ l /\ P g'.
Proof.
  split.
  - intros (g' & Hg' & HP). apply elem_of_cons in Hg' as [->|Hg']; eauto.
  - intros [HP|(g' & Hg' & HP)].
    + exists g. split; [apply list_elem_of_here|done].
    + exists g'. split; [by apply list_elem_of_further|done].
Qed.

(** What the loop of [validate_data] adds to the five lists. *)
Lemma validate_fold (l : list Gag) (s0 : Stats) (t : str) :
  let s := fold_left validate_step l s0 in
  (t ∈ missing_season s
     <-> t ∈ missing_season s0 \/ exists g, g ∈ l /\ title g = t /\ season g = None)
  /\ (t ∈ missing_episode s
     <-> t ∈ missing_episode s0 \/ exists g, g ∈ l /\ title g = t /\ episode g = None)
  /\ (t ∈ missing_owner s
     <-> t ∈ missing_owner s0
         \/ exists g, g ∈ l /\ title g = t /\ cutaway_owner g = None)
  /\ (t ∈ missing_description s
     <-> t ∈ missing_description s0
         \/ exists g, g ∈ l /\ title g = t /\ description g = None)
  /\ (t ∈ map fst (missing_multiple_fields s)
     <-> t ∈ map fst (missing_multiple_fields s0)
         \/ exists g, g ∈ l /\ title g = t /\ 1 < missing_count g).
Proof.
  revert s0. induction l as [|g l IH]; intros s0; cbn [fold_left].
  - repeat split; try (by left); intros [?|(g & H & _)]; try done;
      by apply elem_of_nil in H.
  - specialize (IH (validate_step s0 g)). cbv zeta in IH.
    destruct IH as (IH1 & IH2 & IH3 & IH4 & IH5).
    cbv zeta. rewrite IH1, IH2, IH3, IH4, IH5, !exists_cons, validate_step_multiple.
    cbn [validate_step missing_season missing_episode missing_owner
         missing_description].
    rewrite !elem_of_snoc_if, !is_none_true. tauto.
Qed.

Lemma same_title_same_record (l : list Gag) (g g' : Gag) :
  NoDup (map title l) -> g ∈ l -> g' ∈ l -> title g' = title g -> g' = g.
Proof.
  induction l as [|x l IH]; cbn; intros Hnd Hg Hg' Ht; [by apply elem_of_nil in Hg|].
  apply NoDup_cons in Hnd as [Hx Hnd].
  apply elem_of_cons in Hg as [->|Hg]; apply elem_of_cons in Hg' as [->|Hg']; try done.
  - destruct Hx. rewrite <- Ht. apply list_elem_of_fmap. eauto.
  - destruct Hx. rewrite Ht. apply list_elem_of_fmap. eauto.
  - by apply IH.
Qed.

Lemma listed_iff (t : str) (l : list str) (b : bool) :
  (t ∈ l <-> b = true) -> listed t l = b2n b.
Proof.
  unfold listed. intros H. case_bool_decide as Hc.
  - apply H in Hc. by subst.
  - destruct b; [|done]. by destruct Hc; apply H.
Qed.

(** ** Claims on validate_data *)

(** C5.  For a store whose records sit under pairwise different titles, a
    record's title is in each of the four lists exactly when the record
    lacks that field; so a record that lacks [k] of the four fields is in
    [k] of the four lists, and it is in the list of multiple missing fields
    exactly when [k > 1]. *)
Theorem validate_missing_lists (db : GagDatabase) (g : Gag) :
  store_wf (gags db) -> g ∈ dict_values (gags db) ->
  let s := validate_data db in
  (title g ∈ missing_season s <-> season g = None)
  /\ (title g ∈ missing_episode s <-> episode g = None)
  /\ (title g ∈ missing_owner s <-> cutaway_owner g = None)
  /\ (title g ∈ missing_description s <-> description g = None)
  /\ lists_with (title g) s = missing_count g
  /\ (title g ∈ map fst (missing_multiple_fields s) <-> 1 < missing_count g).
Proof.
  intros Hwf Hg s.
  pose proof (store_wf_titles_NoDup _ Hwf) as Hnd.
  destruct (validate_fold (dict_values (gags db))
              (mkStats (length (gags db)) [] [] [] [] [] None ∅ []) (title g))
    as (H1 & H2 & H3 & H4 & H5).
  fold (validate_data db) in H1, H2, H3, H4, H5. fold s in H1, H2, H3, H4, H5.
  cbn [missing_season missing_episode missing_owner missing_description
       missing_multiple_fields map] in H1, H2, H3, H4, H5.
  assert (Hone : forall P : Gag -> Prop,
            (title g ∈ @nil str \/ exists g', g' ∈ dict_values (gags db)
                                     /\ title g' = title g /\ P g') <-> P g).
  { intros P. split.
    - intros [H|(g' & Hg' & Ht & HP)]; [by apply elem_of_nil in H|].
      by rewrite <- (same_title_same_record _ _ _ Hnd Hg Hg' Ht).
    - intros HP. right. eauto. }
  rewrite Hone in H1, H2, H3, H4, H5.
  repeat split; try tauto.
  unfold lists_with, missing_count.
  rewrite (listed_iff _ _ (is_none (season g))) by (by rewrite is_none_true).
  rewrite (listed_iff _ _ (is_none (episode g))) by (by rewrite is_none_true).
  rewrite (listed_iff _ _ (is_none (cutaway_owner g))) by (by rewrite is_none_true).
  rewrite (listed_iff _ _ (is_none (description g))) by (by rewrite is_none_true).
  done.
Qed.

Lemma db_AB_wf : store_wf (gags db_AB).
Proof.
  split.
  - cbn. apply NoDup_cons. split; [|apply NoDup_singleton].
    rewrite list_elem_of_singleton. by vm_compute.
  - intros k g H. cbn in H. rewrite !elem_of_cons in H.
    destruct H as [[= -> ->]|[[= -> ->]|H]]; [done|done|by apply elem_of_nil in H].
Defined.

Lemma validate_missing_lists_witness :
  store_wf (gags db_AB) /\ gag_B ∈ dict_values (gags db_AB)
  /\ lists_with (title gag_B) (validate_data db_AB) = 2
  /\ title gag_B ∈ map fst (missing_multiple_fields (validate_data db_AB)).
Proof.
  assert (Hg : gag_B ∈ dict_values (gags db_AB)) by (vm_compute; repeat constructor).
  destruct (validate_missing_lists db_AB gag_B db_AB_wf Hg) as (_ & _ & _ & _ & Hk & Hm).
  split; [exact db_AB_wf|]. split; [exact Hg|]. split; [exact Hk|].
  apply Hm. vm_compute. lia.
Defined.

(** ** The corrections change nothing away from empty fields *)

(** For a query that is not empty the rule of [search] is the rule of the
    specification. *)
Lemma scope_rule_nonempty_query (db : GagDatabase) (query : str) (search_in : scope)
    (gag : Gag) :
  query <> [] ->
  (scope_rule db query search_in gag <-> claimed_scope_rule db query search_in gag).
Proof.
  intros Hq.
  assert (H : forall o, nonempty_contains_ci o query <-> set_contains_ci o query).
  { intros o. unfold nonempty_contains_ci, set_contains_ci. split.
    - intros (v & ? & _ & ?). eauto.
    - intros (v & -> & Hc). exists v. split; [done|]. split; [|done].
      intros ->. unfold contains_ci in Hc. destruct query; [done|]. by cbn in Hc. }
  unfold scope_rule, claimed_scope_rule. destruct search_in; rewrite ?H; tauto.
Qed.

(** For a record whose owner is not the empty string the rule of
    [find_non_main_character_gags] is the rule of the specification. *)
Lemma non_main_rule_nonempty_owner (gag : Gag) :
  cutaway_owner gag <> Some [] -> (non_main_rule gag <-> claimed_non_main_rule gag).
Proof.
  intros Hne. unfold non_main_rule, claimed_non_main_rule. split.
  - intros (o & ? & _ & ?). eauto.
  - intros (o & Ho & Hm). exists o. split; [done|]. split; [|done].
    intros ->. done.
Qed.

(** ** The scenario of the specification, run *)

Example parse_moon :
  parse_gag_file file_moon
  = Some (mkGag (lit "Peter Goes to the Moon") (Some 5%Z)
            (Some (lit "Meet the Quagmires")) (Some 3%Z) (Some (lit "Peter Griffin"))
            (Some (lit "Peter floats away holding balloons and lands on the moon."))
            (lit "moon.txt")).
Proof. vm_compute. reflexivity. Qed.

Example load_scenario : parsed [file_A; file_B] = [gag_A; gag_B].
Proof. vm_compute. reflexivity. Qed.

Example search_money :
  search (load_all_gags [file_A; file_B]) (lit "money") Description = Some [gag_A].
Proof. vm_compute. reflexivity. Qed.

Example search_stewie :
  search (load_all_gags [file_A; file_B]) (lit "stewie") Character = Some [gag_A].
Proof. vm_compute. reflexivity. Qed.

Example non_main_scenario :
  find_non_main_character_gags (load_all_gags [file_A; file_B]) = [gag_B].
Proof. vm_compute. reflexivity. Qed.

Example validate_scenario :
  let s := validate_data (load_all_gags [file_A; file_B]) in
  season_range s = Some (5%Z, 5%Z)
  /\ missing_owner s = [] /\ missing_season s = [lit "B"]
  /\ absurdist_gags s = [(lit "B", lit "Death", lit "Death collects souls")].
Proof. vm_compute. done. Qed.

Example tokens_of_sentence :
  _extract_keywords (lit "Stewie robs a bank for money5 and the Money, x_y who-is going")
  = map lit ["stewie"; "robs"; "bank"; "money"; "going"]%string.
Proof. vm_compute. reflexivity. Qed.

(** * Properties of the rest of the code *)

(** ** The store after a load *)

Lemma dict_get_set {V} (k k' : str) (v : V) (d : list (str * V)) :
  dict_get k' (dict_set k v d) = if decide (k' = k) then Some v else dict_get k' d.
Proof.
  induction d as [|[k0 v0] d IH]; cbn.
  - by repeat case_decide.
  - destruct (decide (k = k0)) as [->|Hk]; cbn; repeat case_decide; simplify_eq; done.
Qed.

Lemma last_cons_option {A} (x : A) (l : list A) :
  last (x :: l) = match last l with Some y => Some y | None => Some x end.
Proof.
  destruct l as [|y l]; [done|]. change (last (x :: y :: l)) with (last (y :: l)).
  destruct (last (y :: l)) eqn:E; [done|]. by apply last_None in E.
Qed.

Lemma store_fold_get (gs : list Gag) (d : list (str * Gag)) (t : str) :
  dict_get t (fold_left (fun d gag => dict_set (title gag) gag d) gs d) =
  match last (titled t gs) with
  | Some g => Some g
  | None => dict_get t d
  end.
Proof.
  revert d. induction gs as [|g gs IH]; intros d; cbn [fold_left]; [done|].
  rewrite IH, dict_get_set. unfold titled. cbn [filter list_filter].
  destruct (decide (title g = t)) as [Ht|Ht].
  - rewrite (decide_True (P := t = title g)) by done. rewrite last_cons_option.
    by destruct (last (filter _ gs)).
  - by rewrite (decide_False (P := t = title g)) by done.
Qed.

Lemma store_fold_keys (gs : list Gag) (d : list (str * Gag)) (t : str) :
  t ∈ dict_keys (fold_left (fun d gag => dict_set (title gag) gag d) gs d)
  <-> t ∈ dict_keys d \/ t ∈ map title gs.
Proof.
  revert d. induction gs as [|g gs IH]; intros d; cbn [fold_left map].
  - split; [by left|]. intros [?|H]; [done|]. by apply elem_of_nil in H.
  - rewrite IH, dict_set_keys, elem_of_cons. case_decide as Hk.
    + split; [tauto|]. intros [?|[->|?]]; tauto.
    + rewrite elem_of_app, list_elem_of_singleton. tauto.
Qed.

Lemma store_fold_length (gs : list Gag) (d : list (str * Gag)) :
  length (fold_left (fun d gag => dict_set (title gag) gag d) gs d)
  <= length d + length gs.
Proof.
  revert d. induction gs as [|g gs IH]; intros d; cbn [fold_left length]; [lia|].
  specialize (IH (dict_set (title g) g d)).
  assert (Hl : length (dict_set (title g) g d) <= S (length d)).
  { rewrite <- (length_map fst (dict_set _ _ _)), <- (length_map fst d).
    fold (dict_keys (dict_set (title g) g d)). fold (dict_keys d).
    rewrite dict_set_keys. case_decide; rewrite ?length_app; cbn; lia. }
  lia.
Qed.

Lemma parsed_length (gag_files : list File) : length (parsed gag_files) <= length gag_files.
Proof.
  unfold parsed. induction gag_files as [|f fs IH]; cbn; [done|].
  destruct (parse_gag_file f); cbn; lia.
Qed.

Lemma load_gags (gag_files : list File) :
  gags (load_all_gags gag_files)
  = fold_left (fun d gag => dict_set (title gag) gag d) (parsed gag_files) [].
Proof. unfold load_all_gags. by rewrite load_fold. Qed.

(** X1.  Last write wins: after a load, [self.gags[t]] is the record of the
    last file, in processing order, that parsed to the title [t]; the key is
    missing when no file did. *)
Theorem load_last_write_wins (gag_files : list File) (t : str) :
  dict_get t (gags (load_all_gags gag_files)) = last (titled t (parsed gag_files)).
Proof.
  rewrite load_gags, store_fold_get. cbn. by destruct (last _).
Qed.

(** X2.  The keys of the store are pairwise different, they are the titles
    that some file parsed to, and the store has no more entries than there
    are files. *)
Theorem load_store_keys (gag_files : list File) :
  NoDup (dict_keys (gags (load_all_gags gag_files)))
  /\ (forall t, t ∈ dict_keys (gags (load_all_gags gag_files))
        <-> exists f g, f ∈ gag_files /\ parse_gag_file f = Some g /\ title g = t)
  /\ length (gags (load_all_gags gag_files)) <= length gag_files.
Proof.
  split; [apply load_store_wf|]. split.
  - intros t. rewrite load_gags, store_fold_keys. cbn. split.
    + intros [H|H]; [by apply elem_of_nil in H|].
      apply list_elem_of_fmap in H as (g & -> & Hg).
      apply elem_of_parsed in Hg as (f & Hf & Hp). eauto.
    + intros (f & g & Hf & Hp & <-). right. apply list_elem_of_fmap.
      exists g. split; [done|]. apply elem_of_parsed. eauto.
  - rewrite load_gags. pose proof (store_fold_length (parsed gag_files) []) as H1.
    pose proof (parsed_length gag_files) as H2. cbn in H1. lia.
Qed.

(** Two stores with the same keys in the same order and the same lookups
    are the same store. *)
Lemma dict_ext {V} (d d' : list (str * V)) :
  NoDup (dict_keys d) -> dict_keys d = dict_keys d' ->
  (forall k, dict_get k d = dict_get k d') -> d = d'.
Proof.
  revert d'. induction d as [|[k v] d IH]; intros [|[k' v'] d'] Hnd Hk Hg; try done.
  cbn in Hk. injection Hk as <- Hk. apply NoDup_cons in Hnd as [Hin Hnd].
  pose proof (Hg k) as Hgk. cbn in Hgk. rewrite !decide_True in Hgk by done.
  injection Hgk as <-. f_equal. apply IH; [done|done|]. intros k0.
  destruct (decide (k0 = k)) as [->|Hne].
  - assert (Hnone : forall e : list (str * V), k ∉ dict_keys e -> dict_get k e = None).
    { intros e He. destruct (dict_get k e) eqn:E; [|done].
      apply dict_get_Some in E. destruct He. apply list_elem_of_fmap. by exists (k, v0). }
    rewrite !Hnone; [done| |done]. fold (dict_keys d') in Hk. by rewrite <- Hk.
  - specialize (Hg k0). cbn in Hg. by rewrite !decide_False in Hg by done.
Qed.

Lemma store_fold_same_keys (gs : list Gag) (d : list (str * Gag)) :
  (forall g, g ∈ gs -> title g ∈ dict_keys d) ->
  dict_keys (fold_left (fun d gag => dict_set (title gag) gag d) gs d) = dict_keys d.
Proof.
  revert d. induction gs as [|g gs IH]; intros d Hin; cbn [fold_left]; [done|].
  assert (Hk : dict_keys (dict_set (title g) g d) = dict_keys d).
  { rewrite dict_set_keys. rewrite decide_True; [done|]. apply Hin, list_elem_of_here. }
  rewrite IH, Hk; [done|]. intros g' Hg'. rewrite Hk. by apply Hin, list_elem_of_further.
Qed.

Lemma index_add_present (w t : str) (idx : gmap str (gset str)) :
  t ∈ titles_of idx w -> index_add w t idx = idx.
Proof.
  intros Ht. rewrite index_add_eq. unfold titles_of in *.
  destruct (idx !! w) as [s|] eqn:E; cbn in *; [|by apply not_elem_of_empty in Ht].
  apply insert_id. rewrite E. f_equal. set_solver.
Qed.

Lemma index_fold_present (ps : list (str * str)) (idx : gmap str (gset str)) :
  (forall w t, (w, t) ∈ ps -> t ∈ titles_of idx w) ->
  fold_left (fun idx p => index_add p.1 p.2 idx) ps idx = idx.
Proof.
  induction ps as [|[w t] ps IH]; intros Hin; cbn [fold_left]; [done|].
  cbn [fst snd]. rewrite index_add_present by apply Hin, list_elem_of_here.
  apply IH. intros w' t' H. by apply Hin, list_elem_of_further.
Qed.

(** ** Loading twice *)

(** X3.  Loading the same listing a second time into the loaded database
    changes neither the store nor the index. *)
Theorem load_twice (gag_files : list File) :
  load_all_gags_on (load_all_gags gag_files) gag_files = load_all_gags gag_files.
Proof.
  unfold load_all_gags_on. rewrite load_fold.
  destruct (load_all_gags gag_files) as [d idx] eqn:E. cbn [gags index].
  assert (Hd : d = gags (load_all_gags gag_files)) by (by rewrite E).
  assert (Hi : idx = index (load_all_gags gag_files)) by (by rewrite E).
  f_equal.
  - symmetry. apply dict_ext.
    + rewrite Hd. apply load_store_wf.
    + symmetry. apply store_fold_same_keys. intros g Hg.
      rewrite Hd, load_gags. apply store_fold_keys. right.
      apply list_elem_of_fmap. eauto.
    + intros k. rewrite store_fold_get.
      destruct (last (titled k (parsed gag_files))) as [g|] eqn:El; [|done].
      by rewrite Hd, load_gags, store_fold_get, El.
  - rewrite build_index_pairs. apply index_fold_present. intros w t Hin.
    rewrite Hi, load_index. unfold build_index. rewrite build_index_pairs.
    apply fold_index_add_titles. by right.
Qed.

(** ** A load without title collisions *)

Lemma dict_set_fresh {V} (k : str) (v : V) (d : list (str * V)) :
  k ∉ dict_keys d -> dict_set k v d = d ++ [(k, v)].
Proof.
  induction d as [|[k0 v0] d IH]; cbn; [done|]. intros Hk.
  apply not_elem_of_cons in Hk as [Hne Hk].
  rewrite decide_False by done. by rewrite IH.
Qed.

Lemma store_fold_fresh (gs : list Gag) (d : list (str * Gag)) :
  NoDup (dict_keys d ++ map title gs) ->
  fold_left (fun d gag => dict_set (title gag) gag d) gs d
  = d ++ map (fun g => (title g, g)) gs.
Proof.
  revert d. induction gs as [|g gs IH]; intros d Hnd; cbn [fold_left map].
  - by rewrite app_nil_r.
  - cbn [map] in Hnd. apply NoDup_app in Hnd as (Hd & Hdis & Hgs).
    apply NoDup_cons in Hgs as [Hg Hgs].
    assert (Hfresh : title g ∉ dict_keys d).
    { intros Hin. apply (Hdis _ Hin), list_elem_of_here. }
    rewrite dict_set_fresh by done. rewrite IH.
    + by rewrite <- app_assoc.
    + unfold dict_keys. rewrite map_app. cbn. rewrite <- app_assoc. cbn.
      apply NoDup_app. split; [done|]. split; [|by apply NoDup_cons].
      intros t Ht Ht'. by apply (Hdis t Ht).
Qed.

(** X4.  When the files parse to pairwise different titles nothing is
    overwritten: the store lists the parsed records in the order of the
    files, each under its title. *)
Theorem load_without_collisions (gag_files : list File) :
  NoDup (map title (parsed gag_files)) ->
  gags (load_all_gags gag_files) = map (fun g => (title g, g)) (parsed gag_files)
  /\ dict_values (gags (load_all_gags gag_files)) = parsed gag_files
  /\ length (gags (load_all_gags gag_files)) = length (parsed gag_files).
Proof.
  intros Hnd.
  assert (H : gags (load_all_gags gag_files)
              = map (fun g => (title g, g)) (parsed gag_files)).
  { rewrite load_gags. by rewrite store_fold_fresh. }
  rewrite H. split; [done|]. split.
  - unfold dict_values. rewrite map_map. cbn. apply map_id.
  - apply length_map.
Qed.

Lemma load_without_collisions_witness :
  NoDup (map title (parsed [file_A; file_B]))
  /\ dict_values (gags (load_all_gags [file_A; file_B])) = parsed [file_A; file_B].
Proof.
  assert (H : NoDup (map title (parsed [file_A; file_B]))).
  { vm_compute. apply NoDup_cons. split; [|apply NoDup_singleton].
    rewrite list_elem_of_singleton. discriminate. }
  split; [exact H|]. by destruct (load_without_collisions _ H) as (_ & Hv & _).
Defined.

(** ** Substrings *)

Lemma starts_with_iff (q t : str) :
  starts_with q t = true <-> exists post, t = q ++ post.
Proof.
  revert t. induction q as [|a q IH]; intros t; cbn.
  - split; [eauto|done].
  - destruct t as [|b t]; [split; [done|by intros (? & ?)]|].
    case_decide as Hab.
    + subst. rewrite IH. split; intros (post & H); exists post; cbn in *; congruence.
    + split; [done|]. intros (post & H). cbn in H. congruence.
Qed.

Lemma contains_iff (t q : str) :
  contains t q = true <-> exists pre post, t = pre ++ q ++ post.
Proof.
  induction t as [|x t IH]; cbn [contains]; rewrite orb_true_iff, starts_with_iff.
  - split.
    + intros [(post & H)|?]; [|done]. by exists [], post.
    + intros (pre & post & H). left. destruct pre; [by exists post|done].
  - rewrite IH. split.
    + intros [(post & H)|(pre & post & H)]; [by exists [], post|].
      exists (x :: pre), post. cbn. by rewrite H.
    + intros (pre & post & H). destruct pre as [|y pre]; [left; by exists post|].
      cbn in H. injection H as <- H. right. eauto.
Qed.

Lemma contains_trans (a b c : str) :
  contains a b = true -> contains b c = true -> contains a c = true.
Proof.
  rewrite !contains_iff. intros (p1 & s1 & ->) (p2 & s2 & ->).
  exists (p1 ++ p2), (s2 ++ s1). by rewrite <- !app_assoc.
Qed.

Lemma contains_refl (t : str) : contains t t = true.
Proof. apply contains_iff. exists [], []. by rewrite app_nil_r. Qed.


Lemma contains_app_l (a b q : str) : contains a q = true -> contains (a ++ b) q = true.
Proof.
  rewrite !contains_iff. intros (p & s & ->). exists p, (s ++ b). by rewrite <- !app_assoc.
Qed.

Lemma contains_app_r (a b q : str) : contains b q = true -> contains (a ++ b) q = true.
Proof.
  rewrite !contains_iff. intros (p & s & ->). exists (a ++ p), s. by rewrite <- !app_assoc.
Qed.

(** Every run is a piece of the text. *)
Lemma runs_infix (p : ascii -> bool) (acc l w : str) :
  w ∈ runs p acc l -> exists pre post, acc ++ l = pre ++ w ++ post.
Proof.
  revert acc. induction l as [|c l IH]; intros acc; cbn [runs].
  - destruct acc as [|a acc]; intros H; [by apply elem_of_nil in H|].
    apply list_elem_of_singleton in H as ->. exists [], []. by rewrite !app_nil_r.
  - destruct (p c).
    + intros H. apply IH in H as (pre & post & H). exists pre, post.
      by rewrite <- H, <- app_assoc.
    + assert (Hrest : w ∈ runs p [] l ->
                exists pre post, acc ++ c :: l = pre ++ w ++ post).
      { intros H. apply IH in H as (pre & post & H). cbn in H.
        exists (acc ++ c :: pre), post. rewrite H. by rewrite <- app_assoc. }
      destruct acc as [|a acc]; [done|]. intros H.
      apply elem_of_cons in H as [->|H]; [|by apply Hrest].
      exists [], (c :: l). done.
Qed.

(** ** Keywords *)

Lemma letter_words_infix (text w : str) :
  w ∈ letter_words text -> contains text w = true.
Proof.
  unfold letter_words. intros H. apply list_elem_of_filter in H as [_ H].
  apply runs_infix in H as (pre & post & H). apply contains_iff. eauto.
Qed.

(** X5.  Every keyword of a text occurs, as it is, in the lower-cased text:
    the tokenizer cuts pieces out and changes nothing in them. *)
Theorem keywords_occur_in_text (text w : str) :
  w ∈ _extract_keywords text -> contains (lower text) w = true.
Proof.
  rewrite extract_keywords_bounded. unfold bounded_keywords. intros H.
  apply list_elem_of_filter in H as [_ H]. by apply letter_words_infix.
Qed.

Lemma keywords_occur_in_text_witness :
  lit "money" ∈ _extract_keywords (lit "Stewie robs a bank for Money")
  /\ contains (lower (lit "Stewie robs a bank for Money")) (lit "money") = true.
Proof.
  assert (H : lit "money" ∈ _extract_keywords (lit "Stewie robs a bank for Money"))
    by (vm_compute; repeat constructor).
  split; [exact H|]. exact (keywords_occur_in_text _ _ H).
Defined.

(** ** More on search *)


Lemma index_tokens_cases (g : Gag) (w : str) :
  w ∈ index_tokens g
  <-> (exists o, cutaway_owner g = Some o /\ o <> [] /\ w = lower o)
      \/ (exists d, description g = Some d /\ d <> [] /\ w ∈ _extract_keywords d).
Proof.
  unfold index_tokens. rewrite elem_of_app. split.
  - intros [H|H].
    + left. destruct (cutaway_owner g) as [[|c o]|]; cbn in H;
        try (by apply elem_of_nil in H).
      apply list_elem_of_singleton in H. by exists (c :: o).
    + right. destruct (description g) as [[|c d]|]; cbn in H;
        try (by apply elem_of_nil in H).
      by exists (c :: d).
  - intros [(o & -> & Ho & ->)|(d & -> & Hd & Hw)].
    + left. destruct o; [done|]. cbn. apply list_elem_of_here.
    + right. destruct d; [done|]. done.
Qed.

(** X6.  When the files parse to pairwise different titles, [search] in
    description scope returns exactly the parsed records whose description
    is not empty and contains the query, case-insensitively, or whose owner
    is not empty and equals the query, case-insensitively: a description
    keyword found through the index is found by the substring test too. *)
Theorem description_scope_without_collisions (gag_files : list File) (query : str) :
  NoDup (map title (parsed gag_files)) ->
  exists res,
    search (load_all_gags gag_files) query Description = Some res
    /\ forall g, g ∈ res
         <-> g ∈ parsed gag_files
             /\ (nonempty_contains_ci (description g) query \/ owner_is g query).
Proof.
  intros Hnd.
  destruct (search_wf (load_all_gags gag_files) query Description
              (load_store_wf gag_files)) as (res & Hres & _ & Hin).
  exists res. split; [exact Hres|]. intros g. rewrite Hin. cbn [scope_rule].
  assert (Hv : dict_values (gags (load_all_gags gag_files)) = parsed gag_files).
  { rewrite load_gags, store_fold_fresh by done. cbn.
    unfold dict_values. rewrite map_map. apply map_id. }
  rewrite Hv, index_path_load. split.
  - intros [Hg [H|(g' & Hg' & Ht & Htok)]]; (split; [done|]); [by left|].
    rewrite (same_title_same_record _ _ _ Hnd Hg Hg' Ht) in Htok.
    apply index_tokens_cases in Htok
      as [(o & Ho & Hne & Hq)|(d & Hd & Hne & Hw)].
    + right. by exists o.
    + left. exists d. split; [done|]. split; [done|].
      unfold contains_ci. rewrite extract_keywords_bounded in Hw.
      unfold bounded_keywords in Hw. apply list_elem_of_filter in Hw as [_ Hw].
      by apply letter_words_infix.
  - intros [Hg [H|(o & Ho & Hne & Hq)]]; (split; [done|]); [by left|].
    right. exists g. split; [done|]. split; [done|].
    apply index_tokens_cases. left. by exists o.
Qed.

Lemma description_scope_without_collisions_witness :
  NoDup (map title (parsed [file_A; file_B]))
  /\ exists res,
       search (load_all_gags [file_A; file_B]) (lit "death") Description = Some res
       /\ forall g, g ∈ res
            <-> g ∈ parsed [file_A; file_B]
                /\ (nonempty_contains_ci (description g) (lit "death")
                    \/ owner_is g (lit "death")).
Proof.
  assert (H : NoDup (map title (parsed [file_A; file_B]))).
  { vm_compute. apply NoDup_cons. split; [|apply NoDup_singleton].
    rewrite list_elem_of_singleton. discriminate. }
  split; [exact H|]. exact (description_scope_without_collisions _ _ H).
Defined.

(** X7.  The index is never pruned.  A token of any parsed file, also of one
    whose record a later file of the same title has overwritten, finds in
    description scope the record that is stored under that title. *)
Theorem overwritten_tokens_still_match (gag_files : list File) (f : File)
    (g' : Gag) (query : str) :
  f ∈ gag_files -> parse_gag_file f = Some g' ->
  lower query ∈ index_tokens g' ->
  exists g res,
    dict_get (title g') (gags (load_all_gags gag_files)) = Some g
    /\ search (load_all_gags gag_files) query Description = Some res
    /\ g ∈ res.
Proof.
  intros Hf Hp Htok.
  assert (Hg' : g' ∈ parsed gag_files) by (apply elem_of_parsed; eauto).
  assert (Hkey : title g' ∈ dict_keys (gags (load_all_gags gag_files))).
  { rewrite load_gags. apply store_fold_keys. right. apply list_elem_of_fmap. eauto. }
  apply list_elem_of_fmap in Hkey as ([k g] & Hk & Hkg). cbn in Hk. subst k.
  pose proof (load_store_wf gag_files) as Hwf.
  assert (Hget : dict_get (title g') (gags (load_all_gags gag_files)) = Some g).
  { apply dict_get_elem; [apply Hwf|done]. }
  destruct (store_wf_get_title _ _ _ Hwf Hget) as [Ht Hval].
  destruct (search_wf (load_all_gags gag_files) query Description Hwf)
    as (res & Hres & _ & Hin).
  exists g, res. split; [done|]. split; [done|]. apply Hin. split; [done|].
  right. apply index_path_load. exists g'. done.
Qed.

Lemma overwritten_tokens_still_match_witness :
  file_first ∈ [file_first; file_second]
  /\ lower (lit "death") ∈ index_tokens
       (mkGag (lit "Twice") None None None (Some (lit "Death")) None (lit "one.txt"))
  /\ exists g res,
       dict_get (lit "Twice") (gags (load_all_gags [file_first; file_second])) = Some g
       /\ search (load_all_gags [file_first; file_second]) (lit "death") Description
          = Some res
       /\ g ∈ res.
Proof.
  assert (Hf : file_first ∈ [file_first; file_second]) by apply list_elem_of_here.
  assert (Hp : parse_gag_file file_first
               = Some (mkGag (lit "Twice") None None None (Some (lit "Death")) None
                         (lit "one.txt")))
    by (vm_compute; reflexivity).
  assert (Ht : lower (lit "death") ∈ index_tokens
            (mkGag (lit "Twice") None None None (Some (lit "Death")) None (lit "one.txt")))
    by (vm_compute; repeat constructor).
  split; [exact Hf|]. split; [exact Ht|].
  exact (overwritten_tokens_still_match _ _ _ _ Hf Hp Ht).
Defined.

Example overwritten_owner_finds_survivor :
  search (load_all_gags [file_first; file_second]) (lit "death") Description
  = Some [gag_second].
Proof. vm_compute. reflexivity. Qed.


(** ** search_by_keywords *)

(** Titles of stored records, sorted and looked up again. *)
Lemma resolve_titles (d : list (str * Gag)) (s : gset str) :
  store_wf d ->
  (forall t, t ∈ s -> exists g, g ∈ dict_values d /\ title g = t) ->
  exists res,
    mapM (fun t => dict_get t d) (py_sorted id (elements s)) = Some res
    /\ StronglySorted (key_lt title) res
    /\ forall g, g ∈ res <-> g ∈ dict_values d /\ title g ∈ s.
Proof.
  intros Hwf Hs. destruct (sorted_elements s) as [Hsorted Hin].
  set (ts := py_sorted id _) in *.
  assert (Hsome : is_Some (mapM (fun t => dict_get t d) ts)).
  { apply mapM_is_Some, Forall_forall. intros t Ht.
    apply Hin, Hs in Ht as (g & Hg & <-). cbn. rewrite (store_wf_get _ _ Hwf Hg). eauto. }
  destruct Hsome as [res Hres]. exists res. split; [exact Hres|]. split.
  - apply (StronglySorted_map (fun a b => str_ltb a b = true) title).
    by rewrite (mapM_get_titles _ _ _ Hwf Hres).
  - intros g. rewrite (mapM_get_elem _ _ _ Hres). split.
    + intros (t & Ht & Hg).
      destruct (store_wf_get_title _ _ _ Hwf Hg) as [<- Hval]. by rewrite <- Hin.
    + intros [Hg Ht]. exists (title g). rewrite Hin. split; [done|]. by apply store_wf_get.
Qed.

Lemma titles_fold (l : list Gag) (acc : gset str) (t : str) :
  t ∈ fold_left (fun acc gag => acc ∪ {[title gag]}) l acc
  <-> t ∈ acc \/ exists g, g ∈ l /\ title g = t.
Proof.
  revert acc. induction l as [|g l IH]; intros acc; cbn [fold_left].
  - split; [by left|]. intros [?|(g & H & _)]; [done|]. by apply elem_of_nil in H.
  - rewrite IH, elem_of_union, elem_of_singleton, exists_cons. split.
    + intros [[?|?]|?]; eauto.
    + intros [?|[?|?]]; eauto.
Qed.

Lemma all_results_spec (db : GagDatabase) (keywords : list str) (acc : gset str) :
  store_wf (gags db) ->
  exists s,
    all_results db keywords acc = Some s
    /\ forall t, t ∈ s
         <-> t ∈ acc
             \/ exists k g, k ∈ keywords /\ g ∈ dict_values (gags db)
                            /\ scope_rule db k All g /\ title g = t.
Proof.
  intros Hwf. revert acc. induction keywords as [|k ks IH]; intros acc; cbn [all_results].
  - exists acc. split; [done|]. intros t. split; [by left|].
    intros [?|(k & g & H & _)]; [done|]. by apply elem_of_nil in H.
  - destruct (search_wf db k All Hwf) as (res & -> & _ & Hin). cbn.
    destruct (IH (fold_left (fun acc gag => acc ∪ {[title gag]}) res acc))
      as (s & -> & Hs).
    exists s. split; [done|]. intros t. rewrite Hs, titles_fold. split.
    + intros [[?|(g & Hg & Ht)]|(k' & g & Hk' & Hg)]; [by left| |].
      * apply Hin in Hg as [Hg Hr]. right. exists k, g.
        split; [apply list_elem_of_here|done].
      * right. exists k', g. split; [by apply list_elem_of_further|done].
    + intros [?|(k' & g & Hk' & Hg & Hr & Ht)]; [by left; left|].
      apply elem_of_cons in Hk' as [->|Hk'].
      * left; right. exists g. split; [|done]. by apply Hin.
      * right. by exists k', g.
Qed.

(** X9.  [search_by_keywords] on a loaded database never fails on a missing
    key; it lists, strictly ascending by title, exactly the stored records
    that match at least one of the keywords in scope all. *)
Theorem search_by_keywords_union (gag_files : list File) (keywords : list str) :
  exists res,
    search_by_keywords (load_all_gags gag_files) keywords = Some res
    /\ StronglySorted (key_lt title) res
    /\ forall g, g ∈ res
         <-> g ∈ dict_values (gags (load_all_gags gag_files))
             /\ exists k, k ∈ keywords
                          /\ scope_rule (load_all_gags gag_files) k All g.
Proof.
  pose proof (load_store_wf gag_files) as Hwf. unfold search_by_keywords.
  destruct (all_results_spec (load_all_gags gag_files) keywords ∅ Hwf) as (s & -> & Hs).
  cbn.
  destruct (resolve_titles (gags (load_all_gags gag_files)) s Hwf) as (res & -> & Hsorted & Hin).
  { intros t Ht. apply Hs in Ht as [Ht|(k & g & _ & Hg & _ & Ht)];
      [by apply not_elem_of_empty in Ht|eauto]. }
  exists res. split; [done|]. split; [done|]. intros g. rewrite Hin, Hs. split.
  - intros [Hg [H|(k & g' & Hk & Hg' & Hr & Ht)]]; [by apply not_elem_of_empty in H|].
    split; [done|]. exists k. split; [done|].
    pose proof (store_wf_titles_NoDup _ Hwf) as Hnd.
    by rewrite <- (same_title_same_record _ _ _ Hnd Hg Hg' Ht).
  - intros [Hg (k & Hk & Hr)]. split; [done|]. right. by exists k, g.
Qed.

(** ** find_missing_by_keyword *)

Lemma drop_while_contains (p : ascii -> bool) (l : str) : contains l (drop_while p l) = true.
Proof.
  apply contains_iff. exists (take_while p l), []. by rewrite app_nil_r, take_drop_while.
Qed.

Lemma strip_contains (s : str) : contains s (strip s) = true.
Proof.
  unfold strip, lstrip, rstrip.
  eapply contains_trans; [apply (drop_while_contains Char.is_space)|].
  set (y := drop_while Char.is_space s). apply contains_iff.
  exists [], (rev (take_while Char.is_space (rev y))). cbn.
  rewrite <- rev_app_distr, take_drop_while. by rewrite rev_involutive.
Qed.

(** X10.  A hit in the database is a hit in the files, where lower-casing
    the text of each file keeps the lower-cased owner and description of its
    record in it: for every record that [search] returns there is a file
    that parses to the record's title and that [find_missing_by_keyword]
    lists for the same query.  So when no file contains the query, [search]
    returns nothing. *)
Theorem database_hit_is_file_hit (gag_files : list File) (query : str)
    (search_in : scope) (res : list Gag) :
  forallb lower_keeps_fields gag_files = true ->
  search (load_all_gags gag_files) query search_in = Some res ->
  (forall g, g ∈ res ->
     exists f g', f ∈ gag_files /\ parse_gag_file f = Some g'
                  /\ title g' = title g
                  /\ name f ∈ find_missing_by_keyword query gag_files)
  /\ (find_missing_by_keyword query gag_files = [] -> res = []).
Proof.
  intros Hkeep Hres. rewrite forallb_forall in Hkeep.
  assert (Hall : forall g, g ∈ res ->
     exists f g', f ∈ gag_files /\ parse_gag_file f = Some g'
                  /\ title g' = title g
                  /\ name f ∈ find_missing_by_keyword query gag_files).
  { intros g Hg.
    destruct (search_wf (load_all_gags gag_files) query search_in
                (load_store_wf gag_files)) as (res' & Hres' & _ & Hin).
    assert (res' = res) as -> by congruence.
    apply Hin in Hg as [Hg Hrule].
    assert (Hfield : forall g' o, g' ∈ parsed gag_files -> title g' = title g ->
              (cutaway_owner g' = Some o \/ description g' = Some o) ->
              contains (lower o) (lower query) = true ->
              exists f g', f ∈ gag_files /\ parse_gag_file f = Some g'
                  /\ title g' = title g
                  /\ name f ∈ find_missing_by_keyword query gag_files).
    { intros g' o Hg' Ht Ho Hq. apply elem_of_parsed in Hg' as (f & Hf & Hp).
      exists f, g'. repeat split; try done.
      unfold find_missing_by_keyword. apply list_elem_of_fmap. exists f.
      split; [done|]. apply list_elem_of_filter. split; [|done].
      assert (Hc : contains (lower (content f)) (lower o) = true).
      { pose proof (Hkeep f ltac:(by apply list_elem_of_In)) as Hk.
        unfold lower_keeps_fields in Hk. rewrite Hp in Hk. cbn [forallb] in Hk.
        apply andb_true_iff in Hk as [Hk1 Hk2]. apply andb_true_iff in Hk2 as [Hk2 _].
        destruct Ho as [Ho|Ho]; rewrite Ho in *; done. }
      by eapply contains_trans. }
    assert (Hidx : index_path (load_all_gags gag_files) query g ->
              exists f g', f ∈ gag_files /\ parse_gag_file f = Some g'
                  /\ title g' = title g
                  /\ name f ∈ find_missing_by_keyword query gag_files).
    { rewrite index_path_load. intros (g' & Hg' & Ht & Htok).
      apply index_tokens_cases in Htok as [(o & Ho & _ & Hq)|(d & Hd & _ & Hw)].
      - apply (Hfield g' o); eauto. rewrite Hq. apply contains_refl.
      - apply (Hfield g' d); eauto.
        rewrite extract_keywords_bounded in Hw. unfold bounded_keywords in Hw.
        apply list_elem_of_filter in Hw as [_ Hw]. by apply letter_words_infix. }
    pose proof (load_values_parsed _ _ Hg) as Hpg.
    assert (Hne : forall o, (cutaway_owner g = Some o \/ description g = Some o) ->
              contains_ci o query = true ->
              exists f g', f ∈ gag_files /\ parse_gag_file f = Some g'
                  /\ title g' = title g
                  /\ name f ∈ find_missing_by_keyword query gag_files).
    { intros o Ho Hq. by apply (Hfield g o). }
    unfold scope_rule, nonempty_contains_ci in Hrule.
    destruct search_in;
      [destruct Hrule as (v & ? & _ & ?)
      |destruct Hrule as [(v & ? & _ & ?)|?]
      |destruct Hrule as [(v & ? & _ & ?)|[(v & ? & _ & ?)|?]]]; eauto. }
  split; [exact Hall|]. intros Hnone.
  destruct res as [|g res]; [done|].
  destruct (Hall g) as (f & g' & _ & _ & _ & Hn); [apply list_elem_of_here|].
  rewrite Hnone in Hn. by apply elem_of_nil in Hn.
Qed.

Lemma database_hit_is_file_hit_witness :
  forallb lower_keeps_fields [file_A; file_B] = true
  /\ search (load_all_gags [file_A; file_B]) (lit "money") All = Some [gag_A]
  /\ exists f g', f ∈ [file_A; file_B] /\ parse_gag_file f = Some g'
                  /\ title g' = title gag_A
                  /\ name f ∈ find_missing_by_keyword (lit "money") [file_A; file_B].
Proof.
  assert (Hk : forallb lower_keeps_fields [file_A; file_B] = true)
    by (vm_compute; reflexivity).
  assert (H : search (load_all_gags [file_A; file_B]) (lit "money") All = Some [gag_A])
    by (vm_compute; reflexivity).
  split; [exact Hk|]. split; [exact H|].
  destruct (database_hit_is_file_hit _ _ _ _ Hk H) as [Hall _].
  apply Hall, list_elem_of_here.
Defined.

(** ** The rest of validate_data *)

Lemma validate_fold_lists (l : list Gag) (s0 : Stats) :
  let s := fold_left validate_step l s0 in
  total_gags s = total_gags s0
  /\ missing_season s
     = missing_season s0 ++ map title (filter (fun g => season g = None) l)
  /\ missing_episode s
     = missing_episode s0 ++ map title (filter (fun g => episode g = None) l)
  /\ missing_owner s
     = missing_owner s0 ++ map title (filter (fun g => cutaway_owner g = None) l)
  /\ missing_description s
     = missing_description s0 ++ map title (filter (fun g => description g = None) l)
  /\ map fst (missing_multiple_fields s)
     = map fst (missing_multiple_fields s0)
       ++ map title (filter (fun g => 1 < missing_count g) l)
  /\ absurdist_gags s
     = absurdist_gags s0
       ++ map absurdist_entry (filter (fun g => is_absurdist g = true) l).
Proof.
  revert s0. induction l as [|g l IH]; intros s0; cbn [fold_left].
  - cbn. by rewrite !app_nil_r.
  - specialize (IH (validate_step s0 g)). cbv zeta in IH.
    destruct IH as (IH0 & IH1 & IH2 & IH3 & IH4 & IH5 & IH6).
    cbv zeta. rewrite IH0, IH1, IH2, IH3, IH4, IH5, IH6. clear IH0 IH1 IH2 IH3 IH4 IH5 IH6.
    cbn [validate_step total_gags missing_season missing_episode missing_owner
         missing_description missing_multiple_fields absurdist_gags].
    rewrite fields_missing_length. fold (is_absurdist g).
    rewrite !filter_cons. unfold absurdist_entry at 2.
    repeat split.
    + destruct (season g); cbn; rewrite ?decide_True, ?decide_False by done;
        by rewrite <- ?app_assoc.
    + destruct (episode g); cbn; rewrite ?decide_True, ?decide_False by done;
        by rewrite <- ?app_assoc.
    + destruct (cutaway_owner g); cbn; rewrite ?decide_True, ?decide_False by done;
        by rewrite <- ?app_assoc.
    + destruct (description g); cbn; rewrite ?decide_True, ?decide_False by done;
        by rewrite <- ?app_assoc.
    + case_bool_decide; [rewrite decide_True by done|rewrite decide_False by done];
        rewrite ?map_app; cbn; by rewrite <- ?app_assoc.
    + destruct (is_absurdist g); cbn; rewrite ?decide_True, ?decide_False by done;
        by rewrite <- ?app_assoc.
Qed.

Lemma validate_lists (db : GagDatabase) :
  let s := validate_data db in
  let records := dict_values (gags db) in
  total_gags s = length (gags db)
  /\ missing_season s = map title (filter (fun g => season g = None) records)
  /\ missing_episode s = map title (filter (fun g => episode g = None) records)
  /\ missing_owner s = map title (filter (fun g => cutaway_owner g = None) records)
  /\ missing_description s = map title (filter (fun g => description g = None) records)
  /\ map fst (missing_multiple_fields s)
     = map title (filter (fun g => 1 < missing_count g) records)
  /\ absurdist_gags s
     = map absurdist_entry (filter (fun g => is_absurdist g = true) records).
Proof. apply (validate_fold_lists _ (mkStats (length (gags db)) [] [] [] [] [] None ∅ [])). Qed.

Lemma missing_count_split (l : list Gag) :
  length (filter (fun g => 1 < missing_count g) l)
  + length (filter (fun g => missing_count g <= 1) l) = length l.
Proof.
  induction l as [|x l IH]; [done|]. rewrite !filter_cons.
  destruct (decide (1 < missing_count x)).
  - rewrite decide_False by lia. cbn. lia.
  - rewrite decide_True by lia. cbn. lia.
Qed.

(** X11.  The four missing lists and the list of multiple missing fields
    hold the titles in store order, one entry for each record concerned, so
    their lengths are counts of records.  The number [generate_report]
    prints as "Complete records (all fields)" is the number of records that
    lack at most one of the four fields. *)
Theorem report_counts (db : GagDatabase) :
  let s := validate_data db in
  let records := dict_values (gags db) in
  missing_season s = map title (filter (fun g => season g = None) records)
  /\ missing_episode s = map title (filter (fun g => episode g = None) records)
  /\ missing_owner s = map title (filter (fun g => cutaway_owner g = None) records)
  /\ missing_description s = map title (filter (fun g => description g = None) records)
  /\ map fst (missing_multiple_fields s)
     = map title (filter (fun g => 1 < missing_count g) records)
  /\ records_with_missing_data db
     = length (filter (fun g => 1 < missing_count g) records)
  /\ complete_records db
     = Z.of_nat (length (filter (fun g => missing_count g <= 1) records)).
Proof.
  intros s records.
  destruct (validate_lists db) as (_ & H1 & H2 & H3 & H4 & H5 & _).
  fold s records in H1, H2, H3, H4, H5.
  assert (Hm : length (missing_multiple_fields s)
               = length (filter (fun g => 1 < missing_count g) records)).
  { rewrite <- (length_map fst), H5. apply length_map. }
  repeat split; try done.
  unfold complete_records. fold s. rewrite Hm.
  pose proof (missing_count_split records) as Hsplit.
  assert (Hl : length (gags db) = length records) by (symmetry; apply length_map).
  lia.
Qed.

(** X12.  The absurdist list of the report holds, in store order, the
    entries of the records that [find_non_main_character_gags] returns and
    whose description is not empty; so it is never longer than that list. *)
Theorem absurdist_report (db : GagDatabase) :
  absurdist_gags (validate_data db)
  = map absurdist_entry
      (filter (fun g => is_absurdist g = true) (dict_values (gags db)))
  /\ Permutation (absurdist_gags (validate_data db))
       (map absurdist_entry
          (filter (fun g => truthy (description g) = true)
             (find_non_main_character_gags db)))
  /\ length (absurdist_gags (validate_data db))
     <= length (find_non_main_character_gags db).
Proof.
  destruct (validate_lists db) as (_ & _ & _ & _ & _ & _ & Ha).
  assert (Hperm : Permutation
            (filter (fun g => is_absurdist g = true) (dict_values (gags db)))
            (filter (fun g => truthy (description g) = true)
               (find_non_main_character_gags db))).
  { unfold find_non_main_character_gags. rewrite py_sorted_perm.
    rewrite list_filter_filter. apply Permutation_refl'.
    apply list_filter_iff. intros g. unfold is_absurdist.
    rewrite !andb_true_iff, negb_true_iff. tauto. }
  split; [exact Ha|]. split.
  - rewrite Ha. by apply Permutation_map.
  - rewrite Ha, length_map, Hperm. apply length_filter.
Qed.

Lemma season_range_fold (l : list Gag) (s0 : Stats) :
  match season_range (fold_left validate_step l s0) with
  | None => season_range s0 = None /\ omap season l = []
  | Some (lo, hi) =>
      (forall x, x ∈ omap season l -> (lo <= x <= hi)%Z)
      /\ match season_range s0 with
         | None => lo ∈ omap season l /\ hi ∈ omap season l
         | Some (lo0, hi0) =>
             (lo <= lo0)%Z /\ (hi0 <= hi)%Z
             /\ (lo = lo0 \/ lo ∈ omap season l)
             /\ (hi = hi0 \/ hi ∈ omap season l)
         end
  end.
Proof.
  revert s0. induction l as [|g l IH]; intros s0; cbn [fold_left].
  - cbn [omap list_omap]. destruct (season_range s0) as [[lo hi]|]; [|done].
    split; [intros x Hx; by apply elem_of_nil in Hx|]. repeat split; (lia || by left).
  - specialize (IH (validate_step s0 g)).
    cbn [validate_step season_range] in IH. cbn [omap list_omap].
    destruct (season_range (fold_left validate_step l (validate_step s0 g)))
      as [[lo hi]|].
    + destruct (season g) as [x|].
      * destruct (season_range s0) as [[lo0 hi0]|]; destruct IH as (Hall & Hlo & Hhi & Hl & Hh).
        -- split.
           ++ intros y Hy. apply elem_of_cons in Hy as [->|Hy]; [lia|by apply Hall].
           ++ repeat split; try lia.
              ** destruct Hl as [->|Hl]; [|right; by apply list_elem_of_further].
                 destruct (Z.min_spec lo0 x) as [[_ ->]|[_ ->]];
                   [by left|right; apply list_elem_of_here].
              ** destruct Hh as [->|Hh]; [|right; by apply list_elem_of_further].
                 destruct (Z.max_spec hi0 x) as [[_ ->]|[_ ->]];
                   [right; apply list_elem_of_here|by left].
        -- split.
           ++ intros y Hy. apply elem_of_cons in Hy as [->|Hy]; [lia|by apply Hall].
           ++ split.
              ** destruct Hl as [->|Hl]; [apply list_elem_of_here|by apply list_elem_of_further].
              ** destruct Hh as [->|Hh]; [apply list_elem_of_here|by apply list_elem_of_further].
      * exact IH.
    + destruct (season g) as [x|]; [|exact IH].
      destruct (season_range s0) as [[lo0 hi0]|]; by destruct IH.
Qed.

(** X13.  The season range of the report is absent exactly when no stored
    record has a season; otherwise it is the least and the greatest season
    among the stored records. *)
Theorem season_range_min_max (db : GagDatabase) :
  match season_range (validate_data db) with
  | None => seasons_of db = []
  | Some (lo, hi) =>
      lo ∈ seasons_of db /\ hi ∈ seasons_of db
      /\ forall x, x ∈ seasons_of db -> (lo <= x <= hi)%Z
  end.
Proof.
  pose proof (season_range_fold (dict_values (gags db))
                (mkStats (length (gags db)) [] [] [] [] [] None ∅ [])) as H.
  fold (validate_data db) in H. unfold seasons_of.
  destruct (season_range (validate_data db)) as [[lo hi]|]; cbn in H.
  - destruct H as (Hall & Hlo & Hhi). done.
  - by destruct H.
Qed.

(** ** Owners *)

Lemma characters_fold (l : list Gag) (s0 : Stats) (o : str) :
  o ∈ characters (fold_left validate_step l s0)
  <-> o ∈ characters s0 \/ exists g, g ∈ l /\ cutaway_owner g = Some o.
Proof.
  revert s0. induction l as [|g l IH]; intros s0; cbn [fold_left].
  - split; [by left|]. intros [?|(g & H & _)]; [done|]. by apply elem_of_nil in H.
  - rewrite IH, exists_cons. cbn [validate_step characters].
    destruct (cutaway_owner g) as [o'|].
    + rewrite elem_of_union, elem_of_singleton. split.
      * intros [[?| ->]|?]; eauto.
      * intros [?|[[= ->]|?]]; eauto.
    + split; [intros [?|?]; eauto|intros [?|[?|?]]; eauto; done].
Qed.

Lemma elem_of_export_owners (db : GagDatabase) (o : str) :
  o ∈ export_owners db
  <-> o <> [] /\ exists g, g ∈ dict_values (gags db) /\ cutaway_owner g = Some o.
Proof.
  unfold export_owners. rewrite elem_of_list_to_set, list_elem_of_omap. split.
  - intros (g & Hg & Ho). destruct (cutaway_owner g) as [[|c v]|] eqn:E; try done.
    cbn in Ho. injection Ho as <-. split; [done|]. eauto.
  - intros (Hne & g & Hg & Ho). exists g. split; [done|]. rewrite Ho.
    by destruct o.
Qed.

(** X14.  The characters of the report are the owners of the stored records,
    the empty owner included, sorted strictly ascending; the owners that
    [export_json] counts as [unique_characters] are the same without the
    empty one, so the two counts differ by one exactly when some stored
    record has an empty owner. *)
Theorem characters_and_unique_characters (db : GagDatabase) :
  (forall o, o ∈ characters (validate_data db)
     <-> exists g, g ∈ dict_values (gags db) /\ cutaway_owner g = Some o)
  /\ StronglySorted (key_lt id) (characters_sorted (validate_data db))
  /\ (forall o, o ∈ characters_sorted (validate_data db)
        <-> o ∈ characters (validate_data db))
  /\ export_owners db = characters (validate_data db) ∖ {[ [] ]}
  /\ length (characters_sorted (validate_data db))
     = unique_characters db
       + (if decide ([] ∈ characters (validate_data db)) then 1 else 0).
Proof.
  assert (Hc : forall o, o ∈ characters (validate_data db)
     <-> exists g, g ∈ dict_values (gags db) /\ cutaway_owner g = Some o).
  { intros o. unfold validate_data. rewrite characters_fold. cbn. split; [|eauto].
    intros [H|H]; [by apply not_elem_of_empty in H|done]. }
  assert (He : export_owners db = characters (validate_data db) ∖ {[ [] ]}).
  { apply set_eq. intros o.
    rewrite elem_of_export_owners, elem_of_difference, elem_of_singleton, Hc. tauto. }
  destruct (sorted_elements (characters (validate_data db))) as [Hs Hin].
  split; [exact Hc|]. split; [exact Hs|]. split; [exact Hin|]. split; [exact He|].
  unfold characters_sorted, unique_characters. rewrite He.
  rewrite (Permutation_length (py_sorted_perm id _)).
  change (length (elements ?s)) with (size s).
  case_decide as Hnil.
  - rewrite size_difference by set_solver. rewrite size_singleton.
    assert (size (characters (validate_data db)) <> 0).
    { intros H0. apply size_empty_inv in H0. set_solver. }
    lia.
  - rewrite difference_disjoint_L by set_solver. lia.
Qed.

(** ** analyze_owners *)

Lemma dict_get_filter {V} (P : str * V -> Prop) `{!forall p, Decision (P p)}
    (d : list (str * V)) (k : str) :
  NoDup (dict_keys d) ->
  dict_get k (filter P d) =
  match dict_get k d with
  | Some v => if decide (P (k, v)) then Some v else None
  | None => None
  end.
Proof.
  induction d as [|[k0 v0] d IH]; intros Hnd; [done|].
  apply NoDup_cons in Hnd as [Hk0 Hnd]. rewrite filter_cons. cbn [dict_get].
  destruct (decide (k = k0)) as [->|Hne].
  - destruct (decide (P (k0, v0))) as [HP|HP]; cbn [dict_get].
    + by rewrite decide_True.
    + rewrite IH by done. destruct (dict_get k0 d) as [v|] eqn:E; [|done].
      apply dict_get_Some in E. destruct Hk0. apply list_elem_of_fmap. by exists (k0, v).
  - destruct (decide (P (k0, v0))); cbn [dict_get]; rewrite ?decide_False by done;
      by apply IH.
Qed.

Lemma owner_fold (l : list Gag) (c0 : list (str * nat)) (g0 : list (str * list str))
    (o : str) :
  let '(c, g) := fold_left owner_step l (c0, g0) in
  dict_get o c
  = match length (owned_by o l) with
    | 0 => dict_get o c0
    | n => Some (default 0 (dict_get o c0) + n)
    end
  /\ dict_get o g
     = match owned_by o l with
       | [] => dict_get o g0
       | ow => Some (default [] (dict_get o g0) ++ map title ow)
       end
  /\ (NoDup (dict_keys c0) -> NoDup (dict_keys c))
  /\ (NoDup (dict_keys g0) -> NoDup (dict_keys g)).
Proof.
  revert c0 g0. induction l as [|x l IH]; intros c0 g0; cbn [fold_left].
  - done.
  - unfold owned_by. rewrite filter_cons. fold (owned_by o l).
    cbn [owner_step].
    destruct (cutaway_owner x) as [[|a ox']|] eqn:Eo; cbn [truthy from_option id].
    + rewrite decide_False by (intros [? _]; done).
      specialize (IH c0 g0). by destruct (fold_left owner_step l (c0, g0)).
    + set (ox := a :: ox') in *.
      specialize (IH (dict_set ox (default 0 (dict_get ox c0) + 1) c0)
                     (dict_set ox (default [] (dict_get ox g0) ++ [title x]) g0)).
      destruct (fold_left owner_step l _) as [c g].
      destruct IH as (Hc & Hg & Hnc & Hng). rewrite Hc, Hg, !dict_get_set.
      split; [|split; [|split; intros ?; [apply Hnc|apply Hng]; by apply dict_set_NoDup]].
      * destruct (decide (o = ox)) as [->|Hne].
        -- rewrite decide_True by done. cbn [length from_option id].
           destruct (length (owned_by ox l)); f_equal; lia.
        -- rewrite decide_False by (intros [_ [= ?]]; done). by destruct (length _).
      * destruct (decide (o = ox)) as [->|Hne].
        -- rewrite decide_True by done. cbn [from_option id map].
           destruct (owned_by ox l); cbn; by rewrite <- ?app_assoc.
        -- rewrite decide_False by (intros [_ [= ?]]; done). done.
    + rewrite decide_False by (intros [? _]; done).
      specialize (IH c0 g0). by destruct (fold_left owner_step l (c0, g0)).
Qed.

(** X15.  [analyze_owners].  The count of an owner is the number of stored
    records with that owner, and an owner has a count exactly when it is not
    empty and owns a record; [single_appearance] holds an owner exactly when
    its count is 1, with the title of its one record.  So the report's
    [single_appearance[owner][0]], taken for every owner of count 1, always
    exists. *)
Theorem analyze_owners_counts (db : GagDatabase) (o : str) :
  let '(owner_count, single_appearance) := analyze_owners db in
  let mine := owned_by o (dict_values (gags db)) in
  dict_get o owner_count = (if decide (mine = []) then None else Some (length mine))
  /\ dict_get o single_appearance
     = (if decide (length mine = 1) then Some (map title mine) else None)
  /\ (dict_get o owner_count = Some 1
      <-> exists t, dict_get o single_appearance = Some [t]).
Proof.
  unfold analyze_owners.
  pose proof (owner_fold (dict_values (gags db)) [] [] o) as H.
  destruct (fold_left owner_step (dict_values (gags db)) ([], [])) as [c g].
  destruct H as (Hc & Hg & _ & Hng). cbn [dict_get default app] in Hc, Hg.
  set (mine := owned_by o (dict_values (gags db))) in *.
  assert (Hcount : dict_get o c = (if decide (mine = []) then None else Some (length mine))).
  { rewrite Hc. destruct mine; cbn; [done|]. done. }
  assert (Hsingle : dict_get o (filter (fun p => length p.2 = 1) g)
                    = (if decide (length mine = 1) then Some (map title mine) else None)).
  { rewrite dict_get_filter by (apply Hng, NoDup_nil_2). rewrite Hg.
    destruct mine as [|m mine']; [done|]. cbn [snd].
    rewrite length_map. by repeat case_decide. }
  split; [exact Hcount|]. split; [exact Hsingle|].
  rewrite Hcount, Hsingle. destruct mine as [|m [|m' mine']]; cbn.
  - split; [done|by intros (? & ?)].
  - split; [eauto|done].
  - split; [done|by intros (? & ?)].
Qed.

(** ** find_duplicate_writers *)

Lemma file_to_title_fold (l : list File) (d0 : list (str * list str)) (t : str) :
  let d :=
    fold_left
      (fun d f => dict_set (file_title f)
                    (default [] (dict_get (file_title f) d) ++ [name f]) d) l d0 in
  dict_get t d
  = match files_titled t l with
    | [] => dict_get t d0
    | fs => Some (default [] (dict_get t d0) ++ map name fs)
    end
  /\ (NoDup (dict_keys d0) -> NoDup (dict_keys d)).
Proof.
  revert d0. induction l as [|f l IH]; intros d0; cbn [fold_left]; [done|].
  cbv zeta in IH |- *.
  specialize (IH (dict_set (file_title f)
                    (default [] (dict_get (file_title f) d0) ++ [name f]) d0)).
  destruct IH as [Hget Hnd]. rewrite Hget, dict_get_set.
  unfold files_titled. rewrite filter_cons. fold (files_titled t l).
  split; [|intros ?; by apply Hnd, dict_set_NoDup].
  destruct (decide (file_title f = t)) as [<-|Hne].
  - rewrite decide_True by done. cbn [from_option id map].
    destruct (files_titled (file_title f) l); cbn; by rewrite <- ?app_assoc.
  - by rewrite decide_False by done.
Qed.

Lemma parse_title_file_title (f : File) (g : Gag) :
  parse_gag_file f = Some g -> title g = file_title f.
Proof.
  rewrite parse_gag_file_spec. destruct (_ && _); [|done]. intros [= <-].
  unfold parsed_record, file_title. cbn [title].
  rewrite <- text_match_scan. by destruct (text_match title_label (content f)).
Qed.

Lemma NoDup_map_filter {A} (f : A -> str) (l : list A) :
  NoDup (map f l) <-> forall t, length (filter (fun x => f x = t) l) <= 1.
Proof.
  induction l as [|x l IH]; cbn [map].
  - split; [intros _ t; cbn; lia|]. intros _. apply NoDup_nil_2.
  - rewrite NoDup_cons, IH. split.
    + intros [Hx Hl] t. rewrite filter_cons. destruct (decide (f x = t)) as [<-|Hne]; [|done].
      cbn. assert (Hnil : filter (fun y => f y = f x) l = []); [|by rewrite Hnil].
      destruct (filter (fun y => f y = f x) l) as [|y r] eqn:E; [done|].
      assert (Hy : y ∈ filter (fun y => f y = f x) l) by (rewrite E; apply list_elem_of_here).
      apply list_elem_of_filter in Hy as [Hfy Hy]. destruct Hx.
      rewrite <- Hfy. apply list_elem_of_fmap. eauto.
    + intros H. split.
      * intros Hx. apply list_elem_of_fmap in Hx as (y & Hfy & Hy).
        specialize (H (f x)). rewrite filter_cons, decide_True in H by done. cbn in H.
        assert (Hin : y ∈ filter (fun z => f z = f x) l) by (by apply list_elem_of_filter).
        destruct (filter _ l); [by apply elem_of_nil in Hin|cbn in H; lia].
      * intros t. specialize (H t). rewrite filter_cons in H.
        destruct (decide (f x = t)); cbn in H; lia.
Qed.

Lemma NoDup_same_length (k l : list str) :
  NoDup k -> (forall x, x ∈ k <-> x ∈ l) -> length k = length l -> NoDup l.
Proof.
  intros Hk Hkl Hlen.
  assert (Hsub : k ⊆+ l) by (apply NoDup_submseteq; [done|intros x; apply Hkl]).
  apply submseteq_length_Permutation in Hsub; [|lia]. by rewrite <- Hsub.
Qed.

Lemma parsed_all (gag_files : list File) :
  (forall f, f ∈ gag_files -> is_Some (parse_gag_file f)) ->
  map title (parsed gag_files) = map file_title gag_files
  /\ length (parsed gag_files) = length gag_files.
Proof.
  unfold parsed. induction gag_files as [|f fs IH]; intros Hall; [done|].
  destruct (Hall f) as [g Hg]; [apply list_elem_of_here|].
  cbn [omap list_omap]. rewrite Hg. cbn.
  destruct IH as [IH1 IH2]; [intros f' Hf'; by apply Hall, list_elem_of_further|].
  split; cbn; f_equal; [by apply parse_title_file_title|exact IH1|exact IH2].
Qed.

(** X16.  [find_duplicate_writers] reads from a file the title the parser
    gives to its record.  It reports a title exactly when two files or more
    carry it, with the names of these files in the order of the listing.
    When every file parses, it reports nothing exactly when the load stores
    as many records as there are files. *)
Theorem duplicate_titles (gag_files : list File) :
  (forall f g, parse_gag_file f = Some g -> title g = file_title f)
  /\ (forall t,
        dict_get t (find_duplicate_writers gag_files)
        = if decide (1 < length (files_titled t gag_files))
          then Some (map name (files_titled t gag_files)) else None)
  /\ ((forall f, f ∈ gag_files -> is_Some (parse_gag_file f)) ->
      (find_duplicate_writers gag_files = []
       <-> length (gags (load_all_gags gag_files)) = length gag_files)).
Proof.
  split; [apply parse_title_file_title|].
  assert (Hget : forall t,
        dict_get t (find_duplicate_writers gag_files)
        = if decide (1 < length (files_titled t gag_files))
          then Some (map name (files_titled t gag_files)) else None).
  { intros t. unfold find_duplicate_writers, file_to_title.
    destruct (file_to_title_fold gag_files [] t) as [Hg Hnd]. cbv zeta in Hg, Hnd.
    rewrite dict_get_filter by (apply Hnd, NoDup_nil_2). rewrite Hg. cbn [dict_get].
    destruct (files_titled t gag_files) as [|f fs]; cbn [length].
    - rewrite decide_False by lia. done.
    - cbn [snd from_option id app]. rewrite length_map. cbn [length].
      by repeat case_decide. }
  split; [exact Hget|]. intros Hall.
  destruct (parsed_all gag_files Hall) as [Htitles Hlen].
  assert (Hnone : find_duplicate_writers gag_files = []
                  <-> NoDup (map file_title gag_files)).
  { rewrite NoDup_map_filter. split.
    - intros Hempty t. specialize (Hget t). rewrite Hempty in Hget. cbn in Hget.
      fold (files_titled t gag_files). case_decide; [done|lia].
    - intros Hle. destruct (find_duplicate_writers gag_files) as [|[t fs] d] eqn:E; [done|].
      specialize (Hget t). rewrite ?E in Hget. cbn in Hget.
      rewrite decide_True in Hget by done. specialize (Hle t).
      fold (files_titled t gag_files) in Hle. case_decide; [lia|done]. }
  rewrite Hnone, <- Htitles, <- Hlen. split.
  - intros Hnd. rewrite load_gags, store_fold_fresh by done. cbn. apply length_map.
  - intros Hl. apply (NoDup_same_length (dict_keys (gags (load_all_gags gag_files)))).
    + apply load_store_wf.
    + intros t. rewrite load_gags, store_fold_keys. cbn. split; [|by right].
      intros [H|H]; [by apply elem_of_nil in H|done].
    + unfold dict_keys. by rewrite !length_map.
Qed.

Lemma duplicate_titles_witness :
  (forall f, f ∈ [file_A; file_B] -> is_Some (parse_gag_file f))
  /\ (find_duplicate_writers [file_A; file_B] = []
      <-> length (gags (load_all_gags [file_A; file_B])) = length [file_A; file_B]).
Proof.
  assert (H : forall f, f ∈ [file_A; file_B] -> is_Some (parse_gag_file f)).
  { intros f Hf. apply elem_of_cons in Hf as [->|Hf]; [by vm_compute; eauto|].
    apply list_elem_of_singleton in Hf as ->. by vm_compute; eauto. }
  split; [exact H|]. by destruct (duplicate_titles [file_A; file_B]) as (_ & _ & Hd); apply Hd.
Defined.

Example duplicates_found :
  find_duplicate_writers [file_first; file_A; file_second]
  = [(lit "Twice", [lit "one.txt"; lit "two.txt"])].
Proof. vm_compute. reflexivity. Qed.

(** ** find_missing_episodes *)

Lemma episode_fold (l : list Gag) (e0 : gmap Z (gset str)) (c0 : gmap Z nat) (s : Z) :
  let '(e, c) := fold_left episode_step l (e0, c0) in
  c !! s = match length (in_season s l) with
           | 0 => c0 !! s
           | n => Some (default 0 (c0 !! s) + n)
           end
  /\ e !! s = match in_season s l with
              | [] => e0 !! s
              | gs => Some (default ∅ (e0 !! s)
                            ∪ list_to_set (map (fun g => default [] (episode g)) gs))
              end.
Proof.
  revert e0 c0. induction l as [|x l IH]; intros e0 c0; cbn [fold_left]; [done|].
  unfold in_season. rewrite filter_cons. fold (in_season s l). cbn [episode_step].
  destruct (season x) as [sx|] eqn:Es.
  - destruct (bool_decide (sx <> 0%Z) && truthy (episode x)) eqn:Eb.
    + apply andb_true_iff in Eb as [Hsx Hep]. apply bool_decide_eq_true in Hsx.
      specialize (IH (<[sx := default ∅ (e0 !! sx) ∪ {[default [] (episode x)]}]> e0)
                     (<[sx := default 0 (c0 !! sx) + 1]> c0)).
      destruct (fold_left episode_step l _) as [e c]. destruct IH as [Hc He].
      rewrite Hc, He. destruct (decide (sx = s)) as [->|Hne].
      * rewrite decide_True by done. rewrite !lookup_insert_eq. cbn [length from_option id].
        split.
        -- destruct (length (in_season s l)); f_equal; lia.
        -- destruct (in_season s l); cbn [map list_to_set]; f_equal; set_solver.
      * rewrite decide_False by (intros [[= ?] _]; done).
        by rewrite !lookup_insert_ne by done.
    + rewrite decide_False.
      * specialize (IH e0 c0). by destruct (fold_left episode_step l (e0, c0)).
      * intros ([= <-] & Hs & Ht). apply andb_false_iff in Eb as [Eb|Eb]; [|congruence].
        by apply bool_decide_eq_false in Eb.
  - rewrite decide_False by (intros [? _]; done).
    specialize (IH e0 c0). by destruct (fold_left episode_step l (e0, c0)).
Qed.

(** X17.  [find_missing_episodes].  A season is a key of the two dicts
    exactly when some stored record has it, not 0, with an episode that is
    not empty; its count is the number of these records and its set holds
    their episodes, at least one and at most as many as the count. *)
Theorem season_episode_counts (db : GagDatabase) (s : Z) :
  let '(season_episodes, season_gag_count) := find_missing_episodes db in
  let mine := in_season s (dict_values (gags db)) in
  season_gag_count !! s = (if decide (mine = []) then None else Some (length mine))
  /\ (is_Some (season_episodes !! s) <-> is_Some (season_gag_count !! s))
  /\ (is_Some (season_gag_count !! s) -> s <> 0%Z)
  /\ forall eps, season_episodes !! s = Some eps ->
       (forall e, e ∈ eps <-> exists g, g ∈ mine /\ episode g = Some e)
       /\ 1 <= size eps <= length mine.
Proof.
  unfold find_missing_episodes.
  pose proof (episode_fold (dict_values (gags db)) ∅ ∅ s) as H.
  destruct (fold_left episode_step (dict_values (gags db)) (∅, ∅)) as [e c].
  destruct H as [Hc He]. rewrite !lookup_empty in Hc. rewrite !lookup_empty in He.
  cbn [from_option id] in Hc, He.
  set (mine := in_season s (dict_values (gags db))) in *.
  assert (Hmine : forall g, g ∈ mine ->
            s <> 0%Z /\ exists ep, episode g = Some ep /\ default [] (episode g) = ep).
  { intros g Hg. apply list_elem_of_filter in Hg as [(_ & Hs & Ht) _]. split; [done|].
    destruct (episode g) as [ep|]; [eauto|done]. }
  rewrite Hc, He. split; [|split; [|split]].
  - by destruct mine.
  - destruct mine; cbn; [|split; eauto]. split; intros [? ?]; done.
  - destruct mine as [|g mine'] eqn:E; cbn; [by intros [? ?]|]. intros _.
    apply (Hmine g). apply list_elem_of_here.
  - intros eps Heps.
    assert (Heq : eps = ∅ ∪ list_to_set (map (fun g => default [] (episode g)) mine)
                  /\ mine <> []).
    { destruct mine; [done|]. by injection Heps as <-. }
    destruct Heq as [-> Hne]. clear Heps. split.
    + intros ep. rewrite elem_of_union, elem_of_list_to_set, list_elem_of_fmap. split.
      * intros [Hem|(g & -> & Hg)]; [by apply not_elem_of_empty in Hem|].
        exists g. split; [done|]. by destruct (Hmine g Hg) as (_ & ep & -> & <-).
      * intros (g & Hg & Hep). right. exists g. split; [|done]. by rewrite Hep.
    + rewrite (left_id_L ∅ (∪)). split.
      * destruct mine as [|g mine']; [done|]. cbn [map list_to_set].
        assert (Hin : default [] (episode g) ∈
                  ({[default [] (episode g)]} ∪ list_to_set
                     (map (fun g0 => default [] (episode g0)) mine') : gset str))
          by set_solver.
        destruct (decide (size ({[default [] (episode g)]} ∪ list_to_set
                     (map (fun g0 => default [] (episode g0)) mine') : gset str) = 0))
          as [H0|H0]; [|lia].
        apply size_empty_inv in H0. set_solver.
      * clear Hmine Hc He Hne. induction mine as [|g mine' IH]; cbn [map list_to_set length].
        -- by rewrite size_empty.
        -- rewrite size_union_alt, size_singleton.
           assert (Hsub : size (list_to_set (map (fun g0 => default [] (episode g0)) mine')
                                 ∖ {[default [] (episode g)]} : gset str)
                          <= size (list_to_set
                                     (map (fun g0 => default [] (episode g0)) mine')
                                   : gset str)).
           { apply subseteq_size. set_solver. }
           lia.
Qed.

(** ** The scraper's file names *)

Lemma re_sub_class (p : ascii -> bool) (prev : option ascii) (l : str) :
  re_sub_from (Re.Cls p) prev l 0 = filter (fun c => p c = false) l.
Proof.
  revert prev. induction l as [|x t IH]; intros prev; [done|].
  cbn [re_sub_from Re.run Re.m_rest Re.m_grp]. rewrite filter_cons.
  destruct (p x) eqn:E.
  - cbn [Re.m_rest length]. replace (S (length t) - length t) with 1 by lia.
    rewrite decide_False by done. apply IH.
  - rewrite decide_True by done. f_equal. apply IH.
Qed.

Lemma drop_while_idem {A} (p : A -> bool) (l : list A) :
  drop_while p (drop_while p l) = drop_while p l.
Proof.
  induction l as [|x t IH]; [done|]. cbn. destruct (p x) eqn:E; [done|].
  cbn. by rewrite E.
Qed.

Lemma drop_while_snoc {A} (p : A -> bool) (l : list A) (c : A) :
  p c = false -> exists z, drop_while p (l ++ [c]) = z ++ [c].
Proof.
  intros Hc. induction l as [|x t IH]; cbn.
  - rewrite Hc. by exists [].
  - destruct (p x); [done|]. by exists (x :: t).
Qed.

Lemma strip_idem (s : str) : strip (strip s) = strip s.
Proof.
  unfold strip, lstrip, rstrip.
  set (y := drop_while Char.is_space s).
  assert (Hy : drop_while Char.is_space y = y) by apply drop_while_idem.
  assert (Hl : drop_while Char.is_space (rev (drop_while Char.is_space (rev y)))
               = rev (drop_while Char.is_space (rev y))).
  { destruct y as [|c y'] eqn:Ey; [done|].
    assert (Hc : Char.is_space c = false).
    { cbn in Hy. destruct (Char.is_space c); [|done].
      pose proof (drop_while_length Char.is_space y') as Hlen.
      rewrite Hy in Hlen. cbn in Hlen. lia. }
    cbn [rev]. destruct (drop_while_snoc Char.is_space (rev y') c Hc) as (z & ->).
    rewrite rev_app_distr. cbn. by rewrite Hc. }
  rewrite Hl, rev_involutive, drop_while_idem. done.
Qed.

Lemma strip_elem_of (s : str) (c : ascii) : c ∈ strip s -> c ∈ s.
Proof.
  pose proof (strip_contains s) as H. apply contains_iff in H as (pre & post & H).
  intros Hc. rewrite H. set_solver.
Qed.

Lemma filter_id_Forall {A} (P : A -> Prop) `{!forall x, Decision (P x)} (l : list A) :
  Forall P l -> filter P l = l.
Proof.
  induction 1 as [|x t Hx _ IH]; [done|].
  rewrite filter_cons, decide_True by done. by f_equal.
Qed.

(** X18.  [sanitize_filename] deletes the nine characters of its pattern and
    trims the rest; the name it returns is never empty, holds none of the
    nine characters (no slash in particular), has no white space at either
    end, and is left unchanged by a second call. *)
Theorem sanitize_filename_safe (filename : str) :
  let s := sanitize_filename filename in
  s = match strip (filter (fun c => is_invalid c = false) filename) with
      | [] => lit "unknown"
      | v => v
      end
  /\ s <> []
  /\ Forall (fun c => is_invalid c = false) s
  /\ strip s = s
  /\ sanitize_filename s = s.
Proof.
  cbv zeta. unfold sanitize_filename, re_sub, invalid_re. rewrite !re_sub_class.
  set (v := strip (filter _ filename)).
  assert (Hv : Forall (fun c => is_invalid c = false) v).
  { apply Forall_forall. intros c Hc. apply strip_elem_of in Hc.
    by apply list_elem_of_filter in Hc as [? _]. }
  assert (Hs : strip v = v) by apply strip_idem.
  destruct v as [|c v'] eqn:Ev.
  - split; [done|]. split; [done|]. split; [by vm_compute; repeat constructor|].
    split; by vm_compute.
  - split; [done|]. split; [done|]. split; [done|]. split; [done|].
    rewrite (filter_id_Forall _ _ Hv), Hs. done.
Qed.

(** ** Decimal numerals *)

Lemma digit_value_char (d : N) : (d < 10)%N -> digit_value (digit_char d) = Z.of_N d.
Proof.
  intros H. unfold digit_value, digit_char, Char.code.
  rewrite N_ascii_embedding by lia. lia.
Qed.

Lemma digit_char_digit (d : N) : (d < 10)%N -> Char.is_digit (digit_char d) = true.
Proof.
  intros H. unfold Char.is_digit, Char.in_range, digit_char, Char.code.
  rewrite N_ascii_embedding by lia. apply andb_true_iff. split; apply N.leb_le; lia.
Qed.

Lemma digits_fuel_value (fuel : nat) (n : N) (acc : str) :
  (n < 2 ^ N.of_nat fuel)%N ->
  digits_value (digits_fuel fuel n acc)
  = fold_left (fun a c => 10 * a + digit_value c)%Z acc (Z.of_N n).
Proof.
  unfold digits_value. revert n acc. induction fuel as [|fuel IH]; intros n acc Hn.
  - cbn in Hn. assert (n = 0%N) as -> by lia. done.
  - cbn [digits_fuel]. pose proof (N.mod_lt n 10 ltac:(done)) as Hm.
    destruct (n <? 10)%N eqn:E.
    + apply N.ltb_lt in E. rewrite N.mod_small by done. cbn [fold_left].
      rewrite digit_value_char by done. f_equal.
    + apply N.ltb_ge in E. rewrite IH.
      * cbn [fold_left]. rewrite digit_value_char by done. f_equal.
        pose proof (N.div_mod n 10 ltac:(done)). lia.
      * rewrite Nat2N.inj_succ, N.pow_succ_r' in Hn.
        apply N.Div0.div_lt_upper_bound. lia.
Qed.

Lemma digits_fuel_digits (fuel : nat) (n : N) (acc : str) :
  forallb Char.is_digit acc = true ->
  forallb Char.is_digit (digits_fuel fuel n acc) = true.
Proof.
  revert n acc. induction fuel as [|fuel IH]; intros n acc Hacc; [done|].
  cbn [digits_fuel]. pose proof (N.mod_lt n 10 ltac:(done)) as Hm.
  assert (forallb Char.is_digit (digit_char (n mod 10) :: acc) = true) as H.
  { cbn. by rewrite digit_char_digit. }
  destruct (n <? 10)%N; [done|]. by apply IH.
Qed.

Lemma digits_fuel_length (fuel : nat) (n : N) (acc : str) (k : nat) :
  (n < 10 ^ N.of_nat (S k))%N ->
  length (digits_fuel (S fuel) n acc) <= S k + length acc.
Proof.
  revert n acc k. induction fuel as [|fuel IH]; intros n acc k Hn.
  - cbn. destruct (n <? 10)%N; cbn; lia.
  - cbn [digits_fuel]. destruct (n <? 10)%N eqn:E; [cbn; lia|].
    apply N.ltb_ge in E. destruct k as [|k].
    + cbn in Hn. lia.
    + change (length (digits_fuel (S fuel) (n / 10) (digit_char (n mod 10) :: acc))
              <= S (S k) + length acc).
      etrans; [apply (IH _ _ k)|cbn; lia].
      rewrite (Nat2N.inj_succ (S k)), N.pow_succ_r' in Hn.
      apply N.Div0.div_lt_upper_bound. lia.
Qed.

Lemma size_nat_gt (n : N) : (n < 2 ^ N.of_nat (N.size_nat n))%N.
Proof.
  destruct n as [|p]; [done|]. cbn [N.size_nat].
  induction p as [p IH|p IH|]; cbn [Pos.size_nat];
    rewrite ?Nat2N.inj_succ, ?N.pow_succ_r' in *; lia.
Qed.

Lemma str_nat_value (n : N) : digits_value (str_nat n) = Z.of_N n.
Proof.
  unfold str_nat. rewrite digits_fuel_value; [done|].
  rewrite Nat2N.inj_succ, N.pow_succ_r'. pose proof (size_nat_gt n). lia.
Qed.

Lemma digits_fuel_nil (fuel : nat) (n : N) (acc : str) :
  digits_fuel fuel n acc = [] -> acc = [].
Proof.
  revert n acc. induction fuel as [|fuel IH]; intros n acc; [done|].
  cbn [digits_fuel]. destruct (n <? 10)%N; [done|]. intros H. by apply IH in H.
Qed.

Lemma str_nat_digits (n : N) : all_digits (str_nat n) = true.
Proof.
  unfold all_digits.
  pose proof (digits_fuel_digits (S (N.size_nat n)) n [] eq_refl) as H.
  unfold str_nat in *. destruct (digits_fuel _ _ _) eqn:E; [|done].
  cbn [digits_fuel] in E. destruct (n <? 10)%N; [done|].
  by apply digits_fuel_nil in E.
Qed.

Lemma py_str_nonneg (n : Z) :
  (0 <= n < 10 ^ Z.of_nat int_max_str_digits)%Z ->
  py_str n = Some (str_nat (Z.to_N n))
  /\ length (str_nat (Z.to_N n)) <= int_max_str_digits.
Proof.
  intros [H0 H1]. unfold py_str.
  assert (Hlen : length (str_nat (Z.to_N n)) <= int_max_str_digits).
  { unfold str_nat, int_max_str_digits in *.
    etrans; [apply (digits_fuel_length _ _ _ 4299)|cbn [length]; lia].
    apply N2Z.inj_lt. rewrite Z2N.id by done. rewrite N2Z.inj_pow.
    rewrite nat_N_Z. exact H1. }
  replace (Z.abs_N n) with (Z.to_N n) by lia.
  rewrite decide_True by done.
  assert ((n <? 0)%Z = false) as -> by lia. done.
Qed.

(** ** Scanning the text the scraper writes *)

Lemma scan_here (label : str) (value : str -> option str) (text r v : str) :
  after_label label text = Some r -> value r = Some v ->
  scan_label label value text = Some v.
Proof. intros H1 H2. destruct text; cbn [scan_label]; by rewrite H1, H2. Qed.

Lemma scan_skip1 (label : str) (value : str -> option str) (c : ascii) (t : str) :
  after_label label (c :: t) = None ->
  scan_label label value (c :: t) = scan_label label value t.
Proof. intros H. cbn [scan_label]. by rewrite H. Qed.

(** A label that stands at the head of [a ++ c :: b] and cannot hold [c]
    stands at the head of [a]. *)
Lemma after_label_stop (label a b : str) (c : ascii) (r : str) :
  Forall (fun x => Char.eq_ci x c = false) label ->
  after_label label (a ++ c :: b) = Some r ->
  exists r', after_label label a = Some r'.
Proof.
  revert a. induction label as [|x label IH]; intros a Hl; [by eexists|].
  apply Forall_cons in Hl as [Hx Hl].
  destruct a as [|y a]; cbn.
  - by rewrite Hx.
  - destruct (Char.eq_ci x y); [|done]. by apply IH.
Qed.

Lemma scan_skip_value (label : str) (value : str -> option str) (v t : str) :
  Forall (fun x => Char.eq_ci x newline = false) label ->
  label_stands label v = false ->
  scan_label label value (v ++ newline :: t) = scan_label label value (newline :: t).
Proof.
  intros Hl. induction v as [|c v IH]; [done|].
  cbn [label_stands]. destruct (after_label label (c :: v)) as [r'|] eqn:E'; [done|].
  intros H. change ((c :: v) ++ newline :: t) with (c :: (v ++ newline :: t)).
  rewrite scan_skip1; [by apply IH|].
  destruct (after_label label (c :: v ++ newline :: t)) as [r|] eqn:E; [|done].
  apply (after_label_stop label (c :: v)) in E as [r'' E]; [|done]. congruence.
Qed.

(** A label stands nowhere in a value none of whose characters is read as
    the first character of the label. *)
Lemma label_stands_first (a : ascii) (label' v : str) :
  Forall (fun c => Char.eq_ci a c = false) v ->
  label_stands (a :: label') v = false.
Proof.
  induction 1 as [|c v Hc _ IH]; [done|].
  cbn [label_stands after_label]. by rewrite Hc.
Qed.

Lemma digit_not_cr (d : ascii) : Char.is_digit d = true -> Char.is_code 13 d = false.
Proof. by_cases_on d. Qed.

(** No digit is read as one of the letters E, C, D, and no white space as
    the letter D. *)
Lemma digit_no_initial (d : ascii) :
  Char.is_digit d = true ->
  Char.eq_ci "E" d = false /\ Char.eq_ci "C" d = false /\ Char.eq_ci "D" d = false.
Proof. by_cases_on d. Qed.

Lemma space_no_initial (c : ascii) : Char.is_space c = true -> Char.eq_ci "D" c = false.
Proof. by_cases_on c. Qed.

Lemma digits_free (a : ascii) (label' v : str) :
  a = "E"%char \/ a = "C"%char \/ a = "D"%char ->
  forallb Char.is_digit v = true -> label_stands (a :: label') v = false.
Proof.
  intros Ha Hv. apply label_stands_first. apply Forall_forall. intros d Hd.
  rewrite forallb_forall in Hv. apply list_elem_of_In, Hv in Hd.
  destruct (digit_no_initial d Hd) as (H1 & H2 & H3).
  by destruct Ha as [->|[->| ->]].
Qed.

(** ** Values *)

Lemma drop_while_app_stop {A} (p : A -> bool) (l t : list A) :
  forallb p l = false -> drop_while p (l ++ t) = drop_while p l ++ t.
Proof.
  induction l as [|x l IH]; [done|]. cbn. destruct (p x); [apply IH|done].
Qed.

Lemma drop_while_app_all {A} (p : A -> bool) (l t : list A) :
  forallb p l = true -> drop_while p (l ++ t) = drop_while p t.
Proof.
  induction l as [|x l IH]; [done|]. cbn. destruct (p x); [apply IH|done].
Qed.

Lemma take_while_app_stop {A} (p : A -> bool) (l t : list A) (c : A) :
  forallb p l = true -> p c = false -> take_while p (l ++ c :: t) = l.
Proof.
  intros Hl Hc. induction l as [|x l IH]; cbn.
  - by rewrite Hc.
  - cbn in Hl. apply andb_true_iff in Hl as [-> Hl]. f_equal. by apply IH.
Qed.

Lemma one_line_dots (v : str) : one_line v = true -> forallb Char.is_dot v = true.
Proof.
  unfold one_line. induction v as [|c v IH]; [done|]. cbn [forallb].
  rewrite !andb_true_iff. intros [[H1 _] H2]. split; [|by apply IH].
  unfold Char.is_dot. done.
Qed.

Lemma forallb_drop_while {A} (p q : A -> bool) (l : list A) :
  forallb q l = true -> forallb q (drop_while p l) = true.
Proof.
  induction l as [|x l IH]; [done|]. cbn. intros H.
  apply andb_true_iff in H as [H1 H2]. destruct (p x); [by apply IH|].
  cbn. by rewrite H1, H2.
Qed.

Lemma drop_while_not_nil {A} (p : A -> bool) (l : list A) :
  forallb p l = false -> drop_while p l <> [].
Proof. intros H E. apply drop_while_nil in E. congruence. Qed.

Lemma newline_space : Char.is_space newline = true.
Proof. done. Qed.

(** After a label and one blank, a value that fills its line is read
    back trimmed. *)
Lemma line_after_value (v t : str) :
  one_line v = true -> blank v = false ->
  line_after (lit " " ++ v ++ newline :: t) = Some (strip v).
Proof.
  intros H1 H2. unfold line_after, blank in *. cbn [lit list_ascii_of_string app].
  cbn [drop_while]. change (Char.is_space " ") with true. cbn match.
  rewrite drop_while_app_stop by done.
  pose proof (drop_while_not_nil _ _ H2) as Hne.
  destruct (drop_while Char.is_space v) as [|c y] eqn:E; [done|].
  change ((c :: y) ++ newline :: t) with (c :: (y ++ newline :: t)). cbn match.
  change (c :: (y ++ newline :: t)) with ((c :: y) ++ newline :: t).
  rewrite take_while_app_stop.
  - rewrite <- E. unfold strip, lstrip. by rewrite drop_while_idem.
  - rewrite <- E. apply forallb_drop_while. by apply one_line_dots.
  - done.
Qed.

(** The last value of the text may be blank: it is read back empty. *)
Lemma line_after_last (v : str) :
  one_line v = true ->
  line_after (lit " " ++ v ++ [newline]) = Some (strip v).
Proof.
  intros H1. destruct (blank v) eqn:B; [|by apply line_after_value].
  unfold line_after, blank in *. cbn [lit list_ascii_of_string app].
  cbn [drop_while existsb]. change (Char.is_space " ") with true.
  change (Char.is_dot " ") with true. cbn match.
  rewrite drop_while_app_all by done. cbn.
  by rewrite forallb_space_strip.
Qed.

(** A blank value leaves its line to the next one. *)
Lemma line_after_blank (v next t : str) (c : ascii) :
  blank v = true -> Char.is_space c = false -> one_line (c :: next) = true ->
  line_after (lit " " ++ v ++ newline :: (c :: next) ++ newline :: t)
  = Some (strip (c :: next)).
Proof.
  intros H1 H2 H3. unfold line_after, blank in *. cbn [lit list_ascii_of_string app].
  cbn [drop_while]. change (Char.is_space " ") with true. cbn match.
  rewrite drop_while_app_all by done. cbn [drop_while]. rewrite newline_space, H2.
  change (c :: next ++ newline :: t) with ((c :: next) ++ newline :: t).
  rewrite take_while_app_stop; [done|by apply one_line_dots|done].
Qed.

Lemma digits_after_value (d t : str) :
  all_digits d = true ->
  digits_after (lit " " ++ d ++ newline :: t) = Some d.
Proof.
  unfold all_digits, digits_after. destruct d as [|c d]; [done|]. intros H.
  cbn [lit list_ascii_of_string app drop_while]. change (Char.is_space " ") with true.
  cbn match. assert (Hc : Char.is_space c = false).
  { cbn in H. apply andb_true_iff in H as [H _].
    destruct (Char.is_space c) eqn:E; [|done]. apply space_not_digit in E. congruence. }
  rewrite Hc. change (c :: d ++ newline :: t) with ((c :: d) ++ newline :: t).
  rewrite take_while_app_stop; done.
Qed.

Lemma universal_newlines_id (l : str) :
  forallb (fun c => negb (Char.is_code 13 c)) l = true -> universal_newlines l = l.
Proof.
  induction l as [|c t IH]; [done|]. cbn [forallb universal_newlines].
  intros H. apply andb_true_iff in H as [H1 H2].
  destruct (Char.is_code 13 c); [done|]. f_equal. by apply IH.
Qed.

Lemma one_line_no_cr (v : str) :
  one_line v = true -> forallb (fun c => negb (Char.is_code 13 c)) v = true.
Proof.
  unfold one_line. induction v as [|c v IH]; [done|]. cbn [forallb].
  rewrite !andb_true_iff. intros [[_ H1] H2]. split; [done|by apply IH].
Qed.

Lemma digits_no_cr (v : str) :
  forallb Char.is_digit v = true -> forallb (fun c => negb (Char.is_code 13 c)) v = true.
Proof.
  induction v as [|c v IH]; [done|]. cbn [forallb].
  rewrite !andb_true_iff. intros [H1 H2]. split; [|by apply IH].
  by rewrite digit_not_cr.
Qed.

(** ** What the parser reads in a file the scraper wrote *)

Lemma blank_free (label' v : str) :
  blank v = true -> label_stands ("D"%char :: label') v = false.
Proof.
  intros Hv. apply label_stands_first. apply Forall_forall. intros c Hc.
  unfold blank in Hv. rewrite forallb_forall in Hv.
  apply list_elem_of_In, Hv in Hc. by apply space_no_initial.
Qed.

Lemma free_of_cons (l : str) (ls : list str) (v : str) :
  free_of (l :: ls) v = true <-> label_stands l v = false /\ free_of ls v = true.
Proof.
  unfold free_of. cbn [forallb]. rewrite andb_true_iff, negb_true_iff. done.
Qed.

Ltac scan_to :=
  repeat first
    [ rewrite scan_skip1 by (vm_compute; reflexivity)
    | rewrite scan_skip_value by (try assumption; repeat constructor) ].

Lemma saved_text_scans (T N E O W D ow : str) :
  let text :=
    lit "Title: " ++ T ++ newline ::
    lit "Season: " ++ N ++ newline ::
    lit "Episode: " ++ E ++ newline ::
    lit "Episode Order: " ++ O ++ newline ::
    lit "Cutaway Owner: " ++ W ++ newline ::
    lit "Description: " ++ D ++ [newline] in
  plain [season_label; episode_label; order_label; owner_label; desc_label] T = true ->
  all_digits N = true ->
  plain [order_label; owner_label; desc_label] E = true ->
  all_digits O = true ->
  label_stands desc_label W = false ->
  line_after (lit " " ++ W ++ newline :: lit "Description: " ++ D ++ [newline]) = Some ow ->
  one_line D = true ->
  scan_label title_label line_after text = Some (strip T)
  /\ scan_label season_label digits_after text = Some N
  /\ scan_label episode_label line_after text = Some (strip E)
  /\ scan_label order_label digits_after text = Some O
  /\ scan_label owner_label line_after text = Some ow
  /\ scan_label desc_label line_after text = Some (strip D).
Proof.
  intros text HT HN HE HO HW How HD. unfold plain in HT, HE.
  apply andb_true_iff in HT as [HT HT3]. apply andb_true_iff in HT as [HT1 HT2].
  apply andb_true_iff in HE as [HE HE3]. apply andb_true_iff in HE as [HE1 HE2].
  apply negb_true_iff in HT2, HE2.
  rewrite !free_of_cons in HT3. rewrite !free_of_cons in HE3.
  destruct HT3 as (HTs & HTe & HTo & HTw & HTd & _).
  destruct HE3 as (HEo & HEw & HEd & _).
  assert (HNd : forallb Char.is_digit N = true).
  { unfold all_digits in HN. by destruct N. }
  assert (HOd : forallb Char.is_digit O = true).
  { unfold all_digits in HO. by destruct O. }
  pose proof (digits_free "E" (lit "pisode:") N ltac:(auto) HNd) as HNe.
  pose proof (digits_free "E" (lit "pisode Order:") N ltac:(auto) HNd) as HNo.
  pose proof (digits_free "C" (lit "utaway Owner:") N ltac:(auto) HNd) as HNw.
  pose proof (digits_free "D" (lit "escription:") N ltac:(auto) HNd) as HNdsc.
  pose proof (digits_free "C" (lit "utaway Owner:") O ltac:(auto) HOd) as HOw.
  pose proof (digits_free "D" (lit "escription:") O ltac:(auto) HOd) as HOdsc.
  change ("E"%char :: lit "pisode:") with episode_label in HNe.
  change ("E"%char :: lit "pisode Order:") with order_label in HNo.
  change ("C"%char :: lit "utaway Owner:") with owner_label in HNw, HOw.
  change ("D"%char :: lit "escription:") with desc_label in HNdsc, HOdsc.
  subst text. cbn [lit list_ascii_of_string app].
  repeat split.
  - eapply scan_here; [reflexivity|]. by apply (line_after_value T).
  - scan_to. eapply scan_here; [reflexivity|]. by apply (digits_after_value N).
  - scan_to. eapply scan_here; [reflexivity|]. by apply (line_after_value E).
  - scan_to. eapply scan_here; [reflexivity|]. by apply (digits_after_value O).
  - scan_to. eapply scan_here; [reflexivity|]. exact How.
  - scan_to. eapply scan_here; [reflexivity|]. by apply (line_after_last D).
Qed.

Lemma forallb_app_true {A} (p : A -> bool) (l1 l2 : list A) :
  forallb p l1 = true -> forallb p l2 = true -> forallb p (l1 ++ l2) = true.
Proof. intros H1 H2. rewrite forallb_app. by rewrite H1, H2. Qed.

(** The text of a gag with plain fields, as written and as read. *)
Lemma saved_file_text (gag : Scraped) (stem name : str) :
  fields_plain gag = true -> one_line (sc_owner gag) = true ->
  let N := str_nat (Z.to_N (sc_season gag)) in
  saved_file stem name gag
  = Some (mkFile stem name
       (lit "Title: " ++ sc_title gag ++ newline ::
        lit "Season: " ++ N ++ newline ::
        lit "Episode: " ++ sc_episode gag ++ newline ::
        lit "Episode Order: " ++ sc_episode_order gag ++ newline ::
        lit "Cutaway Owner: " ++ sc_owner gag ++ newline ::
        lit "Description: " ++ sc_description gag ++ [newline]))
  /\ all_digits N = true /\ length N <= int_max_str_digits
  /\ digits_value N = sc_season gag.
Proof.
  intros Hp HW N. unfold fields_plain in Hp.
  repeat (apply andb_true_iff in Hp as [Hp ?]).
  match goal with H : bool_decide (_ <= _ < _)%Z = true |- _ =>
    apply bool_decide_eq_true in H; rename H into Hs end.
  destruct (py_str_nonneg _ Hs) as [Hstr Hlen]. fold N in Hstr, Hlen.
  pose proof (str_nat_digits (Z.to_N (sc_season gag))) as HN. fold N in HN.
  split; [|split; [done|split; [done|]]].
  - unfold saved_file, file_text. rewrite Hstr. cbn [mbind option_bind]. do 2 f_equal.
    apply universal_newlines_id.
    unfold plain in *.
    repeat match goal with H : _ && _ = true |- _ => apply andb_true_iff in H as [H ?] end.
    assert (forallb Char.is_digit N = true) by (unfold all_digits in HN; by destruct N).
    assert (forallb Char.is_digit (sc_episode_order gag) = true).
    { match goal with H : all_digits _ = true |- _ => unfold all_digits in H;
        by destruct (sc_episode_order gag) end. }
    repeat first
      [ apply forallb_app_true
      | by apply one_line_no_cr
      | by apply digits_no_cr
      | reflexivity
      | (cbn [forallb]; apply andb_true_iff; split; [reflexivity|]) ].
  - subst N. rewrite str_nat_value. lia.
Qed.

(** X19.  Writing then reading.  For a scraped gag whose title, episode
    and owner are plain (one line, not blank, and none of the labels that
    follow them in the file stands in them, as the patterns read a label),
    whose season is not negative and below 10^4300, whose episode order is
    a run of at most 4300 digits and whose description is one line, the file
    the scraper writes parses, under whatever name it is saved, to the
    record of these very values, trimmed; the title comes from the text,
    not from the file name, and an empty description is read back as the
    empty string. *)
Theorem save_then_parse (gag : Scraped) (file_stem file_name : str) :
  fields_plain gag = true ->
  plain [desc_label] (sc_owner gag) = true ->
  exists f, saved_file file_stem file_name gag = Some f
    /\ parse_gag_file f
       = Some (mkGag (strip (sc_title gag)) (Some (sc_season gag))
                     (Some (strip (sc_episode gag)))
                     (Some (digits_value (sc_episode_order gag)))
                     (Some (strip (sc_owner gag)))
                     (Some (strip (sc_description gag))) file_name).
Proof.
  intros Hp HW. unfold plain in HW.
  apply andb_true_iff in HW as [HW HW3]. apply andb_true_iff in HW as [HW1 HW2].
  apply negb_true_iff in HW2. apply free_of_cons in HW3 as [HW3 _].
  destruct (saved_file_text gag file_stem file_name Hp HW1) as (Hf & HN & Hlen & Hval).
  eexists. split; [exact Hf|].
  unfold fields_plain in Hp. do 5 (apply andb_true_iff in Hp as [Hp ?]).
  match goal with H : bool_decide (length _ <= _) = true |- _ =>
    apply bool_decide_eq_true in H; rename H into HlenO end.
  edestruct (saved_text_scans (sc_title gag) (str_nat (Z.to_N (sc_season gag)))
               (sc_episode gag) (sc_episode_order gag) (sc_owner gag)
               (sc_description gag) (strip (sc_owner gag)))
    as (S1 & S2 & S3 & S4 & S5 & S6); try eassumption.
  { by apply line_after_value. }
  rewrite parse_gag_file_spec. unfold parsed_record. cbn [content stem name].
  rewrite S1, S2, S3, S4, S5, S6. cbn [convertible default fmap option_fmap option_map].
  rewrite !bool_decide_eq_true_2 by done. cbn [andb]. by rewrite Hval.
Qed.

Lemma save_then_parse_witness :
  fields_plain scraped_moon = true
  /\ plain [desc_label] (sc_owner scraped_moon) = true
  /\ exists f, saved_file (lit "moon") (lit "moon.txt") scraped_moon = Some f
       /\ parse_gag_file f
          = Some (mkGag (lit "Peter Goes to the Moon") (Some 5%Z)
                        (Some (lit "Meet the Quagmires")) (Some 3%Z)
                        (Some (lit "Peter Griffin"))
                        (Some (lit "Peter floats away holding balloons and lands on the moon."))
                        (lit "moon.txt")).
Proof.
  split; [by vm_compute|]. split; [by vm_compute|].
  apply (save_then_parse scraped_moon (lit "moon") (lit "moon.txt")); by vm_compute.
Defined.

(** X20.  An empty owner.  When the owner of a scraped gag is blank (the
    other fields as in X19: title and episode plain, season not negative and
    below 10^4300, episode order a run of at most 4300 digits, description
    one line), the parser does not leave the owner unset: the white space
    after the owner label runs over the line break, and the whole next
    line, label included, becomes the owner. *)
Theorem blank_owner_reads_next_line (gag : Scraped) (file_stem file_name : str) :
  fields_plain gag = true ->
  blank (sc_owner gag) = true -> one_line (sc_owner gag) = true ->
  exists f, saved_file file_stem file_name gag = Some f
    /\ parse_gag_file f
       = Some (mkGag (strip (sc_title gag)) (Some (sc_season gag))
                     (Some (strip (sc_episode gag)))
                     (Some (digits_value (sc_episode_order gag)))
                     (Some (strip (lit "Description: " ++ sc_description gag)))
                     (Some (strip (sc_description gag))) file_name).
Proof.
  intros Hp HW2 HW1.
  destruct (saved_file_text gag file_stem file_name Hp HW1) as (Hf & HN & Hlen & Hval).
  eexists. split; [exact Hf|].
  unfold fields_plain in Hp. do 5 (apply andb_true_iff in Hp as [Hp ?]).
  match goal with H : bool_decide (length _ <= _) = true |- _ =>
    apply bool_decide_eq_true in H; rename H into HlenO end.
  edestruct (saved_text_scans (sc_title gag) (str_nat (Z.to_N (sc_season gag)))
               (sc_episode gag) (sc_episode_order gag) (sc_owner gag)
               (sc_description gag) (strip (lit "Description: " ++ sc_description gag)))
    as (S1 & S2 & S3 & S4 & S5 & S6); try eassumption.
  { by apply (blank_free (lit "escription:")). }
  { apply (line_after_blank (sc_owner gag) (lit "escription: " ++ sc_description gag)
             [] "D"); [done|done|].
    unfold one_line in *. cbn [lit list_ascii_of_string app forallb]. by rewrite H. }
  rewrite parse_gag_file_spec. unfold parsed_record. cbn [content stem name].
  rewrite S1, S2, S3, S4, S5, S6. cbn [convertible default fmap option_fmap option_map].
  rewrite !bool_decide_eq_true_2 by done. cbn [andb]. by rewrite Hval.
Qed.

Lemma blank_owner_reads_next_line_witness :
  fields_plain scraped_no_owner = true
  /\ blank (sc_owner scraped_no_owner) = true
  /\ exists f, saved_file (lit "Moon Landing") (lit "Moon Landing.txt") scraped_no_owner = Some f
       /\ parse_gag_file f
          = Some (mkGag (lit "Moon Landing") (Some 1%Z) (Some (lit "Pilot")) (Some 2%Z)
                        (Some (lit "Description: A rocket lands."))
                        (Some (lit "A rocket lands.")) (lit "Moon Landing.txt")).
Proof.
  split; [by vm_compute|]. split; [by vm_compute|].
  apply (blank_owner_reads_next_line scraped_no_owner (lit "Moon Landing")
           (lit "Moon Landing.txt")); by vm_compute.
Defined.

(** ** Paths *)

Lemma rfind_at_absent (c : ascii) (l : str) (i found : Z) :
  c ∉ l -> rfind_at c l i found = found.
Proof.
  revert i found. induction l as [|x t IH]; intros i found Hc; [done|].
  cbn [rfind_at]. apply not_elem_of_cons in Hc as [Hx Ht].
  rewrite decide_False by done. by apply IH.
Qed.

Lemma rfind_at_app (c : ascii) (a b : str) (i found : Z) :
  rfind_at c (a ++ b) i found
  = rfind_at c b (i + Z.of_nat (length a)) (rfind_at c a i found).
Proof.
  revert i found. induction a as [|x a IH]; intros i found.
  - cbn. f_equal. lia.
  - cbn [app rfind_at length]. rewrite IH. f_equal. lia.
Qed.

Lemma rfind_last (c : ascii) (a b : str) :
  c ∉ b -> rfind c (a ++ c :: b) = Z.of_nat (length a).
Proof.
  intros Hb. unfold rfind. rewrite rfind_at_app. cbn [rfind_at].
  rewrite decide_True by done. rewrite rfind_at_absent by done. lia.
Qed.

Lemma rfind_absent (c : ascii) (l : str) : c ∉ l -> rfind c l = (-1)%Z.
Proof. apply rfind_at_absent. Qed.

Lemma path_join_relative (a b : str) :
  starts_with [slash] b = false -> path_join a b = dir_prefix a ++ b.
Proof.
  intros Hb. unfold path_join, dir_prefix. rewrite Hb.
  destruct a as [|x a]; [done|]. destruct (ends_with_char slash (x :: a)); [done|].
  by rewrite <- app_assoc.
Qed.

Lemma dir_prefix_shape (a : str) :
  dir_prefix a = [] \/ exists pre, dir_prefix a = pre ++ [slash].
Proof.
  unfold dir_prefix. destruct a as [|x a]; [by left|]. right.
  destruct (ends_with_char slash (x :: a)) eqn:E; [|by eexists].
  unfold ends_with_char in E. destruct (last (x :: a)) as [y|] eqn:L; [|done].
  case_decide as Hy; [|done]. subst y. apply last_Some in L as [pre ->]. by eexists.
Qed.

Lemma existsb_not_dot (s : str) :
  existsb (fun x => if decide (x = dot) then false else true) s = negb (all_dots s).
Proof.
  unfold all_dots. induction s as [|x s IH]; [done|]. cbn [existsb forallb].
  rewrite IH. by case_decide.
Qed.

(** The extension of [<pre><s>.txt], where [pre] is empty or ends with a
    slash and [s] holds none. *)
Lemma splitext_txt (pre s : str) :
  (pre = [] \/ exists pre', pre = pre' ++ [slash]) -> slash ∉ s ->
  splitext (pre ++ s ++ lit ".txt")
  = if all_dots s then (pre ++ s ++ lit ".txt", []) else (pre ++ s, lit ".txt").
Proof.
  intros Hpre Hs. unfold splitext.
  assert (Hsep : (rfind slash (pre ++ s ++ lit ".txt") + 1 = Z.of_nat (length pre))%Z).
  { assert (Hrest : slash ∉ s ++ lit ".txt").
    { rewrite elem_of_app. intros [?|H]; [done|]. by vm_compute in H; set_solver. }
    destruct Hpre as [->|[pre' ->]].
    - cbn [app length]. by rewrite rfind_absent.
    - rewrite <- app_assoc. cbn [app]. rewrite rfind_last by done.
      rewrite length_app. cbn. lia. }
  assert (Hdot : rfind dot (pre ++ s ++ lit ".txt") = Z.of_nat (length (pre ++ s))).
  { change (lit ".txt") with (dot :: lit "txt"). rewrite app_assoc.
    apply rfind_last. by vm_compute; set_solver. }
  rewrite Hsep, Hdot. rewrite length_app.
  assert ((rfind slash (pre ++ s ++ lit ".txt") <? Z.of_nat (length pre + length s))%Z = true)
    as -> by (apply Z.ltb_lt; lia).
  unfold slice. rewrite Nat2Z.id.
  replace (Z.to_nat (Z.of_nat (length pre + length s) - Z.of_nat (length pre)))
    with (length s) by lia.
  rewrite drop_app_length, take_app_length. rewrite existsb_not_dot. cbn [andb].
  destruct (all_dots s); cbn [negb]; [done|].
  rewrite Nat2Z.id, <- length_app, (app_assoc pre s).
  by rewrite take_app_length, drop_app_length.
Qed.

(** ** The paths [save_gags_to_files] writes to *)

Lemma pick_path_same (exists_ : str -> bool) (turns : nat) (base season : str) :
  let '(name, ext) := splitext base in
  pick_path exists_ turns base (name ++ lit "_s" ++ season ++ ext) season
  = name ++ lit "_s" ++ season ++ ext.
Proof.
  destruct (splitext base) as [name ext] eqn:E.
  induction turns as [|turns IH]; [done|].
  cbn [pick_path]. rewrite E. by destruct (exists_ _).
Qed.

Lemma pick_path_first (exists_ : str -> bool) (turns : nat) (base season : str) :
  pick_path exists_ (S turns) base base season
  = if exists_ base
    then let '(name, ext) := splitext base in name ++ lit "_s" ++ season ++ ext
    else base.
Proof.
  cbn [pick_path]. destruct (exists_ base); [|done].
  pose proof (pick_path_same exists_ turns base season) as H.
  by destruct (splitext base) as [name ext].
Qed.

Lemma file_text_py_str (gag : Scraped) :
  is_Some (file_text gag) <-> is_Some (py_str (sc_season gag)).
Proof.
  unfold file_text. destruct (py_str (sc_season gag)); cbn; split; eauto;
    intros [? ?]; done.
Qed.

Lemma py_str_limit (n : Z) :
  py_str n = None <-> int_max_str_digits < length (str_nat (Z.abs_N n)).
Proof. unfold py_str. case_decide; split; try done; lia. Qed.

Lemma save_gag_closed (opens : str -> bool) (output_dir : str) (fs : gmap str str)
    (gag : Scraped) :
  save_gag_on opens output_dir fs gag
  = (season ← py_str (sc_season gag);
     content ← file_text gag;
     let path := if exists_in fs (base_path output_dir gag)
                 then season_path output_dir gag season
                 else base_path output_dir gag in
     if opens path then Some (<[path := content]> fs) else None).
Proof.
  unfold save_gag_on. fold (base_path output_dir gag).
  destruct (py_str (sc_season gag)) as [season|]; [|done]. cbn [mbind option_bind].
  rewrite (pick_path_first _ 98). unfold season_path.
  by destruct (exists_in fs (base_path output_dir gag)).
Qed.

(** X21.  The loop that is to avoid overwriting tries one other name only.
    [save_gags_to_files] writes a gag to [<dir>/<name>.txt] when no such
    path exists, and otherwise to the one path built from that name and the
    season, whether or not that path exists: each of the up to 99 turns sets
    the same path.  Nothing is written exactly when the season cannot be
    formatted, which is when it has more than 4300 digits, or [open] fails
    on the path chosen. *)
Theorem save_gag_two_names (opens : str -> bool) (output_dir : str)
    (fs : gmap str str) (gag : Scraped) :
  let path season :=
    if exists_in fs (base_path output_dir gag)
    then season_path output_dir gag season
    else base_path output_dir gag in
  save_gag_on opens output_dir fs gag
  = (season ← py_str (sc_season gag);
     content ← file_text gag;
     if opens (path season) then Some (<[path season := content]> fs) else None)
  /\ (py_str (sc_season gag) = None
      <-> int_max_str_digits < length (str_nat (Z.abs_N (sc_season gag))))
  /\ (save_gag_on opens output_dir fs gag = None
      <-> py_str (sc_season gag) = None
          \/ exists season, py_str (sc_season gag) = Some season
                            /\ opens (path season) = false).
Proof.
  intros path. pose proof (save_gag_closed opens output_dir fs gag) as E.
  cbv zeta in E. fold (path) in E.
  split; [exact E|]. split; [apply py_str_limit|]. rewrite E.
  pose proof (file_text_py_str gag) as H.
  destruct (py_str (sc_season gag)) as [season|]; cbn [mbind option_bind].
  - destruct (file_text gag) as [content|]; cbn [mbind option_bind].
    + unfold path. destruct (opens _) eqn:O.
      * split; [done|]. intros [?|(s & Hs' & Hs)]; [done|].
        injection Hs' as <-. congruence.
      * split; [|done]. intros _. right. by exists season.
    + destruct H as [_ H]. destruct (H ltac:(eauto)) as [? ?]. done.
  - split; [by left|done].
Qed.



Lemma sanitize_filename_chars (filename : str) :
  sanitize_filename filename <> []
  /\ Forall (fun c => is_invalid c = false) (sanitize_filename filename).
Proof.
  unfold sanitize_filename, re_sub, invalid_re. rewrite re_sub_class.
  set (v := strip (filter _ filename)).
  assert (Hv : Forall (fun c => is_invalid c = false) v).
  { apply Forall_forall. intros c Hc. apply strip_elem_of in Hc.
    by apply list_elem_of_filter in Hc as [? _]. }
  destruct v as [|c v']; [|done]. split; [done|]. by (vm_compute; repeat constructor).
Qed.

Lemma sanitize_filename_relative (filename rest : str) :
  (slash ∉ sanitize_filename filename)
  /\ starts_with [slash] (sanitize_filename filename ++ rest) = false.
Proof.
  destruct (sanitize_filename_chars filename) as [Hne Hall].
  assert (Hs : slash ∉ sanitize_filename filename).
  { intros Hin. rewrite Forall_forall in Hall. by apply Hall in Hin. }
  split; [done|]. destruct (sanitize_filename filename) as [|c s]; [done|].
  cbn [app starts_with]. rewrite decide_False; [done|].
  intros <-. apply Hs. by left.
Qed.

(** X23.  The other name.  The season is put before the extension,
    [<dir>/<name>_s<season>.txt], except when the sanitized title is made of
    dots only: [os.path.splitext] then finds no extension and the gag is
    written to [<dir>/<name>.txt_s<season>], a path that does not end in
    [.txt]. *)
Theorem season_path_shape (output_dir : str) (gag : Scraped) (season : str) :
  let s := sanitize_filename (sc_title gag) in
  season_path output_dir gag season
  = path_join output_dir
      (if all_dots s then s ++ lit ".txt" ++ lit "_s" ++ season
       else s ++ lit "_s" ++ season ++ lit ".txt").
Proof.
  intros s. unfold season_path, base_path. fold s.
  destruct (sanitize_filename_relative (sc_title gag) (lit ".txt")) as [Hs H1].
  fold s in Hs, H1. rewrite (path_join_relative _ _ H1).
  rewrite (splitext_txt _ _ (dir_prefix_shape output_dir) Hs).
  rewrite path_join_relative.
  - destruct (all_dots s); rewrite ?app_nil_r, <- ?app_assoc; done.
  - destruct (all_dots s).
    + apply (proj2 (sanitize_filename_relative (sc_title gag) _)).
    + apply (proj2 (sanitize_filename_relative (sc_title gag) _)).
Qed.

Example dots_lose_extension :
  sanitize_filename (sc_title scraped_dots) = lit "..."
  /\ base_path (lit "gags") scraped_dots = lit "gags/....txt"
  /\ season_path (lit "gags") scraped_dots (lit "1") = lit "gags/....txt_s1".
Proof. by vm_compute. Qed.

Example third_twin_replaces_second :
  save_gags_to_files (fun _ => true) (lit "gags") ∅
    [scraped_twin "one"; scraped_twin "two"; scraped_twin "three"]
  = (<[lit "gags/Moon_s1.txt" := default [] (file_text (scraped_twin "three"))]>
       (<[lit "gags/Moon.txt" := default [] (file_text (scraped_twin "one"))]> ∅),
     true).
Proof. by vm_compute. Qed.

(** ** Saving a whole list *)

Lemma base_path_inj (output_dir : str) (g g' : Scraped) :
  base_path output_dir g = base_path output_dir g' ->
  sanitize_filename (sc_title g) = sanitize_filename (sc_title g').
Proof.
  unfold base_path.
  rewrite !path_join_relative by apply sanitize_filename_relative.
  intros H. apply app_inv_head in H. by apply app_inv_tail in H.
Qed.

Lemma save_each_distinct (opens : str -> bool) (output_dir : str) (l : list Scraped)
    (fs : gmap str str) :
  NoDup (map (fun g => sanitize_filename (sc_title g)) l) ->
  Forall (fun g => is_Some (py_str (sc_season g))) l ->
  (forall g, g ∈ l -> fs !! base_path output_dir g = None) ->
  (forall g, g ∈ l -> opens (base_path output_dir g) = true) ->
  exists fs', save_each opens output_dir fs l = (fs', true)
    /\ (forall g, g ∈ l -> fs' !! base_path output_dir g = file_text g)
    /\ (forall p, (forall g, g ∈ l -> p <> base_path output_dir g) -> fs' !! p = fs !! p).
Proof.
  revert fs. induction l as [|g l IH]; intros fs Hnd Hs Hfree Hopen.
  - exists fs. split; [done|]. split; [|done]. intros g Hg. by apply elem_of_nil in Hg.
  - cbn [map] in Hnd. apply NoDup_cons in Hnd as [Hg Hnd].
    apply Forall_cons in Hs as [[season Hseason] Hs].
    destruct (proj2 (file_text_py_str g) ltac:(rewrite Hseason; eauto)) as [content Hc].
    assert (Hother : forall g', g' ∈ l -> base_path output_dir g' <> base_path output_dir g).
    { intros g' Hg' Heq. apply Hg. rewrite <- (base_path_inj _ _ _ Heq).
      apply list_elem_of_fmap. by exists g'. }
    cbn [save_each]. rewrite save_gag_closed, Hseason, Hc. cbn [mbind option_bind].
    unfold exists_in. rewrite (Hfree g) by apply list_elem_of_here.
    rewrite bool_decide_eq_false_2 by (by intros [? ?]). cbv zeta.
    rewrite (Hopen g) by apply list_elem_of_here.
    destruct (IH (<[base_path output_dir g := content]> fs) Hnd Hs) as (fs' & E & Hin & Hout).
    { intros g' Hg'. rewrite lookup_insert_ne by (intros Heq; by apply (Hother g')).
      apply Hfree. by apply list_elem_of_further. }
    { intros g' Hg'. apply Hopen. by apply list_elem_of_further. }
    exists fs'. split; [done|]. split.
    + intros g' Hg'. apply elem_of_cons in Hg' as [->|Hg']; [|by apply Hin].
      rewrite Hout.
      * by rewrite lookup_insert_eq.
      * intros g' Hg' Heq. by apply (Hother g').
    + intros p Hp. rewrite Hout.
      * rewrite lookup_insert_ne; [done|]. intros Heq. apply (Hp g); [apply list_elem_of_here|done].
      * intros g' Hg'. apply Hp. by apply list_elem_of_further.
Qed.

(** X24.  When the sanitized titles of the gags are pairwise different,
    every season can be formatted, none of the gags' paths
    [<dir>/<sanitized title>.txt] exists and [open] succeeds on each of
    them, [save_gags_to_files] completes and the directory holds, under
    these paths, the text of each gag; every other path is as before. *)
Theorem save_distinct_names (opens : str -> bool) (output_dir : str)
    (fs : gmap str str) (gags : list Scraped) :
  NoDup (map (fun g => sanitize_filename (sc_title g)) gags) ->
  Forall (fun g => is_Some (py_str (sc_season g))) gags ->
  (forall g, g ∈ gags -> fs !! base_path output_dir g = None) ->
  (forall g, g ∈ gags -> opens (base_path output_dir g) = true) ->
  exists fs', save_gags_to_files opens output_dir fs gags = (fs', true)
    /\ (forall g, g ∈ gags -> fs' !! base_path output_dir g = file_text g)
    /\ (forall p, (forall g, g ∈ gags -> p <> base_path output_dir g) ->
                  fs' !! p = fs !! p).
Proof.
  intros Hnd Hs Hfree Hopen. unfold save_gags_to_files.
  set (key := fun x : Scraped => lower (sc_title x)).
  pose proof (py_sorted_perm key gags) as Hperm.
  destruct (save_each_distinct opens output_dir (py_sorted key gags) fs)
    as (fs' & E & Hin & Hout).
  - eapply NoDup_Permutation_proper; [|exact Hnd]. by apply Permutation_map.
  - eapply Permutation_Forall; [|exact Hs]. by symmetry.
  - intros g Hg. apply Hfree. by apply elem_of_py_sorted in Hg.
  - intros g Hg. apply Hopen. by apply elem_of_py_sorted in Hg.
  - exists fs'. split; [done|]. split.
    + intros g Hg. apply Hin. by apply elem_of_py_sorted.
    + intros p Hp. apply Hout. intros g Hg. apply Hp. by apply elem_of_py_sorted in Hg.
Qed.

Lemma save_distinct_names_witness :
  NoDup (map (fun g => sanitize_filename (sc_title g)) [scraped_moon; scraped_no_owner])
  /\ short_path (base_path (lit "gags") scraped_moon) = true
  /\ short_path (base_path (lit "gags") scraped_no_owner) = true
  /\ exists fs', save_gags_to_files short_path (lit "gags") ∅
                   [scraped_moon; scraped_no_owner] = (fs', true)
       /\ (forall g, g ∈ [scraped_moon; scraped_no_owner] ->
                     fs' !! base_path (lit "gags") g = file_text g)
       /\ (forall p, (forall g, g ∈ [scraped_moon; scraped_no_owner] ->
                                p <> base_path (lit "gags") g) ->
                     fs' !! p = (∅ : gmap str str) !! p).
Proof.
  assert (Hnd : NoDup (map (fun g => sanitize_filename (sc_title g))
                           [scraped_moon; scraped_no_owner])).
  { vm_compute. apply NoDup_cons. split; [|apply NoDup_singleton].
    intros H. apply list_elem_of_singleton in H. discriminate H. }
  assert (H1 : short_path (base_path (lit "gags") scraped_moon) = true)
    by (vm_compute; reflexivity).
  assert (H2 : short_path (base_path (lit "gags") scraped_no_owner) = true)
    by (vm_compute; reflexivity).
  split; [exact Hnd|]. split; [exact H1|]. split; [exact H2|].
  apply (save_distinct_names short_path (lit "gags") ∅ [scraped_moon; scraped_no_owner] Hnd).
  - repeat constructor; by vm_compute; eauto.
  - intros g _. apply lookup_empty.
  - intros g Hg. apply elem_of_cons in Hg as [->|Hg]; [exact H1|].
    apply list_elem_of_singleton in Hg as ->. exact H2.
Defined.

(** ** The order of the exports *)

Lemma insert_sorted_map {A} (key : A -> str) (x : A) (l : list A) :
  map key (insert_sorted key x l) = insert_sorted id (key x) (map key l).
Proof.
  induction l as [|y l IH]; [done|]. cbn [insert_sorted map id].
  destruct (str_leb (key x) (key y)); [done|]. cbn [map]. by rewrite IH.
Qed.

Lemma py_sorted_map {A} (key : A -> str) (l : list A) :
  map key (py_sorted key l) = py_sorted id (map key l).
Proof.
  induction l as [|x l IH]; [done|]. cbn [py_sorted foldr map].
  fold (py_sorted key l). fold (py_sorted id (map key l)).
  by rewrite insert_sorted_map, IH.
Qed.

Lemma store_wf_keys (d : list (str * Gag)) :
  store_wf d -> dict_keys d = map title (dict_values d).
Proof.
  intros [_ Ht]. unfold dict_keys, dict_values. rewrite map_map.
  apply map_ext_in. intros [k g] H. cbn. symmetry. apply Ht. by apply list_elem_of_In.
Qed.

Lemma mapM_get_rows (d : list (str * Gag)) (rows : list Gag) :
  store_wf d -> (forall g, g ∈ rows -> g ∈ dict_values d) ->
  mapM (fun t => dict_get t d) (map title rows) = Some rows.
Proof.
  intros Hwf. induction rows as [|g rows IH]; intros Hin; [done|].
  cbn [map]. rewrite mapM_Some. constructor.
  - apply store_wf_get; [done|]. apply Hin, list_elem_of_here.
  - apply mapM_Some, IH. intros g' Hg'. by apply Hin, list_elem_of_further.
Qed.

(** X25.  The exports of a loaded database list every stored record once,
    strictly ascending by title, so the count they print is the number of
    rows; the [list] command, which sorts the keys and looks each one up,
    never fails and lists the same rows in the same order. *)
Theorem export_rows_sorted (gag_files : list File) :
  let db := load_all_gags gag_files in
  Permutation (export_rows db) (dict_values (gags db))
  /\ StronglySorted (key_lt title) (export_rows db)
  /\ length (export_rows db) = length (gags db)
  /\ list_rows db = Some (export_rows db).
Proof.
  intros db. pose proof (load_store_wf gag_files) as Hwf. fold db in Hwf.
  unfold export_rows, list_rows.
  pose proof (py_sorted_perm title (dict_values (gags db))) as Hperm.
  split; [done|]. split; [|split].
  - apply sorted_strict; [|apply py_sorted_sorted].
    eapply NoDup_Permutation_proper; [by apply Permutation_map|].
    by apply store_wf_titles_NoDup.
  - rewrite (Permutation_length Hperm). unfold dict_values. by rewrite length_map.
  - rewrite (store_wf_keys _ Hwf), <- py_sorted_map.
    apply mapM_get_rows; [done|]. intros g Hg. by apply elem_of_py_sorted in Hg.
Qed.

(** ** Main and other owners *)

(** X26.  The two owner counts of the report split the records that have a
    non-empty owner: "Gags with main character" and "Gags with non-main
    character" add up to their number, which the number of stored records
    bounds; a record without owner, or with an empty one, is in neither. *)
Theorem main_and_non_main_counts (db : GagDatabase) :
  gags_with_main_character db + length (find_non_main_character_gags db)
  = length (filter (fun g => truthy (cutaway_owner g) = true) (dict_values (gags db)))
  /\ gags_with_main_character db + length (find_non_main_character_gags db)
     <= length (gags db).
Proof.
  unfold gags_with_main_character, find_non_main_character_gags.
  rewrite (Permutation_length (py_sorted_perm title _)).
  assert (Hl : length (gags db) = length (dict_values (gags db)))
    by (symmetry; apply length_map).
  rewrite Hl. generalize (dict_values (gags db)). intros l.
  induction l as [|g l IH]; [done|]. rewrite !filter_cons.
  destruct (truthy (cutaway_owner g)) eqn:T;
    destruct (is_main (lower (default [] (cutaway_owner g)))) eqn:M;
    repeat (case_decide; try naive_solver); cbn [length]; lia.
Qed.
